(** * FuriganaAssistant: the term grammar, the auto-division solver, the
    dictionary and the line tokenizer of [Utils/FuriganaManager.py], with
    the plain-text export of [Utils/FAGUI.py] and the table of the
    dictionary viewer of [Utils/FAWidgets.py].

    Python strings are sequences of Unicode code points: [str] is [list N].
    Exceptions are explicit: every function that can raise returns a
    [result].  The regular expressions of the source are kept as pattern
    texts, parsed by [re_compile] and run by the backtracking matcher
    [rmatch]. *)

From Stdlib Require Import String Ascii.
From Stdlib Require Import List NArith ZArith Bool Arith Lia Sorted Permutation.
Import ListNotations.

Set Implicit Arguments.

(* ------------------------------------------------------------------------- *)
(** ** Strings of code points *)

Definition str := list N.

Fixpoint bytes_of (s : string) : list N :=
  match s with
  | EmptyString => []
  | String a t => N_of_ascii a :: bytes_of t
  end.

(** UTF-8 decoding of a source literal into its code points. *)
Fixpoint utf8_decode (bs : list N) : str :=
  match bs with
  | [] => []
  | b0 :: r0 =>
    if (b0 <? 0x80)%N then b0 :: utf8_decode r0
    else if (b0 <? 0xE0)%N then
      match r0 with
      | b1 :: r1 =>
        N.lor (N.shiftl (N.land b0 0x1F) 6) (N.land b1 0x3F) :: utf8_decode r1
      | _ => []
      end
    else if (b0 <? 0xF0)%N then
      match r0 with
      | b1 :: b2 :: r2 =>
        N.lor (N.shiftl (N.land b0 0x0F) 12)
          (N.lor (N.shiftl (N.land b1 0x3F) 6) (N.land b2 0x3F))
        :: utf8_decode r2
      | _ => []
      end
    else
      match r0 with
      | b1 :: b2 :: b3 :: r3 =>
        N.lor (N.shiftl (N.land b0 0x07) 18)
          (N.lor (N.shiftl (N.land b1 0x3F) 12)
             (N.lor (N.shiftl (N.land b2 0x3F) 6) (N.land b3 0x3F)))
        :: utf8_decode r3
      | _ => []
      end
  end.

(** [u "..."] is the Python string literal, [ch "c"] a one-character one. *)
Definition u (s : string) : str := utf8_decode (bytes_of s).
Definition ch (s : string) : N := hd 0%N (u s).
Arguments u s%_string.
Arguments ch s%_string.

Fixpoint str_eqb (a b : str) : bool :=
  match a, b with
  | [], [] => true
  | x :: a', y :: b' => (x =? y)%N && str_eqb a' b'
  | _, _ => false
  end.

Definition mem (c : N) (cs : list N) : bool := existsb (N.eqb c) cs.
Definition str_mem (s : str) (l : list str) : bool := existsb (str_eqb s) l.

(** [s.startswith(p)] *)
Fixpoint startswith (s p : str) : bool :=
  match p, s with
  | [], _ => true
  | x :: p', y :: s' => (x =? y)%N && startswith s' p'
  | _ :: _, [] => false
  end.

(** [sep.join(l)] *)
Fixpoint join (sep : str) (l : list str) : str :=
  match l with
  | [] => []
  | [x] => x
  | x :: l' => x ++ sep ++ join sep l'
  end.

(** [s.replace(c, "")] for a one-character [c]. *)
Definition remove_char (c : N) (s : str) : str :=
  filter (fun x => negb (x =? c)%N) s.

(** [s.split(c)] for a one-character separator. *)
Fixpoint split_on (c : N) (s : str) : list str :=
  match s with
  | [] => [[]]
  | x :: s' =>
    if (x =? c)%N then [] :: split_on c s'
    else match split_on c s' with
         | [] => [[x]]
         | h :: t => (x :: h) :: t
         end
  end.

(** [s.replace(old, new)], left to right, non-overlapping, [old] not empty. *)
Fixpoint replace_skip (old new : str) (skip : nat) (s : str) : str :=
  match s with
  | [] => []
  | x :: s' =>
    match skip with
    | S k => replace_skip old new k s'
    | O =>
      if startswith s old
      then new ++ replace_skip old new (length old - 1) s'
      else x :: replace_skip old new 0 s'
    end
  end.
Definition replace (old new s : str) : str := replace_skip old new 0 s.

(** [s[-1]], [s[:-1]], [s[-2:]], [s[:-2]] *)
Definition last_char (s : str) : option N := hd_error (rev s).
Definition drop_last (n : nat) (s : str) : str := firstn (length s - n) s.
Definition take_last (n : nat) (s : str) : str := skipn (length s - n) s.

(* ------------------------------------------------------------------------- *)
(** ** Exceptions *)

(** The Python exceptions the code can raise.  [NoFuel] and [Unmodelled] are
    not Python exceptions: the first marks a loop that was cut off by the
    fuel of the model, the second a construct outside the modelled subset
    (nothing is stated about a run that reaches it). *)
Inductive exn : Type :=
| ValueError | TypeError | IndexError | KeyError | OverflowError | re_error
| MultipleGobiError | AutoDivisionDisabledError
| AutoDivisionChoiceOverflowError
| NoFuel | Unmodelled.

Inductive result (A : Type) : Type :=
| Ok (a : A)
| Raise (e : exn).
Arguments Ok {A} a.
Arguments Raise {A} e.

Definition bind {A B} (c : result A) (k : A -> result B) : result B :=
  match c with
  | Ok a => k a
  | Raise e => Raise e
  end.

Notation "x <- c ;; k" := (bind c (fun x => k))
  (at level 61, c at next level, right associativity).
Notation "' p <- c ;; k" := (bind c (fun x => match x with p => k end))
  (at level 61, p pattern, c at next level, right associativity).

Definition exn_eqb (a b : exn) : bool :=
  match a, b with
  | ValueError, ValueError | TypeError, TypeError | IndexError, IndexError
  | KeyError, KeyError | OverflowError, OverflowError | re_error, re_error
  | MultipleGobiError, MultipleGobiError
  | AutoDivisionDisabledError, AutoDivisionDisabledError
  | AutoDivisionChoiceOverflowError, AutoDivisionChoiceOverflowError
  | NoFuel, NoFuel | Unmodelled, Unmodelled => true
  | _, _ => false
  end.

(** Monadic map over a list, left to right (a comprehension or a [for]
    loop whose body can raise). *)
Fixpoint mapM {A B} (f : A -> result B) (l : list A) : result (list B) :=
  match l with
  | [] => Ok []
  | x :: l' => y <- f x ;; ys <- mapM f l' ;; Ok (y :: ys)
  end.

(* ------------------------------------------------------------------------- *)
(** ** The Unicode tables of the interpreter

    [str.isdigit], [str.isalpha], [str.lower], [str.upper], the decimal
    digits matched by [\d] and accepted by [int], and [int] on a text cell
    belong to CPython, not to the repository: they are a parameter. *)
Record Unicode : Type := {
  isdigit : N -> bool;
  isalpha : N -> bool;
  decimal : N -> option Z;
  lower : str -> str;
  upper : str -> str;
  int_text : str -> option Z
}.

Definition ascii_lower (c : N) : N :=
  if ((65 <=? c) && (c <=? 90))%N then (c + 32)%N else c.
Definition ascii_upper (c : N) : N :=
  if ((97 <=? c) && (c <=? 122))%N then (c - 32)%N else c.
Definition ascii_decimal (c : N) : option Z :=
  if ((48 <=? c) && (c <=? 57))%N then Some (Z.of_N c - 48)%Z else None.

(** The most digits [int] converts from a text
    ([sys.get_int_max_str_digits()], as the interpreter starts). *)
Definition MAX_STR_DIGITS : nat := 4300.

(** [int] on an ASCII text: blanks around, an optional sign, digits, with
    single underscores between digits; a text of more than
    [MAX_STR_DIGITS] digits is refused ([ValueError]). *)
Fixpoint digits_value (acc : Z) (after_digit : bool) (s : str) : option Z :=
  match s with
  | [] => if after_digit then Some acc else None
  | c :: s' =>
    match ascii_decimal c with
    | Some d => digits_value (10 * acc + d)%Z true s'
    | None =>
      if (c =? 95)%N && after_digit then digits_value acc false s' else None
    end
  end.

Definition is_blank (c : N) : bool :=
  ((9 <=? c) && (c <=? 13) || (c =? 32))%N.

Fixpoint lstrip (s : str) : str :=
  match s with
  | c :: s' => if is_blank c then lstrip s' else s
  | [] => []
  end.

Definition ascii_int (s : str) : option Z :=
  if Nat.ltb MAX_STR_DIGITS
       (length (filter (fun c => match ascii_decimal c with
                                 | Some _ => true
                                 | None => false
                                 end) s))
  then None
  else
    match rev (lstrip (rev (lstrip s))) with
    | [] => None
    | c :: s' =>
      if (c =? 45)%N then option_map Z.opp (digits_value 0 false s')
      else if (c =? 43)%N then digits_value 0 false s'
      else digits_value 0 false (c :: s')
    end.

(** The tables on ASCII, kana and the CJK ideographs U+4E00 to U+9FFF,
    where they are exact: the digits are 0-9, the letters are A-Z, a-z, the
    kana and the ideographs, only ASCII letters have case, and [int] reads
    ASCII numerals.  The examples below use no other character. *)
Definition ucd : Unicode := {|
  isdigit := fun c => ((48 <=? c) && (c <=? 57))%N;
  isalpha := fun c =>
    ((65 <=? c) && (c <=? 90) || (97 <=? c) && (c <=? 122)
     || (12353 <=? c) && (c <=? 12438) || (12449 <=? c) && (c <=? 12538)
     || (c =? 12540) || (0x4E00 <=? c) && (c <=? 0x9FFF))%N;
  decimal := ascii_decimal;
  lower := map ascii_lower;
  upper := map ascii_upper;
  int_text := ascii_int
|}.

(* ------------------------------------------------------------------------- *)
(** ** Regular expressions: the subset of Python's [re] the code uses

    Literals, [.], sets [[...]] and [[^...]], [\d], escaped punctuation,
    capturing and [(?:...)] groups, alternation, [^] and [$], the
    one-character negative lookbehind [(?<!c)], and the quantifiers
    [*], [+], [?] (greedy or lazy) on a one-character atom.  Anything else
    is [Unmodelled]. *)

Inductive atom : Type :=
| AChar (c : N)
| AAny
| ADigit
| ASet (neg : bool) (cs : list N).

Inductive regex : Type :=
| REmpty
| RAtom (a : atom)
| RRep (a : atom) (lo : nat) (greedy : bool)
| ROpt (a : atom) (greedy : bool)
| RSeq (r1 r2 : regex)
| RAlt (r1 r2 : regex)
| RGroup (i : nat) (r : regex)
| RBol
| REol
| RNotBehind (a : atom).

Definition is_ascii_alnum (c : N) : bool :=
  ((48 <=? c) && (c <=? 57) || (65 <=? c) && (c <=? 90)
   || (97 <=? c) && (c <=? 122))%N.

(** An escape [\c] outside a set. *)
Definition parse_escape (c : N) : result atom :=
  if (c =? ch "d")%N then Ok ADigit
  else if is_ascii_alnum c then Raise Unmodelled
  else Ok (AChar c).

(** The members of a set, up to the closing bracket. *)
Fixpoint parse_set_items (s : str) (acc : list N) : result (list N * str) :=
  match s with
  | [] => Raise re_error
  | c :: t =>
    if (c =? ch "]")%N then
      match acc with
      | [] => Raise Unmodelled
      | _ => Ok (rev acc, t)
      end
    else if (c =? ch "\")%N then
      match t with
      | [] => Raise re_error
      | d :: t' =>
        if is_ascii_alnum d then Raise Unmodelled
        else parse_set_items t' (d :: acc)
      end
    else if mem c [ch "-"; ch "["; ch "^"] then Raise Unmodelled
    else parse_set_items t (c :: acc)
  end.

Definition parse_set (s : str) : result (atom * str) :=
  match s with
  | c :: t =>
    if (c =? ch "^")%N
    then '(cs, rest) <- parse_set_items t [] ;; Ok (ASet true cs, rest)
    else '(cs, rest) <- parse_set_items s [] ;; Ok (ASet false cs, rest)
  | [] => Raise re_error
  end.

Definition is_quantifier (c : N) : bool := mem c [ch "*"; ch "+"; ch "?"].

(** The quantifier, if any, that follows a one-character atom. *)
Definition parse_quantifier (a : atom) (s : str) : result (regex * str) :=
  match s with
  | q :: t =>
    if is_quantifier q then
      let '(greedy, rest) :=
        match t with
        | c :: t' => if (c =? ch "?")%N then (false, t') else (true, t)
        | [] => (true, t)
        end in
      match rest with
      | c :: _ =>
        if is_quantifier c || (c =? ch "{")%N then Raise Unmodelled
        else Ok (if (q =? ch "*")%N then RRep a 0 greedy
                 else if (q =? ch "+")%N then RRep a 1 greedy
                 else ROpt a greedy, rest)
      | [] =>
        Ok (if (q =? ch "*")%N then RRep a 0 greedy
            else if (q =? ch "+")%N then RRep a 1 greedy
            else ROpt a greedy, rest)
      end
    else if (q =? ch "{")%N then Raise Unmodelled
    else Ok (RAtom a, s)
  | [] => Ok (RAtom a, s)
  end.

(** A group, an anchor or a lookbehind takes no quantifier here. *)
Definition no_quantifier (r : regex) (g : nat) (s : str)
  : result (regex * nat * str) :=
  match s with
  | c :: _ =>
    if is_quantifier c || (c =? ch "{")%N then Raise Unmodelled
    else Ok (r, g, s)
  | [] => Ok (r, g, s)
  end.

Definition expect_close (r : regex) (g : nat) (s : str)
  : result (regex * nat * str) :=
  match s with
  | c :: t => if (c =? ch ")")%N then no_quantifier r g t else Raise re_error
  | [] => Raise re_error
  end.

(** Recursive descent; [g] is the number of capturing groups opened so far
    (groups are numbered by their opening parenthesis). *)
Fixpoint parse_alt (fuel g : nat) (s : str) : result (regex * nat * str) :=
  match fuel with
  | O => Raise NoFuel
  | S f =>
    '(r1, g1, s1) <- parse_seq f g s ;;
    match s1 with
    | c :: s2 =>
      if (c =? ch "|")%N
      then '(r2, g2, s3) <- parse_alt f g1 s2 ;; Ok (RAlt r1 r2, g2, s3)
      else Ok (r1, g1, s1)
    | [] => Ok (r1, g1, s1)
    end
  end
with parse_seq (fuel g : nat) (s : str) : result (regex * nat * str) :=
  match fuel with
  | O => Raise NoFuel
  | S f =>
    match s with
    | [] => Ok (REmpty, g, s)
    | c :: _ =>
      if mem c [ch ")"; ch "|"] then Ok (REmpty, g, s)
      else
        '(r1, g1, s1) <- parse_item f g s ;;
        '(r2, g2, s2) <- parse_seq f g1 s1 ;;
        Ok (RSeq r1 r2, g2, s2)
    end
  end
with parse_item (fuel g : nat) (s : str) : result (regex * nat * str) :=
  match fuel with
  | O => Raise NoFuel
  | S f =>
    match s with
    | [] => Raise re_error
    | c :: t =>
      if (c =? ch "(")%N then
        match t with
        | q :: t1 =>
          if (q =? ch "?")%N then
            match t1 with
            | k :: t2 =>
              if (k =? ch ":")%N then
                '(r, g1, s1) <- parse_alt f g t2 ;; expect_close r g1 s1
              else if (k =? ch "<")%N then
                match t2 with
                | b :: x :: t3 =>
                  if (b =? ch "!")%N then
                    if (x =? ch "\")%N then
                      match t3 with
                      | y :: t4 =>
                        a <- parse_escape y ;; expect_close (RNotBehind a) g t4
                      | [] => Raise re_error
                      end
                    else if mem x [ch "("; ch ")"; ch "["; ch "."; ch "|";
                                   ch "^"; ch "$"; ch "*"; ch "+"; ch "?";
                                   ch "{"]
                    then Raise Unmodelled
                    else expect_close (RNotBehind (AChar x)) g t3
                  else Raise Unmodelled
                | _ => Raise re_error
                end
              else Raise Unmodelled
            | [] => Raise re_error
            end
          else
            '(r, g1, s1) <- parse_alt f (S g) t ;;
            expect_close (RGroup (S g) r) g1 s1
        | [] => Raise re_error
        end
      else if is_quantifier c then Raise re_error
      else if (c =? ch "{")%N then Raise Unmodelled
      else if (c =? ch "^")%N then no_quantifier RBol g t
      else if (c =? ch "$")%N then no_quantifier REol g t
      else if (c =? ch "[")%N then
        '(a, s1) <- parse_set t ;;
        '(r, s2) <- parse_quantifier a s1 ;; Ok (r, g, s2)
      else if (c =? ch "\")%N then
        match t with
        | d :: t1 =>
          a <- parse_escape d ;;
          '(r, s2) <- parse_quantifier a t1 ;; Ok (r, g, s2)
        | [] => Raise re_error
        end
      else
        '(r, s2) <- parse_quantifier (if (c =? ch ".")%N then AAny
                                       else AChar c) t ;;
        Ok (r, g, s2)
    end
  end.

(** [re.compile(pattern)] *)
Definition re_compile (pattern : str) : result regex :=
  '(r, _, rest) <- parse_alt (4 * length pattern + 4) 0 pattern ;;
  match rest with
  | [] => Ok r
  | _ => Raise re_error
  end.

(** The state of a match: the text already consumed (most recent character
    first), the text ahead, and the groups closed so far (most recent
    first). *)
Record mstate : Type := {
  m_pre : str;
  m_suf : str;
  m_caps : list (nat * str)
}.

(** [m.group(i)]; a group that took no part in the match is [None] in
    Python, and every use the code makes of such a value raises
    [TypeError]. *)
Fixpoint lookup_group (i : nat) (caps : list (nat * str)) : option str :=
  match caps with
  | [] => None
  | (j, s) :: caps' => if Nat.eqb i j then Some s else lookup_group i caps'
  end.

Definition group (m : mstate) (i : nat) : result str :=
  match lookup_group i (m_caps m) with
  | Some s => Ok s
  | None => Raise TypeError
  end.

(** [m.lastindex]: the group closed last. *)
Definition lastindex (m : mstate) : option nat :=
  match m_caps m with
  | [] => None
  | (i, _) :: _ => Some i
  end.

Section Model.

Variable U : Unicode.

Definition atom_ok (a : atom) (c : N) : bool :=
  match a with
  | AChar x => (c =? x)%N
  | AAny => negb (c =? 10)%N
  | ADigit => match decimal U c with Some _ => true | None => false end
  | ASet neg cs => xorb neg (mem c cs)
  end.

(** Every way for [a*] to consume a prefix of the text ahead, shortest
    first. *)
Fixpoint rep_all (a : atom) (pre suf : str) : list (str * str) :=
  (pre, suf) ::
  match suf with
  | c :: t => if atom_ok a c then rep_all a (c :: pre) t else []
  | [] => []
  end.

(** All the ways [r] matches at the current position, in the order a
    backtracking matcher tries them. *)
Fixpoint rmatch (r : regex) (st : mstate) : list mstate :=
  match r with
  | REmpty => [st]
  | RAtom a =>
    match m_suf st with
    | c :: t =>
      if atom_ok a c
      then [{| m_pre := c :: m_pre st; m_suf := t; m_caps := m_caps st |}]
      else []
    | [] => []
    end
  | RRep a lo greedy =>
    let ways := skipn lo (rep_all a (m_pre st) (m_suf st)) in
    map (fun ps => {| m_pre := fst ps; m_suf := snd ps; m_caps := m_caps st |})
        (if greedy then rev ways else ways)
  | ROpt a greedy =>
    let ways := firstn 2 (rep_all a (m_pre st) (m_suf st)) in
    map (fun ps => {| m_pre := fst ps; m_suf := snd ps; m_caps := m_caps st |})
        (if greedy then rev ways else ways)
  | RSeq r1 r2 => flat_map (rmatch r2) (rmatch r1 st)
  | RAlt r1 r2 => rmatch r1 st ++ rmatch r2 st
  | RGroup i r1 =>
    map (fun st' =>
           {| m_pre := m_pre st'; m_suf := m_suf st';
              m_caps :=
                (i, rev (firstn (length (m_pre st') - length (m_pre st))
                                (m_pre st'))) :: m_caps st' |})
        (rmatch r1 st)
  | RBol => match m_pre st with [] => [st] | _ => [] end
  | REol =>
    match m_suf st with
    | [] => [st]
    | [c] => if (c =? 10)%N then [st] else []
    | _ => []
    end
  | RNotBehind a =>
    match m_pre st with
    | c :: _ => if atom_ok a c then [] else [st]
    | [] => [st]
    end
  end.

(** [compiled.match(s)]: the first way, if any. *)
Definition match_compiled (r : regex) (s : str) : option mstate :=
  hd_error (rmatch r {| m_pre := []; m_suf := s; m_caps := [] |}).

(** [re.match(pattern, s)] *)
Definition re_match (pattern s : str) : result (option mstate) :=
  r <- re_compile pattern ;; Ok (match_compiled r s).

(** The pieces of [s] between the successive matches of [r], for a pattern
    that matches no empty text (all the patterns the code splits or
    substitutes with): [re.split] is the list of the pieces, [re.sub] with
    an empty replacement their concatenation. *)
Fixpoint re_scan (r : regex) (skip : nat) (pre suf cur : str) : list str :=
  match suf with
  | [] => [rev cur]
  | c :: t =>
    match skip with
    | S k => re_scan r k (c :: pre) t cur
    | O =>
      match hd_error (rmatch r {| m_pre := pre; m_suf := suf; m_caps := [] |})
      with
      | Some st' =>
        match length (m_pre st') - length pre with
        | O => re_scan r 0 (c :: pre) t (c :: cur)
        | S k => rev cur :: re_scan r k (c :: pre) t []
        end
      | None => re_scan r 0 (c :: pre) t (c :: cur)
      end
    end
  end.

Definition re_split (r : regex) (s : str) : list str := re_scan r 0 [] s [].
Definition re_sub_empty (r : regex) (s : str) : str := concat (re_split r s).

(* ------------------------------------------------------------------------- *)
(** ** Tokens *)

Record Token0 : Type := {
  jp0 : str;
  kana0 : option str;
  alignment : Z
}.

Record Token1 : Type := {
  jp1 : str;
  up_kana : option str;
  down_kana : option str
}.

Record Token2 : Type := {
  jp2 : str;
  kana2 : option str;
  is_skip : bool
}.

(** The constructors with their default arguments. *)
Definition mkToken0 (j : str) : Token0 :=
  {| jp0 := j; kana0 := None; alignment := 0 |}.
Definition mkToken1 (j : str) : Token1 :=
  {| jp1 := j; up_kana := None; down_kana := None |}.
Definition mkToken2 (j : str) : Token2 :=
  {| jp2 := j; kana2 := None; is_skip := false |}.

(* ------------------------------------------------------------------------- *)
(** ** Term *)

Record Term : Type := {
  jp : str;
  kana : str;
  div0 : str;
  div1 : str;
  term_type : str;
  pri : Z
}.

(** The eight type labels. *)
Definition MEISHI : str := u "名詞".
Definition KOYUU : str := u "固有".
Definition GODAN : str := u "五段".
Definition JOUGE : str := u "上下".
Definition SAHEN : str := u "サ変".
Definition KAHEN : str := u "カ変".
Definition KEIYOU : str := u "形容".
Definition EIGO : str := u "英語".

Definition compiled (pattern : str) : regex :=
  match re_compile pattern with
  | Ok r => r
  | Raise _ => REmpty
  end.

(** [Term.PATTERNS], compiled when the class is created. *)
Definition PATTERNS_remove_gobi : regex :=
  Eval vm_compute in compiled (u "^(.+)(?<!\$)\*.*$").
Definition PATTERNS_is_gobi_exists : regex :=
  Eval vm_compute in compiled (u "^.+(?<!\$)(\*).+$").
Definition PATTERNS_get_gobi : regex :=
  Eval vm_compute in compiled (u "^.+(?<!\$)\*(.*)$").
Definition PATTERNS_div_slash : regex :=
  Eval vm_compute in compiled (u "(?<!\$)/").
Definition PATTERNS_div_backslash : regex :=
  Eval vm_compute in compiled (u "(?<!\$)\\").
Definition PATTERNS_div_star : regex :=
  Eval vm_compute in compiled (u "(?<!\$)\*").

(** [PATTERNS["div_remove_" + c]] and [PATTERNS["div_split_" + c]] hold the
    same pattern; [c] is one of the three separators. *)
Definition PATTERNS_div (div_char : N) : regex :=
  if (div_char =? ch "/")%N then PATTERNS_div_slash
  else if (div_char =? ch "\")%N then PATTERNS_div_backslash
  else PATTERNS_div_star.

Fixpoint is_valid_transfer (origin_str : str) : bool :=
  match origin_str with
  | [] => true
  | c :: t =>
    if (c =? ch "$")%N then
      match t with
      | d :: t' =>
        if mem d [ch "/"; ch "\"; ch "*"; ch "$"] then
          (* [i += 2] and then the [i += 1] that ends every round *)
          match t' with
          | [] => true
          | _ :: t'' => is_valid_transfer t''
          end
        else false
      | [] => false
      end
    else is_valid_transfer t
  end.

Definition div_remove (origin_str : str) (div_char : N) : str :=
  re_sub_empty (PATTERNS_div div_char) origin_str.

Definition div_split (origin_str : str) (div_char : N) : list str :=
  re_split (PATTERNS_div div_char) origin_str.

Definition is_hiragana (c : N) : bool := ((12353 <=? c) && (c <=? 12436))%N.
Definition is_katakana (c : N) : bool :=
  ((12449 <=? c) && (c <=? 12538) || (c =? 12540))%N.
Definition is_kana (c : N) : bool := is_hiragana c || is_katakana c.

Definition is_cjk_unified (code : N) : bool :=
  ((0x4E00 <=? code) && (code <=? 0x9FFF)
   || (0x3400 <=? code) && (code <=? 0x4DBF)
   || (0x20000 <=? code) && (code <=? 0x2A6DF)
   || (0x2A700 <=? code) && (code <=? 0x2B73F)
   || (0x2B740 <=? code) && (code <=? 0x2B81F)
   || (0x2B820 <=? code) && (code <=? 0x2CEAF)
   || (0x2CEB0 <=? code) && (code <=? 0x2EBEF)
   || (0x30000 <=? code) && (code <=? 0x3134F)
   || (0x31350 <=? code) && (code <=? 0x323AF)
   || (0x2EBF0 <=? code) && (code <=? 0x2EE5F)
   || (code =? 0x3005))%N.

Definition is_jp_char (c : N) : bool :=
  is_cjk_unified c || is_kana c || isdigit U c
  || mem c [ch "."; ch "-"; ch "+"].

Definition is_jp_str (s : str) : bool := forallb is_jp_char s.

Definition is_jp_valid_str (s : str) : bool :=
  forallb (fun c => is_jp_char c || mem c [ch "/"; ch "\"; ch "*"]) s.

(** [remove_gobi], [is_gobi_exists] and [get_gobi]: each pattern has one
    group, and the code raises when [lastindex] is larger than 1. *)
Definition too_many_groups (m : mstate) : bool :=
  match lastindex m with
  | Some i => Nat.ltb 1 i
  | None => false
  end.

Definition remove_gobi (origin_str : str) : result str :=
  match match_compiled PATTERNS_remove_gobi origin_str with
  | None => Ok origin_str
  | Some m => if too_many_groups m then Raise MultipleGobiError else group m 1
  end.

Definition is_gobi_exists (origin_str : str) : result bool :=
  match match_compiled PATTERNS_is_gobi_exists origin_str with
  | None => Ok false
  | Some m =>
    match lastindex m with
    | None => Raise ValueError
    | Some i => if Nat.ltb 1 i then Raise MultipleGobiError else Ok true
    end
  end.

Definition get_gobi (origin_str : str) : result str :=
  match match_compiled PATTERNS_get_gobi origin_str with
  | None => Raise ValueError
  | Some m => if too_many_groups m then Raise MultipleGobiError else group m 1
  end.

Definition remove_seps (origin_str : str) : str :=
  let s := fold_left div_remove [ch "/"; ch "\"; ch "*"] origin_str in
  fold_left (fun s c => replace [ch "$"; c] [c] s)
            [ch "/"; ch "\"; ch "*"; ch "$"] s.

Definition GOBI_LIST : list str :=
  [u "う"; u "く"; u "ぐ"; u "す"; u "つ"; u "ぬ"; u "ぶ"; u "む"; u "る"].

(** One aligned segment of [is_valid]'s last loop. *)
Definition segment_valid (ty jp_elem kana_elem div_elem : str) : bool :=
  let is_all_kana := forallb is_kana jp_elem in
  let is_not_all_kana := forallb (fun c => negb (is_kana c)) jp_elem in
  if negb (str_eqb ty KOYUU) then
    if is_all_kana then
      if is_not_all_kana then false
      else str_eqb jp_elem kana_elem && str_eqb div_elem (u "-1")
    else
      if is_not_all_kana then str_mem div_elem [u "0"; u "1"; u "2"]
      else false
  else str_mem div_elem [u "-1"; u "0"; u "1"; u "2"].

(** The part of [is_valid] after the type-specific rules: the three fields
    split on the active separator. *)
Definition segments_valid (ty : str) (div_char : N) (j k d : str) : bool :=
  let jp_list := div_split j div_char in
  let kana_list := div_split k div_char in
  let div_list := div_split d div_char in
  if negb (Nat.eqb (length jp_list) (length kana_list))
     || negb (Nat.eqb (length jp_list) (length div_list))
  then false
  else forallb (fun x => segment_valid ty (fst x) (fst (snd x)) (snd (snd x)))
               (combine jp_list (combine kana_list div_list)).

(** [try: ... except MultipleGobiError: ...] *)
Definition except_MultipleGobiError {A} (c : result A) (handler : result A)
  : result A :=
  match c with
  | Raise MultipleGobiError => handler
  | _ => c
  end.

Definition en_valid (s : str) : bool :=
  forallb (fun c => isalpha U c || (c =? ch "'")%N) s.

(** [div_type] is 0 or 1. *)
Definition is_valid (t : Term) (div_type : nat) : result bool :=
  if negb (forallb is_valid_transfer [jp t; kana t; div0 t; div1 t])
  then Ok false
  else if negb (str_mem (term_type t) [EIGO; KOYUU])
          && negb (forallb is_jp_valid_str [jp t; kana t])
  then Ok false
  else
    let div_char := nth div_type [ch "/"; ch "\"] 0%N in
    let other := nth (1 - div_type) [ch "/"; ch "\"] 0%N in
    let j := div_remove (jp t) other in
    let k := div_remove (kana t) other in
    let division := div_remove (nth div_type [div0 t; div1 t] []) other in
    g1 <- is_gobi_exists j ;;
    g2 <- is_gobi_exists k ;;
    g3 <- is_gobi_exists division ;;
    if str_mem (term_type t) [MEISHI; KOYUU] then
      if g1 || g2 || g3 then Ok false
      else Ok (segments_valid (term_type t) div_char j k division)
    else if str_eqb (term_type t) KAHEN then
      Ok (str_eqb j (u "来る") && str_eqb k (u "くる")
          && str_eqb division (u "0"))
    else if str_eqb (term_type t) EIGO then
      if g1 || g2 || g3 then Ok false
      else
        let div_flag :=
          str_eqb division (u "1") && Nat.eqb div_type 0
          || str_eqb division (u "0") && Nat.eqb div_type 1 in
        Ok (en_valid j && div_flag)
    else if negb (g1 && g2 && g3) then Ok false
    else
      gobis <- except_MultipleGobiError
                 (jp_gobi <- get_gobi j ;;
                  kana_gobi <- get_gobi k ;;
                  division_gobi <- get_gobi division ;;
                  Ok (Some (jp_gobi, kana_gobi, division_gobi)))
                 (Ok None) ;;
      match gobis with
      | None => Ok false
      | Some (jp_gobi, kana_gobi, division_gobi) =>
        if negb (str_eqb jp_gobi kana_gobi)
           || negb (str_eqb division_gobi (u "-1"))
        then Ok false
        else
          let gobi_ok :=
            if str_eqb (term_type t) GODAN then str_mem jp_gobi GOBI_LIST
            else if str_eqb (term_type t) JOUGE then str_eqb jp_gobi (u "る")
            else if str_eqb (term_type t) SAHEN
            then str_eqb jp_gobi (u "する")
            else if str_eqb (term_type t) KEIYOU
            then str_eqb jp_gobi (u "い")
            else false in
          if negb gobi_ok then Ok false
          else
            j' <- remove_gobi j ;;
            k' <- remove_gobi k ;;
            d' <- remove_gobi division ;;
            Ok (segments_valid (term_type t) div_char j' k' d')
      end.

(** [Term(japanese, kana, div0, div1, term_type, priority)] *)
Definition new_Term (japanese kana' d0 d1 ty : str) (priority : Z)
  : result Term :=
  let t := {| jp := japanese; kana := kana'; div0 := d0; div1 := d1;
              term_type := ty; pri := priority |} in
  v0 <- is_valid t 0 ;;
  if negb v0 then Raise ValueError
  else v1 <- is_valid t 1 ;; if negb v1 then Raise ValueError else Ok t.

(** The characters [re_pattern] and [pre_to_token] escape for a proper noun,
    in the order of the loop. *)
Definition DEC_CHARS : list N :=
  [ch "\"; ch "$"; ch "("; ch ")"; ch "*"; ch "?"; ch "+"; ch "."; ch "[";
   ch "]"; ch "{"; ch "}"; ch "|"; ch "^"].

Definition escape_dec (s : str) : str :=
  fold_left (fun s dec_c => replace [dec_c] [ch "\"; dec_c] s) DEC_CHARS s.

Definition gobi_dic : list (str * list str) :=
  [ (u "う", [u "わ"; u "い"; u "う"; u "え"; u "お"; u "っ"]);
    (u "く", [u "か"; u "き"; u "く"; u "け"; u "こ"; u "い"]);
    (u "ぐ", [u "が"; u "ぎ"; u "ぐ"; u "げ"; u "ご"; u "い"]);
    (u "す", [u "さ"; u "し"; u "す"; u "せ"; u "そ"]);
    (u "つ", [u "た"; u "ち"; u "つ"; u "て"; u "と"; u "っ"]);
    (u "ぬ", [u "な"; u "に"; u "ぬ"; u "ね"; u "の"; u "ん"]);
    (u "ぶ", [u "ば"; u "び"; u "ぶ"; u "べ"; u "ぼ"; u "ん"]);
    (u "む", [u "ま"; u "み"; u "む"; u "め"; u "も"; u "ん"]);
    (u "る", [u "ら"; u "り"; u "る"; u "れ"; u "ろ"; u "っ"]) ].

Fixpoint dict_get {A} (d : list (str * A)) (key : str) : result A :=
  match d with
  | [] => Raise KeyError
  | (k, v) :: d' => if str_eqb key k then Ok v else dict_get d' key
  end.

Definition KEIYOU_GOBI : list str :=
  [u "い"; u "く"; u "かっ"; u "ければ"; u "がる"; u "がり"; u "がら";
   u "がれ"; u "がろ"; u "さ"; u "げ"; u "そう"; u "さそう"; u "すぎ";
   u "過ぎ"].

(** The character classes of an english word, one per character. *)
Definition letter_classes (s : str) : str :=
  concat (map (fun c => u "[" ++ lower U [c] ++ upper U [c] ++ u "]") s).

Definition re_pattern (t : Term) : result str :=
  if str_eqb (term_type t) MEISHI then
    Ok (u "^(" ++ remove_seps (jp t) ++ u ")(.*)$")
  else if str_eqb (term_type t) KOYUU then
    Ok (u "^(" ++ escape_dec (remove_seps (jp t)) ++ u ")(.*)$")
  else if str_eqb (term_type t) GODAN then
    g <- remove_gobi (jp t) ;;
    let gokan := remove_seps g in
    key <- get_gobi (jp t) ;;
    endings <- dict_get gobi_dic key ;;
    Ok (u "^(" ++ gokan ++ u "(?:" ++ join (u "|") endings ++ u "))(.*)$")
  else if str_eqb (term_type t) JOUGE || str_eqb (term_type t) SAHEN then
    g <- remove_gobi (jp t) ;;
    Ok (u "^(" ++ remove_seps g ++ u ")(.*)$")
  else if str_eqb (term_type t) KAHEN then
    Ok (u "^(来る|来ない|来なく|来なかっ|来なければ|来なさ|来た|来て|"
        ++ u "来られ|来い|来よ)(.*)$")
  else if str_eqb (term_type t) KEIYOU then
    g <- remove_gobi (jp t) ;;
    Ok (u "^(" ++ remove_seps g ++ u "(?:" ++ join (u "|") KEIYOU_GOBI
        ++ u "))(.*)$")
  else if str_eqb (term_type t) EIGO then
    Ok (u "^(" ++ letter_classes (jp t) ++ u ")(.*)$")
  else Raise ValueError.

Definition kahen_dic : list (str * str) :=
  [ (u "来る", u "くる"); (u "来ない", u "こない"); (u "来なく", u "こなく");
    (u "来なかっ", u "こなかっ"); (u "来なければ", u "こなければ");
    (u "来なさ", u "きなさい"); (u "来た", u "きた"); (u "来て", u "きて");
    (u "来られ", u "こられ"); (u "来い", u "こい"); (u "来よ", u "こよ") ].

(** The four values [pre_to_token] returns. *)
Definition slots : Type := (list str * list str * list str * str)%type.

Fixpoint kahen_search (d : list (str * str)) (origin_str : str)
  : result slots :=
  match d with
  | [] => Raise ValueError
  | (key, value) :: d' =>
    if startswith origin_str key
    then Ok ([u "来"; skipn 1 key], [firstn 1 value; skipn 1 value],
             [u "0"; u "-1"], skipn (length key) origin_str)
    else kahen_search d' origin_str
  end.

Definition kahen_to_token (t : Term) (origin_str : str) (div_type : nat)
  : result slots :=
  kahen_search kahen_dic origin_str.

(** [div_type] is 0, 1 or 2. *)
Definition pre_to_token (t : Term) (origin_str : str) (div_type : nat)
  : result slots :=
  if str_eqb (term_type t) KAHEN then kahen_to_token t origin_str div_type
  else
    let div_char := nth div_type [ch "/"; ch "\"; ch "\"] 0%N in
    let needless_div_char := nth div_type [ch "\"; ch "/"; ch "/"] 0%N in
    let div := nth div_type [div0 t; div1 t; div1 t] [] in
    let j := div_remove (jp t) needless_div_char in
    let k := div_remove (kana t) needless_div_char in
    let division := div_remove div needless_div_char in
    jp_gokan <- remove_gobi j ;;
    kana_gokan <- remove_gobi k ;;
    div_gokan <- remove_gobi division ;;
    let pattern :=
      if str_eqb (term_type t) EIGO then
        u "^(" ++ letter_classes jp_gokan ++ u ")(.*)$"
      else if str_eqb (term_type t) KOYUU then
        u "^(" ++ escape_dec (remove_seps jp_gokan) ++ u ")(.*)$"
      else u "^(" ++ remove_seps jp_gokan ++ u ")\*?(.*)$" in
    res <- re_match pattern origin_str ;;
    match res with
    | None => Raise ValueError
    | Some m =>
      leftover <- group m 2 ;;
      jp_list <- (if negb (str_eqb (term_type t) EIGO)
                  then Ok (div_split jp_gokan div_char)
                  else g1 <- group m 1 ;; Ok (div_split g1 div_char)) ;;
      Ok (jp_list, div_split kana_gokan div_char,
          div_split div_gokan div_char, leftover)
    end.

(** [l[i]] and [int(s)] *)
Definition idx {A} (l : list A) (i : nat) : result A :=
  match nth_error l i with
  | Some x => Ok x
  | None => Raise IndexError
  end.

Definition py_int (s : str) : result Z :=
  match int_text U s with
  | Some z => Ok z
  | None => Raise ValueError
  end.

Definition leftover_token {T} (mk : str -> T) (leftover : str) : list T :=
  if Nat.ltb 0 (length leftover) then [mk (remove_seps leftover)] else [].

Definition to_token0 (t : Term) (origin_str : str) : result (list Token0) :=
  '(jp_list, kana_list, div_list, leftover) <- pre_to_token t origin_str 0 ;;
  tokens <- mapM (fun i =>
      ds <- idx div_list i ;;
      d <- py_int ds ;;
      j <- idx jp_list i ;;
      if ((d =? 0) || (d =? 1) || (d =? 2))%Z then
        k <- idx kana_list i ;;
        Ok {| jp0 := remove_seps j; kana0 := Some (remove_seps k);
              alignment := d |}
      else Ok (mkToken0 (remove_seps j)))
    (seq 0 (length jp_list)) ;;
  Ok (tokens ++ leftover_token mkToken0 leftover).

(** The loop of [to_token1]: [i] advances by one or two, [fuel] bounds the
    rounds by the number of slots. *)
Fixpoint to_token1_loop (fuel i : nat) (jp_list kana_list div_list : list str)
  : result (list Token1) :=
  match fuel with
  | O => Ok []
  | S f =>
    if Nat.ltb i (length jp_list) then
      ds <- idx div_list i ;;
      d <- py_int ds ;;
      if (d =? 0)%Z then
        next_zero <-
          (if Nat.ltb (i + 1) (length jp_list)
           then ds' <- idx div_list (i + 1) ;; d' <- py_int ds' ;;
                Ok (d' =? 0)%Z
           else Ok false) ;;
        if next_zero then
          j <- idx jp_list i ;;
          j' <- idx jp_list (i + 1) ;;
          k <- idx kana_list i ;;
          k' <- idx kana_list (i + 1) ;;
          rest <- to_token1_loop f (i + 2) jp_list kana_list div_list ;;
          Ok ({| jp1 := remove_seps (j ++ j');
                 up_kana := Some (remove_seps k);
                 down_kana := Some (remove_seps k') |} :: rest)
        else
          j <- idx jp_list i ;;
          k <- idx kana_list i ;;
          rest <- to_token1_loop f (i + 1) jp_list kana_list div_list ;;
          Ok ({| jp1 := remove_seps j; up_kana := Some (remove_seps k);
                 down_kana := None |} :: rest)
      else
        j <- idx jp_list i ;;
        rest <- to_token1_loop f (i + 1) jp_list kana_list div_list ;;
        Ok (mkToken1 (remove_seps j) :: rest)
    else Ok []
  end.

Definition to_token1 (t : Term) (origin_str : str) : result (list Token1) :=
  '(jp_list, kana_list, div_list, leftover) <- pre_to_token t origin_str 1 ;;
  tokens <- to_token1_loop (length jp_list) 0 jp_list kana_list div_list ;;
  Ok (tokens ++ leftover_token mkToken1 leftover).

(** The token [to_token2] emits for a finished group of slots. *)
Definition flush2 (current_jp current_kana : str) (current_div : Z)
  : list Token2 :=
  if Nat.eqb (length current_jp) 0 then []
  else if (current_div =? 0)%Z
       then [{| jp2 := remove_seps current_jp;
                kana2 := Some (remove_seps current_kana);
                is_skip := false |}]
       else [mkToken2 (remove_seps current_jp)].

Fixpoint to_token2_loop (indices : list nat)
    (jp_list kana_list div_list : list str)
    (current_jp current_kana : str) (current_div : Z)
  : result (list Token2) :=
  match indices with
  | [] => Ok (flush2 current_jp current_kana current_div)
  | i :: rest =>
    ds <- idx div_list i ;;
    d <- py_int ds ;;
    if negb (d =? current_div)%Z then
      j <- idx jp_list i ;;
      k <- idx kana_list i ;;
      more <- to_token2_loop rest jp_list kana_list div_list j k d ;;
      Ok (flush2 current_jp current_kana current_div ++ more)
    else
      j <- idx jp_list i ;;
      k <- idx kana_list i ;;
      to_token2_loop rest jp_list kana_list div_list
        (current_jp ++ j) (current_kana ++ k) current_div
  end.

Definition to_token2 (t : Term) (origin_str : str) : result (list Token2) :=
  '(jp_list, kana_list, div_list, leftover) <- pre_to_token t origin_str 2 ;;
  tokens <- to_token2_loop (seq 0 (length jp_list)) jp_list kana_list div_list
              [] [] 0 ;;
  Ok (tokens ++ leftover_token mkToken2 leftover).

(* ------------------------------------------------------------------------- *)
(** ** Term.auto_divide *)

(** A candidate: spelling, reading, division0, division1. *)
Definition quad : Type := (str * str * str * str)%type.

Definition quad_eqb (a b : quad) : bool :=
  let '(a1, a2, a3, a4) := a in
  let '(b1, b2, b3, b4) := b in
  str_eqb a1 b1 && str_eqb a2 b2 && str_eqb a3 b3 && str_eqb a4 b4.

(** [itertools.combinations(l, k)] *)
Fixpoint combinations (l : list nat) (k : nat) : list (list nat) :=
  match k with
  | O => [[]]
  | S k' =>
    match l with
    | [] => []
    | x :: l' => map (cons x) (combinations l' k') ++ combinations l' k
    end
  end.

(** [itertools.product] of the pools *)
Fixpoint product {A} (pools : list (list A)) : list (list A) :=
  match pools with
  | [] => [[]]
  | xs :: rest => flat_map (fun x => map (cons x) (product rest)) xs
  end.

(** One list [generate_insertions] yields: [fill_term] at the chosen
    positions, the original items, in order, at the others. *)
Fixpoint fill_in (positions indices : list nat) (fill_term : str)
    (origin : list str) : list str :=
  match positions with
  | [] => []
  | i :: rest =>
    if existsb (Nat.eqb i) indices
    then fill_term :: fill_in rest indices fill_term origin
    else match origin with
         | x :: origin' => x :: fill_in rest indices fill_term origin'
         | [] => []
         end
  end.

Definition generate_insertions (origin_iter : list str) (fill_term : str)
    (fill_count : nat) : list (list str) :=
  let m := length origin_iter in
  let total_len := m + fill_count in
  map (fun indices => fill_in (seq 0 total_len) indices fill_term origin_iter)
      (combinations (seq 0 total_len) fill_count).

(** [str.join("", chain.from_iterable(zip_longest(s, combo, fillvalue="")))] *)
Fixpoint zip_join (s : str) (combo : list str) : str :=
  match s with
  | [] => concat combo
  | c :: s' =>
    match combo with
    | [] => s
    | x :: combo' => c :: x ++ zip_join s' combo'
    end
  end.

(** The scheme-0 digit of one slot. *)
Definition div0_digit (jp_seg kana_seg : str) : str :=
  if Nat.eqb (length jp_seg) 1 then u "0"
  else if Nat.leb (length kana_seg) (length jp_seg) then u "2"
  else u "1".

(** The body of the innermost loop: the candidate for one placement of the
    reading, or [None] where the code leaves with [return []]. *)
Definition placement (jp_choice kana_gokan : str) (kana_combo : list str)
  : option quad :=
  let kana_choice := zip_join kana_gokan kana_combo in
  let jp_div0 := split_on (ch "/") (remove_char (ch "\") jp_choice) in
  let kana_div0 := split_on (ch "/") (remove_char (ch "\") kana_choice) in
  if negb (Nat.eqb (length jp_div0) (length kana_div0)) then None
  else
    let div0_list :=
      map (fun jk => div0_digit (fst jk) (snd jk)) (combine jp_div0 kana_div0) in
    let div0_choice := join (u "/") div0_list in
    let jp_div1 := split_on (ch "\") (remove_char (ch "/") jp_choice) in
    let div1_list := repeat (u "0") (length jp_div1) in
    let div1_choice := join (u "\") div1_list in
    Some (jp_choice, kana_choice, div0_choice, div1_choice).

Fixpoint placements_loop (jp_choice kana_gokan : str)
    (kana_combos : list (list str)) (choices : list quad)
  : option (list quad) :=
  match kana_combos with
  | [] => Some choices
  | kana_combo :: rest =>
    match placement jp_choice kana_gokan kana_combo with
    | None => None
    | Some q => placements_loop jp_choice kana_gokan rest (choices ++ [q])
    end
  end.

(** What the loop over the separator combinations of one kanji run ends
    with: the accumulated [choices], or the [return []] of the function. *)
Inductive outcome : Type :=
| Choices (choices : list quad)
| ReturnEmpty.

Definition CAP : nat := 2000.

Fixpoint combos_loop (jp_gokan kana_gokan : str) (combos : list (list str))
    (choices : list quad) : result outcome :=
  match combos with
  | [] => Ok (Choices choices)
  | combo :: rest =>
    if Nat.leb CAP (length choices) then Raise AutoDivisionChoiceOverflowError
    else
      let div1_count := length (filter (str_eqb (u "/\")) combo) in
      if Nat.ltb 1 div1_count then combos_loop jp_gokan kana_gokan rest choices
      else
        let jp_choice := zip_join jp_gokan combo in
        if Nat.ltb (length kana_gokan) (length jp_gokan) then
          combos_loop jp_gokan kana_gokan rest
            (choices ++ [(jp_gokan, kana_gokan, u "1", u "0")])
        else
          match placements_loop jp_choice kana_gokan
                  (generate_insertions combo []
                     (length kana_gokan - length jp_gokan)) choices with
          | None => Ok ReturnEmpty
          | Some choices' => combos_loop jp_gokan kana_gokan rest choices'
          end
  end.

(** The [choices] of one kanji run, before duplicates are removed.  Both
    runs are not empty here (the reading comes from a group [(.+)]), so the
    subtractions are those of Python. *)
Definition run_choices (jp_gokan kana_gokan : str) : result outcome :=
  let repeat_ := Nat.min (length jp_gokan - 1) (length kana_gokan - 1) in
  if Nat.eqb repeat_ 0 then Ok (Choices [(jp_gokan, kana_gokan, u "0", u "0")])
  else combos_loop jp_gokan kana_gokan
         (product (repeat [u "/"; u "/\"; []] repeat_)) [].

(** The loop that fills [part_list], one part per run. *)
Fixpoint parts_loop (jp_gokan_list : list (str * bool))
    (kana_gokan_list : list str) (i : nat) : result (option (list (list quad))) :=
  match jp_gokan_list with
  | [] => Ok (Some [])
  | (jp_gokan, is_kana_run) :: rest =>
    kana_gokan <- idx kana_gokan_list i ;;
    if is_kana_run then
      more <- parts_loop rest kana_gokan_list (S i) ;;
      Ok (option_map (cons [(jp_gokan, kana_gokan, u "-1", u "-1")]) more)
    else
      o <- run_choices jp_gokan kana_gokan ;;
      match o with
      | ReturnEmpty => Ok None
      | Choices choices =>
        more <- parts_loop rest kana_gokan_list (S i) ;;
        Ok (option_map (cons choices) more)
      end
  end.

(** [list(dict.fromkeys(part))] *)
Fixpoint dedupe (seen part : list quad) : list quad :=
  match part with
  | [] => []
  | q :: rest =>
    if existsb (quad_eqb q) seen then dedupe seen rest
    else q :: dedupe (q :: seen) rest
  end.

(** The maximal runs of kana and of other characters of the stem. *)
Fixpoint runs_loop (current : str) (flag : bool) (rest : str)
  : list (str * bool) :=
  match rest with
  | [] => [(current, flag)]
  | c :: t =>
    if Bool.eqb (is_kana c) flag then runs_loop (current ++ [c]) flag t
    else (current, flag) :: runs_loop [c] (is_kana c) t
  end.

(** One combination of the parts written back as a candidate of the whole
    word; [gobi] is the ending of spelling and reading, if the type has
    one. *)
Definition serialize (gobi : option (str * str)) (combo : list quad) : quad :=
  let jp_result := join (u "/\") (map (fun q => fst (fst (fst q))) combo) in
  let kana_result := join (u "/\") (map (fun q => snd (fst (fst q))) combo) in
  let div0_result := join (u "/") (map (fun q => snd (fst q)) combo) in
  let div1_result := join (u "\") (map (fun q => snd q) combo) in
  match gobi with
  | Some (jp_gobi, kana_gobi) =>
    (jp_result ++ u "*" ++ jp_gobi, kana_result ++ u "*" ++ kana_gobi,
     div0_result ++ u "*-1", div1_result ++ u "*-1")
  | None => (jp_result, kana_result, div0_result, div1_result)
  end.

(** [auto_divide] from the point where the ending has been split off:
    [jp_list = [jp_gokan, gobi]], [kana_list = [kana_gokan, gobi']]. *)
Definition divide_gokan (jp_gokan kana_gokan : str) (gobi : option (str * str))
  : result (option (list quad)) :=
  match jp_gokan with
  | [] => Raise IndexError
  | c0 :: rest =>
    let jp_gokan_list := runs_loop [c0] (is_kana c0) rest in
    let pattern_list :=
      map (fun gokan_token : str * bool =>
             if snd gokan_token then u "(" ++ fst gokan_token ++ u ")"
             else u "(.+)") jp_gokan_list in
    let pattern := u "^" ++ concat pattern_list ++ u "$" in
    res <- re_match pattern kana_gokan ;;
    match res with
    | None => Ok None
    | Some m =>
      match lastindex m with
      | None => Ok None
      | Some last =>
        kana_gokan_list <- mapM (group m) (seq 1 last) ;;
        parts <- parts_loop jp_gokan_list kana_gokan_list 0 ;;
        match parts with
        | None => Ok (Some [])
        | Some part_list =>
          Ok (Some (map (serialize gobi)
                        (product (map (dedupe []) part_list))))
        end
      end
    end
  end.

(** Splitting off an ending of [n] characters that must be the same in
    spelling and reading and satisfy [ok]. *)
Definition split_gobi (n : nat) (ok : str -> bool) (jp' kana' : str)
  : result (option (list quad)) :=
  if negb (str_eqb (take_last n jp') (take_last n kana'))
     || negb (ok (take_last n jp'))
  then Ok None
  else divide_gokan (drop_last n jp') (drop_last n kana')
         (Some (take_last n jp', take_last n kana')).

Definition auto_divide (jp' kana' ty : str) : result (option (list quad)) :=
  if Nat.eqb (length jp') 0 || Nat.eqb (length kana') 0 then Ok None
  else if negb (str_mem ty [EIGO; KOYUU])
          && negb (is_jp_str jp' && is_jp_str kana')
  then Raise AutoDivisionDisabledError
  else if str_eqb ty GODAN then
    split_gobi 1 (fun g => str_mem g GOBI_LIST) jp' kana'
  else if str_eqb ty JOUGE then
    split_gobi 1 (fun g => str_eqb g (u "る")) jp' kana'
  else if str_eqb ty SAHEN then
    split_gobi 2 (fun g => str_eqb g (u "する")) jp' kana'
  else if str_eqb ty KAHEN then
    if negb (str_eqb jp' (u "来る")) || negb (str_eqb kana' (u "くる"))
    then Ok None
    else Ok (Some [(u "来る", u "くる", u "0", u "0")])
  else if str_eqb ty KEIYOU then
    split_gobi 1 (fun g => str_eqb g (u "い")) jp' kana'
  else if str_eqb ty MEISHI then divide_gokan jp' kana' None
  else if str_eqb ty KOYUU then
    if negb (is_jp_str jp' && is_jp_str kana')
    then Raise AutoDivisionDisabledError
    else divide_gokan jp' kana' None
  else if str_eqb ty EIGO then Ok (Some [(jp', kana', u "1", u "0")])
  else Ok None.

(* ------------------------------------------------------------------------- *)
(** ** Dictionary

    The data frame of a dictionary is an ordered list of labelled rows
    with text in the five text columns and an integer priority: a data
    frame whose Priority column is integer-typed, as [read_csv] gives it
    for a file whose priority cells are all integers and as [append]
    keeps it.  (A file with an empty or fractional priority cell gives a
    float-typed column, which [check] lets through; such a dictionary is
    not a [Dictionary] of this model.) *)

Record row : Type := {
  Japanese : str;
  Kana : str;
  Division0 : str;
  Division1 : str;
  Type_ : str;
  Priority : Z
}.

Definition frame : Type := list (Z * row).

Record Dictionary : Type := {
  dic : frame;
  index : Z
}.

Definition to_dict (t : Term) : row :=
  {| Japanese := jp t; Kana := kana t; Division0 := div0 t;
     Division1 := div1 t; Type_ := term_type t; Priority := pri t |}.

Definition labels (df : frame) : list Z := map fst df.

(** [label in df.index] *)
Definition has_label (df : frame) (label : Z) : bool :=
  existsb (Z.eqb label) (labels df).

(** [df.loc[label] = r]: the rows of that label are replaced where they
    are, a new label is added at the end. *)
Definition loc_set (df : frame) (label : Z) (r : row) : frame :=
  if has_label df label
  then map (fun lr => if (fst lr =? label)%Z then (fst lr, r) else lr) df
  else df ++ [(label, r)].

(** [df.drop(label, axis=0)] *)
Definition drop (df : frame) (label : Z) : frame :=
  filter (fun lr => negb (fst lr =? label)%Z) df.

(** [Dictionary(dic_path)], the data frame being the one [load_from_csv]
    returned. *)
Definition Dictionary_init (df : frame) : Dictionary :=
  {| dic := df;
     index := if Nat.ltb 0 (length df)
              then fold_right Z.max (hd 0%Z (labels df)) (labels df) + 1
              else 0 |}.

Definition row_is (t : Term) (r : row) : bool :=
  str_eqb (jp t) (Japanese r) && str_eqb (kana t) (Kana r)
  && str_eqb (div0 t) (Division0 r) && str_eqb (div1 t) (Division1 r)
  && str_eqb (term_type t) (Type_ r) && (pri t =? Priority r)%Z.

Definition is_exists (d : Dictionary) (t : Term) : bool :=
  existsb (fun lr => row_is t (snd lr)) (dic d).

(** The dictionary after the call, and the value returned. *)
Definition append (d : Dictionary) (new_term : Term)
  : Dictionary * option Z :=
  if is_exists d new_term then (d, None)
  else ({| dic := loc_set (dic d) (index d) (to_dict new_term);
           index := index d + 1 |},
        Some (index d + 1 - 1)%Z).

Definition remove (d : Dictionary) (i : Z) : Dictionary * bool :=
  if has_label (dic d) i
  then ({| dic := drop (dic d) i; index := index d |}, true)
  else (d, false).



(** The three token shapes: the tokenizer and the search are written three
    times in the source, the copies differing only in the token class, the
    [to_token] method they call and the token of a [$]-span. *)
Record Shape : Type := {
  tok : Type;
  to_token : Term -> str -> result (list tok);
  plain : str -> tok;
  spanned : str -> tok;
  tok_jp : tok -> str
}.

Definition shape0 : Shape :=
  {| tok := Token0; to_token := to_token0; plain := mkToken0;
     spanned := mkToken0; tok_jp := jp0 |}.
Definition shape1 : Shape :=
  {| tok := Token1; to_token := to_token1; plain := mkToken1;
     spanned := mkToken1; tok_jp := jp1 |}.
Definition shape2 : Shape :=
  {| tok := Token2; to_token := to_token2; plain := mkToken2;
     spanned := fun c => {| jp2 := c; kana2 := None; is_skip := true |};
     tok_jp := jp2 |}.

(** A row of [filtered] with its two added columns. *)
Definition keyed : Type := (row * nat * nat)%type.

(** Whether [a] sorts strictly before [b]: [len_jp] and [len_jp_gokan]
    descending, [Priority] ascending. *)
Definition sorts_before (a b : keyed) : bool :=
  let '(ra, la, ga) := a in
  let '(rb, lb, gb) := b in
  Nat.ltb lb la
  || Nat.eqb la lb
     && (Nat.ltb gb ga || Nat.eqb ga gb && (Priority ra <? Priority rb)%Z).

(** [sort_values]: rows with equal keys keep their order. *)
Fixpoint sort_insert (x : keyed) (l : list keyed) : list keyed :=
  match l with
  | [] => [x]
  | y :: l' => if sorts_before y x then y :: sort_insert x l' else x :: y :: l'
  end.

Definition sort_values (l : list keyed) : list keyed :=
  fold_right sort_insert [] l.

Definition add_keys (r : row) : result keyed :=
  g <- remove_gobi (Japanese r) ;;
  Ok (r, length (remove_seps (Japanese r)), length (remove_seps g)).

(** The loop over the sorted rows of [search_to_token0/1/2]. *)
Fixpoint search_rows (S : Shape) (rows : list keyed) (line : str)
  : result (bool * option (list (tok S)) * str) :=
  match rows with
  | [] => Ok (false, None, line)
  | (r, _, _) :: rest =>
    term <- new_Term (Japanese r) (Kana r) (Division0 r) (Division1 r)
              (Type_ r) (Priority r) ;;
    pattern <- re_pattern term ;;
    res <- re_match pattern line ;;
    match res with
    | Some m =>
      g1 <- group m 1 ;;
      tokens <- to_token S term g1 ;;
      g2 <- group m 2 ;;
      Ok (true, Some tokens, g2)
    | None => search_rows S rest line
    end
  end.

Definition search_to_token (S : Shape) (d : Dictionary) (line : str)
    (priority : Z) : result (bool * option (list (tok S)) * str) :=
  match line with
  | [] => Raise IndexError
  | init_char :: _ =>
    let filtered :=
      filter (fun lr =>
                startswith (lower U (Japanese (snd lr))) (lower U [init_char])
                && (Priority (snd lr) =? priority)%Z) (dic d) in
    keyed_rows <- mapM (fun lr => add_keys (snd lr)) filtered ;;
    search_rows S (sort_values keyed_rows) line
  end.

Definition search_to_token0 := search_to_token shape0.
Definition search_to_token1 := search_to_token shape1.
Definition search_to_token2 := search_to_token shape2.

(** [Dictionary.PATTERNS] *)
Definition PATTERNS_custom : regex :=
  Eval vm_compute in
    compiled (u "^\(([^;\)]+?);([^;\)]+?);([^;\)]+?);([^;\)]+?)\)(.*)").
Definition PATTERNS_priority : regex :=
  Eval vm_compute in compiled (u "^\[(\d+)\](.*)").

(** The characters of a [$]-span up to its closing [$] or the end of the
    line, and the text after the closing [$]. *)
Fixpoint span_scan (remaining_line : str) : str * str :=
  match remaining_line with
  | [] => ([], [])
  | c :: t =>
    if (c =? ch "$")%N then ([], t)
    else let '(cs, rest) := span_scan t in (c :: cs, rest)
  end.

(** [int(s)] on the digits a group [(\d+)] matched: more than
    [MAX_STR_DIGITS] of them are refused. *)
Fixpoint digits_to_int (acc : Z) (s : str) : result Z :=
  match s with
  | [] => Ok acc
  | c :: s' =>
    match decimal U c with
    | Some v => digits_to_int (10 * acc + v)%Z s'
    | None => Raise ValueError
    end
  end.

Definition int_digits (s : str) : result Z :=
  if Nat.ltb MAX_STR_DIGITS (length s) then Raise ValueError
  else digits_to_int 0 s.

(** The bare [except:] of the inline quadruple; the two outcomes that are
    not Python exceptions pass through. *)
Definition swallowed (e : exn) : bool :=
  negb (exn_eqb e NoFuel || exn_eqb e Unmodelled).

(** The [while] loop of [line_to_tokens0/1/2]; the result is the list of the
    tokens appended from this point on.  [search] is the method
    [self.search_to_token0/1/2]. *)
Fixpoint line_to_tokens_loop (S : Shape)
    (search : str -> Z -> result (bool * option (list (tok S)) * str))
    (fuel : nat) (remaining_line : str) : result (list (tok S)) :=
  match fuel with
  | O => Raise NoFuel
  | Datatypes.S f =>
    match remaining_line with
    | [] => Ok []
    | c0 :: tail =>
      let custom_result := match_compiled PATTERNS_custom remaining_line in
      let priority_result := match_compiled PATTERNS_priority remaining_line in
      (* the search that ends a round, and the rounds after it *)
      let search_round (remaining_line : str) (priority : Z) :=
        '(found, new_tokens, remaining_line') <-
           search remaining_line priority ;;
        if found then
          more <- line_to_tokens_loop S search f remaining_line' ;;
          Ok (match new_tokens with Some ts => ts | None => [] end ++ more)
        else
          match remaining_line' with
          | [] => Raise IndexError
          | c :: rest =>
            more <- line_to_tokens_loop S search f rest ;;
            Ok (plain S [c] :: more)
          end in
      if str_mem (firstn 2 remaining_line)
           [u "$$"; u "(("; u "))"; u "[["; u "]]"]
      then search_round tail 0%Z
      else
        match custom_result with
        | Some m =>
          args <- mapM (group m) (seq 1 4) ;;
          remaining_line' <- group m 5 ;;
          match (term <- new_Term (nth 0 args []) (nth 1 args [])
                           (nth 2 args []) (nth 3 args []) KOYUU 0 ;;
                 to_token S term (remove_seps (jp term))) with
          | Ok ts =>
            more <- line_to_tokens_loop S search f remaining_line' ;;
            Ok (ts ++ more)
          | Raise e =>
            if swallowed e then search_round remaining_line' 0%Z else Raise e
          end
        | None =>
          match priority_result with
          | Some m =>
            digits <- group m 1 ;;
            priority <- int_digits digits ;;
            remaining_line' <- group m 2 ;;
            search_round remaining_line' priority
          | None =>
            if (c0 =? ch "$")%N then
              let '(cs, rest) := span_scan tail in
              more <- line_to_tokens_loop S search f rest ;;
              Ok (map (fun c => spanned S [c]) cs ++ more)
            else search_round remaining_line 0%Z
          end
        end
    end
  end.

(** A round that returns leaves a strictly shorter line or the same line;
    in the second case every later round repeats it and the loop never
    ends.  So [S (length line)] rounds decide: [NoFuel] then means that the
    Python loop does not terminate. *)
Definition line_to_tokens (S : Shape) (d : Dictionary) (line : str)
  : result (list (tok S)) :=
  line_to_tokens_loop S (search_to_token S d) (Datatypes.S (length line)) line.

Definition line_to_tokens0 := line_to_tokens shape0.
Definition line_to_tokens1 := line_to_tokens shape1.
Definition line_to_tokens2 := line_to_tokens shape2.

(* ------------------------------------------------------------------------- *)
(** ** Dictionary.check

    The row source is a data frame as [read_csv] builds it: named columns,
    labelled rows, and in each cell a text, an integer or a float: a
    finite one, [m * 2 ^ e], an infinite one or the missing value, NaN.  A
    row maps the column names to its cells. *)

Inductive cell : Type :=
| CStr (s : str)
| CInt (z : Z)
| CFloat (m e : Z)
| CInf (negative : bool)
| CNaN.

Definition raw_row : Type := str -> cell.

Record raw_frame : Type := {
  columns : list str;
  rows : list (Z * raw_row)
}.

Definition COLUMNS : list str :=
  [u "Japanese"; u "Kana"; u "Division0"; u "Division1"; u "Type";
   u "Priority"].

(** [row[c]] *)
Definition cell_at (df : raw_frame) (r : raw_row) (c : str) : result cell :=
  if str_mem c (columns df) then Ok (r c) else Raise KeyError.

(** [int(x)] on a finite float: the fraction is cut off. *)
Definition float_trunc (m e : Z) : Z :=
  if (0 <=? e)%Z then (m * 2 ^ e)%Z else Z.quot m (2 ^ (- e)).

(** [int(x)] on a cell: [ValueError] on a text that is no numeral and on
    NaN, [OverflowError] on an infinite float. *)
Definition int_cell (c : cell) : result Z :=
  match c with
  | CStr s => py_int s
  | CInt z => Ok z
  | CFloat m e => Ok (float_trunc m e)
  | CInf _ => Raise OverflowError
  | CNaN => Raise ValueError
  end.

(** The first test of [is_valid] on the four fields as they come:
    [is_valid_transfer] takes [len] of its argument, a [TypeError] on a
    cell that is not text; the first text that fails ends [all]. *)
Fixpoint transfer_cells (cs : list cell) : result bool :=
  match cs with
  | [] => Ok true
  | CStr s :: cs' => if is_valid_transfer s then transfer_cells cs' else Ok false
  | _ :: _ => Raise TypeError
  end.

Definition text_of (c : cell) : str :=
  match c with
  | CStr s => s
  | _ => []
  end.

(** [Term(...)] on cells.  Once the first test has passed the four fields
    are text.  A type cell that is not text equals none of the eight labels
    and so behaves as the empty text does. *)
Definition Term_of_cells (c_jp c_kana c_d0 c_d1 c_ty : cell) (priority : Z)
  : result Term :=
  ok <- transfer_cells [c_jp; c_kana; c_d0; c_d1] ;;
  if negb ok then Raise ValueError
  else new_Term (text_of c_jp) (text_of c_kana) (text_of c_d0) (text_of c_d1)
         (text_of c_ty) priority.

(** The arguments of [Term(...)] are evaluated first, [int(row[...])]
    among them. *)
Definition row_term (df : raw_frame) (r : raw_row) : result Term :=
  c0 <- cell_at df r (nth 0 COLUMNS []) ;;
  c1 <- cell_at df r (nth 1 COLUMNS []) ;;
  c2 <- cell_at df r (nth 2 COLUMNS []) ;;
  c3 <- cell_at df r (nth 3 COLUMNS []) ;;
  c4 <- cell_at df r (nth 4 COLUMNS []) ;;
  c5 <- cell_at df r (nth 5 COLUMNS []) ;;
  p <- int_cell c5 ;;
  Term_of_cells c0 c1 c2 c3 c4 p.

(** The loop of [check] over the rows of [df]; [new_rows] is [new_df] and
    [infos] the labels of the rows a diagnostic was recorded for.  [drop]
    raises [KeyError] on a label that is no longer there. *)
Fixpoint check_loop (df : raw_frame) (todo new_rows : list (Z * raw_row))
    (infos : list Z) : result (list (Z * raw_row) * list Z) :=
  match todo with
  | [] => Ok (new_rows, infos)
  | (label, r) :: rest =>
    match row_term df r with
    | Ok _ => check_loop df rest new_rows infos
    | Raise ValueError =>
      if existsb (Z.eqb label) (map fst new_rows)
      then check_loop df rest
             (filter (fun lr => negb (fst lr =? label)%Z) new_rows)
             (infos ++ [label])
      else Raise KeyError
    | Raise e => Raise e
    end
  end.

(** The data frame returned, and the labels of the diagnostics logged. *)
Definition check (df : raw_frame) : result (raw_frame * list Z) :=
  if negb (forallb (fun c => str_mem c (columns df)) COLUMNS)
  then Raise ValueError
  else
    '(new_rows, infos) <- check_loop df (rows df) (rows df) [] ;;
    Ok ({| columns := columns df; rows := new_rows |}, infos).

(* ------------------------------------------------------------------------- *)
(** ** Dictionary: get_term, find *)

(** [Dictionary.get_term]: [df.at[index, column]] is a cell when one row
    has the label; with several rows of that label it is a column of
    cells, which the model leaves out.  On the cells of a [Dictionary],
    texts and integers, [str] of a text and [int(str(n))] of an integer
    change nothing.  (On a float-typed Priority column [str] gives a text
    with a point and [int] raises [ValueError].) *)
Definition get_term (d : Dictionary) (i : Z) : result Term :=
  if negb (has_label (dic d) i) then Raise ValueError
  else
    match filter (fun lr => (fst lr =? i)%Z) (dic d) with
    | [(_, r)] =>
      new_Term (Japanese r) (Kana r) (Division0 r) (Division1 r) (Type_ r)
               (Priority r)
    | _ => Raise Unmodelled
    end.

(** [part in s] *)
Fixpoint contains (part s : str) : bool :=
  startswith s part
  || match s with
     | [] => false
     | _ :: s' => contains part s'
     end.

(** [column.apply(lambda x: part in Term.remove_seps(x))]: [re.sub] raises
    [TypeError] on a cell that is not text. *)
Definition contains_cell (part : str) (c : cell) : result bool :=
  match c with
  | CStr s => Ok (contains part (remove_seps s))
  | _ => Raise TypeError
  end.

Definition FIND_COLUMNS : list str :=
  [u "in_jp_no_seps"; u "in_kana_no_seps"].

(** [Dictionary.find]: the data frame and the counter of the dictionary
    returned, and the diagnostics its [update] logs.  The rows whose
    spelling or reading, separators stripped, contains [part] are passed
    through [check]; the two helper columns are set for every row, the
    spelling column first, and dropped again.  [new_dic] is the counter of
    [Dictionary(self.dic_path)], the dictionary built from the file once
    the rows are selected, or what building it raised; the dictionary
    returned keeps that counter, whatever labels its rows have. *)
Definition find_frame (new_dic : result Z) (df : raw_frame) (part : str)
  : result (raw_frame * Z * list Z) :=
  if negb (str_mem (u "Japanese") (columns df)) then Raise KeyError
  else
    in_jp <- mapM (fun lr => contains_cell part (snd lr (u "Japanese")))
               (rows df) ;;
    if negb (str_mem (u "Kana") (columns df)) then Raise KeyError
    else
      in_kana <- mapM (fun lr => contains_cell part (snd lr (u "Kana")))
                   (rows df) ;;
      let flags := map (fun ab => fst ab || snd ab) (combine in_jp in_kana) in
      let result_rows :=
        map fst (filter snd (combine (rows df) flags)) in
      counter <- new_dic ;;
      '(new_df, infos) <-
         check {| columns := filter (fun c => negb (str_mem c FIND_COLUMNS))
                                    (columns df);
                  rows := result_rows |} ;;
      Ok (new_df, counter, infos).

(* ------------------------------------------------------------------------- *)
(** ** The callers: plain-text export and the dictionary viewer *)

(** The text [MainWindow.output_txt] writes to its file. *)
Definition token2_text (t : Token2) : str :=
  match kana2 t with
  | None => jp2 t
  | Some k => jp2 t ++ u "(" ++ k ++ u ")"
  end.

Fixpoint output_lines (d : Dictionary) (text_list : list str) : result str :=
  match text_list with
  | [] => Ok []
  | line :: rest =>
    token_list <- line_to_tokens shape2 d line ;;
    more <- output_lines d rest ;;
    Ok (concat (map token2_text token_list) ++ [10%N] ++ more)
  end.

Definition output_txt (d : Dictionary) (text : str) : result str :=
  output_lines d (split_on 10%N text).

(** [DicModel]: the rows of the table, each showing an id and a term, and
    the dict [_id_to_row] (keys in insertion order). *)
Record DicModel : Type := {
  table : list (Z * Term);
  id_to_row : list (Z * nat)
}.

(** [d.get(key)], [d[key] = v] and [d.pop(key)] on a dict. *)
Fixpoint dict_lookup {A} (d : list (Z * A)) (key : Z) : option A :=
  match d with
  | [] => None
  | (k, v) :: d' => if (k =? key)%Z then Some v else dict_lookup d' key
  end.

Fixpoint dict_set {A} (d : list (Z * A)) (key : Z) (v : A) : list (Z * A) :=
  match d with
  | [] => [(key, v)]
  | (k, x) :: d' =>
    if (k =? key)%Z then (k, v) :: d' else (k, x) :: dict_set d' key v
  end.

Definition dict_pop {A} (d : list (Z * A)) (key : Z) : list (Z * A) :=
  filter (fun kv => negb (fst kv =? key)%Z) d.

(** [removeRow(i)] of the table: nothing happens out of range. *)
Fixpoint remove_nth {A} (i : nat) (l : list A) : list A :=
  match l, i with
  | [], _ => []
  | _ :: l', O => l'
  | x :: l', S i' => x :: remove_nth i' l'
  end.

Definition append_row (m : DicModel) (user_id : Z) (term : Term)
  : DicModel * Z :=
  ({| table := table m ++ [(user_id, term)];
      id_to_row := dict_set (id_to_row m) user_id (length (table m)) |},
   user_id).

Definition remove_row_by_id (m : DicModel) (user_id : Z) : DicModel * bool :=
  match dict_lookup (id_to_row m) user_id with
  | None => (m, false)
  | Some row_idx =>
    ({| table := remove_nth row_idx (table m);
        id_to_row :=
          map (fun kv => if Nat.ltb row_idx (snd kv)
                         then (fst kv, snd kv - 1) else kv)
              (dict_pop (id_to_row m) user_id) |},
     true)
  end.

(** The loop of [update_by_Dictionary] over the labels of the data frame,
    from row [i] of the table on. *)
Fixpoint update_rows (d : Dictionary) (idxs : list Z) (i : nat) (m : DicModel)
  : result DicModel :=
  match idxs with
  | [] => Ok m
  | idx :: rest =>
    term <- get_term d idx ;;
    update_rows d rest (S i)
      {| table := table m ++ [(idx, term)];
         id_to_row := dict_set (id_to_row m) idx i |}
  end.

Definition update_by_Dictionary (d : Dictionary) : result DicModel :=
  update_rows d (labels (dic d)) 0 {| table := []; id_to_row := [] |}.

(** [DicViewer]: the dictionary and the model of its table.  The copy
    [current_dic], which only [find_view] replaces, and the widgets are
    left out. *)
Record DicViewer : Type := {
  viewer_dic : Dictionary;
  viewer_model : DicModel
}.

(** [DicViewer(dic_path)], the dictionary being the one loaded. *)
Definition DicViewer_init (d : Dictionary) : result DicViewer :=
  m <- update_by_Dictionary d ;;
  Ok {| viewer_dic := d; viewer_model := m |}.

Definition append_term (v : DicViewer) (term : Term)
  : DicViewer * option Z :=
  match append (viewer_dic v) term with
  | (d1, None) => ({| viewer_dic := d1; viewer_model := viewer_model v |}, None)
  | (d1, Some user_id) =>
    let '(m1, uid) := append_row (viewer_model v) user_id term in
    ({| viewer_dic := d1; viewer_model := m1 |}, Some uid)
  end.

Definition remove_term_by_id (v : DicViewer) (user_id : Z)
  : DicViewer * bool :=
  match remove_row_by_id (viewer_model v) user_id with
  | (m1, true) =>
    ({| viewer_dic := fst (remove (viewer_dic v) user_id);
        viewer_model := m1 |}, true)
  | (m1, false) =>
    ({| viewer_dic := viewer_dic v; viewer_model := m1 |}, false)
  end.

End Model.

(* ========================================================================= *)
(** * The vocabulary of the statements *)

Unset Implicit Arguments.

(** What the ending test of each type rejects: an ending of the spelling
    that differs from that of the reading, or that is not an ending of the
    type. *)
Definition ending_fails (ty jp' kana' : str) : Prop :=
  (ty = GODAN /\ (take_last 1 jp' <> take_last 1 kana'
                  \/ ~ In (take_last 1 jp') GOBI_LIST))
  \/ (ty = JOUGE /\ (take_last 1 jp' <> take_last 1 kana'
                     \/ take_last 1 jp' <> u "る"))
  \/ (ty = SAHEN /\ (take_last 2 jp' <> take_last 2 kana'
                     \/ take_last 2 jp' <> u "する"))
  \/ (ty = KEIYOU /\ (take_last 1 jp' <> take_last 1 kana'
                      \/ take_last 1 jp' <> u "い"))
  \/ (ty = KAHEN /\ (jp' <> u "来る" \/ kana' <> u "くる"))
  \/ ~ In ty [MEISHI; KOYUU; GODAN; JOUGE; SAHEN; KAHEN; KEIYOU; EIGO].




(** The spelling, the reading and division0 of a candidate. *)
Definition jp_of (q : quad) : str := fst (fst (fst q)).

Definition kana_of (q : quad) : str := snd (fst (fst q)).










(** The rows a search at priority [p] can see. *)
Definition priority_pool (d : Dictionary) (p : Z) : frame :=
  filter (fun lr => (Priority (snd lr) =? p)%Z) (dic d).

Definition tokyo : row :=
  {| Japanese := u "東/京"; Kana := u "とう/きょう"; Division0 := u "0/0";
     Division1 := u "0"; Type_ := MEISHI; Priority := 1 |}.

(** A rival reading of the same spelling, at the default priority. *)
Definition tokyo_rival : row :=
  {| Japanese := u "東/京"; Kana := u "ひがし/きょう"; Division0 := u "0/0";
     Division1 := u "0"; Type_ := MEISHI; Priority := 0 |}.

Definition tokyo_tokens : list Token0 :=
  [ {| jp0 := u "東"; kana0 := Some (u "とう"); alignment := 0 |};
    {| jp0 := u "京"; kana0 := Some (u "きょう"); alignment := 0 |} ].

(** One round of the loop ends with a search, unless it ends with
    [continue]. *)
Definition search_round (U : Unicode) (S : Shape)
    (search : str -> Z -> result (bool * option (list (tok S)) * str))
    (f : nat) (remaining_line : str) (priority : Z) : result (list (tok S)) :=
  '(found, new_tokens, remaining_line') <- search remaining_line priority ;;
  if found then
    more <- line_to_tokens_loop U S search f remaining_line' ;;
    Ok (match new_tokens with Some ts => ts | None => [] end ++ more)
  else
    match remaining_line' with
    | [] => Raise IndexError
    | c :: rest =>
      more <- line_to_tokens_loop U S search f rest ;;
      Ok (plain S [c] :: more)
    end.

Definition DOUBLED : list str := [u "$$"; u "(("; u "))"; u "[["; u "]]"].

(** The counter is above every label in use: [Dictionary(...)] starts
    there, and [append] and [remove] keep it so. *)
Definition counter_above (d : Dictionary) : Prop :=
  Forall (fun l => (l < index d)%Z) (labels (dic d)).

(** The calls a session makes on its dictionary. *)
Inductive op : Type :=
| Append (t : Term)
| Remove (i : Z).

(** The dictionary after the calls, and the ids the appends returned, in
    order. *)
Fixpoint run (d : Dictionary) (ops : list op) : Dictionary * list Z :=
  match ops with
  | [] => (d, [])
  | Append t :: ops' =>
    let '(d1, r) := append d t in
    let '(d2, ids) := run d1 ops' in
    (d2, match r with Some i => i :: ids | None => ids end)
  | Remove i :: ops' => run (fst (remove d i)) ops'
  end.

Definition kyoto_term : Term :=
  {| jp := u "京/都"; kana := u "きょう/と"; div0 := u "0/0"; div1 := u "0";
     term_type := MEISHI; pri := 0 |}.

Definition yomu : Term :=
  {| jp := u "読*む"; kana := u "よ*む"; div0 := u "0*-1"; div1 := u "0*-1";
     term_type := GODAN; pri := 0 |}.

Fixpoint linear (r : regex) : bool :=
  match r with
  | RAlt _ _ => false
  | RSeq r1 r2 => linear r1 && linear r2
  | RGroup _ r1 => linear r1
  | _ => true
  end.

(** The groups of a linear pattern, last closed first. *)
Fixpoint closing (r : regex) : list nat :=
  match r with
  | RGroup i r1 => i :: closing r1
  | RSeq r1 r2 => closing r2 ++ closing r1
  | _ => []
  end.

(** The four fields [is_valid_transfer] measures hold text. *)
Definition text_fields (r : raw_row) : bool :=
  forallb (fun c => match r c with CStr _ => true | _ => false end)
          (firstn 4 COLUMNS).

(** The priority cell is no infinite float. *)
Definition finite_priority (r : raw_row) : bool :=
  match r (u "Priority") with
  | CInf _ => false
  | _ => true
  end.

(** The rows whose [Term] is built. *)
Definition keeps (U : Unicode) (df : raw_frame) (r : raw_row) : bool :=
  match row_term U df r with
  | Ok _ => true
  | Raise _ => false
  end.

Definition has_columns (df : raw_frame) : bool :=
  forallb (fun c => str_mem c (columns df)) COLUMNS.

(** Rows as [read_csv] gives them: the five text columns and the
    priority. *)
Definition cells (j k a b ty p : cell) : raw_row :=
  fun c =>
    if str_eqb c (u "Japanese") then j
    else if str_eqb c (u "Kana") then k
    else if str_eqb c (u "Division0") then a
    else if str_eqb c (u "Division1") then b
    else if str_eqb c (u "Type") then ty
    else if str_eqb c (u "Priority") then p
    else CNaN.

Definition sample_frame : raw_frame :=
  {| columns := COLUMNS;
     rows :=
       [ (0%Z, cells (CStr (u "東/京")) (CStr (u "とう/きょう"))
                 (CStr (u "0/0")) (CStr (u "0")) (CStr MEISHI) (CInt 1));
         (1%Z, cells (CStr (u "読/む")) (CStr (u "よ/む"))
                 (CStr (u "0/0")) (CStr (u "0")) (CStr GODAN) (CInt 0));
         (2%Z, cells (CStr (u "読*む")) (CStr (u "よ*む"))
                 (CStr (u "0*-1")) (CStr (u "0*-1")) (CStr GODAN) CNaN) ] |}.

(** A frame with the six columns and an empty spelling cell. *)
Definition missing_cell_frame : raw_frame :=
  {| columns := COLUMNS;
     rows :=
       [ (0%Z, cells CNaN (CStr (u "とう/きょう"))
                 (CStr (u "0/0")) (CStr (u "0")) (CStr MEISHI) (CInt 1)) ] |}.

(** A frame with the six columns, a valid row and a row whose priority
    cell is an infinite float. *)
Definition infinite_priority_frame : raw_frame :=
  {| columns := COLUMNS;
     rows :=
       [ (0%Z, cells (CStr (u "東/京")) (CStr (u "とう/きょう"))
                 (CStr (u "0/0")) (CStr (u "0")) (CStr MEISHI) (CInt 1));
         (1%Z, cells (CStr (u "京/都")) (CStr (u "きょう/と"))
                 (CStr (u "0/0")) (CStr (u "0")) (CStr MEISHI)
                 (CInf false)) ] |}.

(** The characters the control rules react to. *)
Definition CONTROL : list N := [ch "$"; ch "("; ch ")"; ch "["; ch "]"].

(** A line without control characters; a line holds no line break (the
    callers split their text at the line breaks). *)
Definition plain_line (line : str) : bool :=
  forallb (fun c => negb (mem c CONTROL) && negb (c =? 10)%N) line.

(** The spelling fields of the tokens, concatenated. *)
Definition spelling (S : Shape) (tokens : list (tok S)) : str :=
  concat (map (tok_jp S) tokens).

Definition tokens_of {A} (new_tokens : option (list A)) : list A :=
  match new_tokens with
  | Some ts => ts
  | None => []
  end.

(** On plain lines every search at the default priority returns, and a hit
    spells the text it consumed: the spellings of its tokens followed by
    the text it leaves are the text searched. *)
Definition faithful_search (S : Shape)
    (search : str -> Z -> result (bool * option (list (tok S)) * str)) : Prop :=
  forall c l, plain_line (c :: l) = true -> exists found new_tokens rest,
    search (c :: l) 0%Z = Ok (found, new_tokens, rest)
    /\ if found
       then spelling S (tokens_of new_tokens) ++ rest = c :: l
            /\ length rest <= length l
       else rest = c :: l.

Definition empty_dictionary : Dictionary := Dictionary_init [].

(** A row whose every hit on a plain line spells the text it consumes. *)
Definition faithful_row (U : Unicode) (S : Shape) (r : row) : Prop :=
  forall line, plain_line line = true -> line <> [] ->
    exists term pattern res,
      new_Term U (Japanese r) (Kana r) (Division0 r) (Division1 r) (Type_ r)
               (Priority r) = Ok term
      /\ re_pattern U term = Ok pattern
      /\ re_match U pattern line = Ok res
      /\ match res with
         | None => True
         | Some m =>
           exists g1 g2 tokens,
             group m 1 = Ok g1 /\ group m 2 = Ok g2
             /\ to_token S term g1 = Ok tokens
             /\ spelling S tokens ++ g2 = line
             /\ length g2 < length line
         end.

Fixpoint literal (lit : str) : regex :=
  match lit with
  | [] => REmpty
  | c :: t => RSeq (RAtom (AChar c)) (literal t)
  end.

(** The end of every template: the second group and the end of the text. *)
Definition REST : regex :=
  RSeq (RGroup 2 (RSeq (RRep AAny 0 true) REmpty)) (RSeq REol REmpty).

Definition literal_pattern (lit : str) : regex :=
  RSeq RBol (RSeq (RGroup 1 (literal lit)) REST).

Definition no_line_break (s : str) : bool :=
  forallb (fun c => negb (c =? 10)%N) s.

Definition kyoto : row :=
  {| Japanese := u "京/都"; Kana := u "きょう/と"; Division0 := u "0/0";
     Division1 := u "0"; Type_ := MEISHI; Priority := 0 |}.

(** Two nouns with a point in their spelling. *)
Definition three_point_five : row :=
  {| Japanese := u "3.5"; Kana := u "さんてんご"; Division0 := u "0";
     Division1 := u "0"; Type_ := MEISHI; Priority := 0 |}.

Definition higashi : row :=
  {| Japanese := u "東."; Kana := u "ひがし"; Division0 := u "0";
     Division1 := u "0"; Type_ := MEISHI; Priority := 0 |}.

(** A second entry beginning with 東, at priority 1. *)
Definition touhoku : row :=
  {| Japanese := u "東/北"; Kana := u "とう/ほく"; Division0 := u "0/0";
     Division1 := u "0"; Type_ := MEISHI; Priority := 1 |}.

Definition travel_dictionary : Dictionary :=
  Dictionary_init [(0%Z, tokyo_rival); (1%Z, tokyo); (2%Z, kyoto)].

(** ** The vocabulary of the further properties *)

(** The three separators of a divided spelling. *)
Definition SEPARATORS : list N := [ch "/"; ch "\"; ch "*"].

(** Every character of a text with the character before it, and [0] before
    the first. *)
Definition with_previous (s : str) : list (N * N) := combine (0%N :: s) s.

(** An occurrence of the separator [c] that no [$] precedes. *)
Definition bare (c : N) (px : N * N) : bool :=
  (snd px =? c)%N && negb (fst px =? ch "$")%N.

(** A text without the escape character. *)
Definition no_dollar (s : str) : bool :=
  forallb (fun x => negb (x =? ch "$")%N) s.

(** One of the three separators. *)
Definition is_separator (x : N) : bool := mem x SEPARATORS.

(** The characters [is_valid_transfer] accepts after a [$]. *)
Definition ESCAPABLE : list N := [ch "/"; ch "\"; ch "*"; ch "$"].

(** The binomial coefficient. *)
Fixpoint choose (n k : nat) : nat :=
  match k with
  | O => 1
  | S k' =>
    match n with
    | O => 0
    | S n' => choose n' k' + choose n' k
    end
  end.

(** [insertion fill k o r]: the list [r] is the list [o], in order, with
    [k] copies of [fill] put in. *)
Inductive insertion (fill : str) : nat -> list str -> list str -> Prop :=
| insertion_nil : insertion fill 0 [] []
| insertion_keep x k o r :
    insertion fill k o r -> insertion fill k (x :: o) (x :: r)
| insertion_fill k o r :
    insertion fill k o r -> insertion fill (S k) o (fill :: r).

(** The rows a search on [line] at priority [p] tries. *)
Definition candidate (U : Unicode) (d : Dictionary) (line : str) (p : Z)
    (r : row) : Prop :=
  In r (map snd (dic d)) /\ Priority r = p
  /\ startswith (lower U (Japanese r)) (lower U (firstn 1 line)) = true.

(** The template of the row is built and does not match the line. *)
Definition misses (U : Unicode) (r : row) (line : str) : Prop :=
  exists term pattern,
    new_Term U (Japanese r) (Kana r) (Division0 r) (Division1 r) (Type_ r)
             (Priority r) = Ok term
    /\ re_pattern U term = Ok pattern
    /\ re_match U pattern line = Ok None.

(** The template of the row matches the line; the tokens are those of the
    text of the first group and the second group is what is left. *)
Definition hits (U : Unicode) (S : Shape) (r : row) (line : str)
    (tokens : list (tok S)) (rest : str) : Prop :=
  exists term pattern m g1,
    new_Term U (Japanese r) (Kana r) (Division0 r) (Division1 r) (Type_ r)
             (Priority r) = Ok term
    /\ re_pattern U term = Ok pattern
    /\ re_match U pattern line = Ok (Some m)
    /\ group m 1 = Ok g1
    /\ to_token S term g1 = Ok tokens
    /\ group m 2 = Ok rest.

(** [a] comes no later than [b] in the order of the search. *)
Definition not_after (a b : keyed) : Prop := sorts_before b a = false.

(** No spelling of the dictionary starts with [c], letter case aside. *)
Definition starts_no_entry (U : Unicode) (d : Dictionary) (c : N) : bool :=
  forallb (fun lr => negb (startswith (lower U (Japanese (snd lr)))
                                      (lower U [c]))) (dic d).

(** A character the tokenizer hands on as it is: no control character, and
    no entry starts with it. *)
Definition unknown (U : Unicode) (d : Dictionary) (c : N) : bool :=
  negb (mem c CONTROL) && starts_no_entry U d c.

(** A text of such characters and line breaks. *)
Definition unknown_text (U : Unicode) (d : Dictionary) (text : str) : bool :=
  forallb (fun c => (c =? 10)%N || unknown U d c) text.

(** Two lines the sample dictionary knows nothing of. *)
Definition two_lines : str := u "abc" ++ [10%N] ++ u "かな。".

(** The labels of the rows whose [Term] is not built. *)
Definition failing (U : Unicode) (df : raw_frame) (l : list (Z * raw_row))
  : list Z :=
  map fst (filter (fun lr => negb (keeps U df (snd lr))) l).

(** The label of the row is one of [labels]. *)
Definition label_in (labels : list Z) (lr : Z * raw_row) : bool :=
  existsb (Z.eqb (fst lr)) labels.

(** What [check] returns on the sample frame: the frame of the rows it
    keeps and the labels it reports. *)
Definition sample_checked (U : Unicode) : raw_frame * list Z :=
  ({| columns := COLUMNS;
      rows := filter (fun lr => keeps U sample_frame (snd lr))
                     (rows sample_frame) |},
   failing U sample_frame (rows sample_frame)).

(** The rows [find] selects: the spelling or the reading, separators
    removed, contains [part]. *)
Definition selected (U : Unicode) (part : str) (lr : Z * raw_row) : bool :=
  match snd lr (u "Japanese"), snd lr (u "Kana") with
  | CStr j, CStr k =>
    contains part (remove_seps U j) || contains part (remove_seps U k)
  | _, _ => false
  end.

(** A frame to search: a valid row, a row without the text searched and
    a row with the text but without priority. *)
Definition find_sample : raw_frame :=
  {| columns := COLUMNS;
     rows :=
       [ (0%Z, cells (CStr (u "東/京")) (CStr (u "とう/きょう"))
                 (CStr (u "0/0")) (CStr (u "0")) (CStr MEISHI) (CInt 1));
         (1%Z, cells (CStr (u "読*む")) (CStr (u "よ*む"))
                 (CStr (u "0*-1")) (CStr (u "0*-1")) (CStr GODAN) (CInt 0));
         (2%Z, cells (CStr (u "京/都")) (CStr (u "きょう/と"))
                 (CStr (u "0/0")) (CStr (u "0")) (CStr MEISHI) CNaN) ] |}.

(** What [find] returns on it for the text 京, the file giving the
    counter 7: the first row, and the label of the third. *)
Definition sample_found (U : Unicode) : raw_frame * Z * list Z :=
  ({| columns := COLUMNS;
      rows := filter (fun lr => keeps U find_sample (snd lr))
                (filter (selected U (u "京")) (rows find_sample)) |},
   7%Z,
   failing U find_sample (filter (selected U (u "京")) (rows find_sample))).

(** The calls a session makes on the viewer. *)
Inductive viewer_op : Type :=
| AppendTerm (t : Term)
| RemoveTerm (i : Z).

(** The viewer after the calls. *)
Fixpoint run_viewer (v : DicViewer) (ops : list viewer_op) : DicViewer :=
  match ops with
  | [] => v
  | AppendTerm t :: ops' => run_viewer (fst (append_term v t)) ops'
  | RemoveTerm i :: ops' => run_viewer (fst (remove_term_by_id v i)) ops'
  end.

(** The rows the table shows, as rows of a data frame. *)
Definition shown (m : DicModel) : frame :=
  map (fun it => (fst it, to_dict (snd it))) (table m).

(** [_id_to_row] sends each label to the place of its row. *)
Definition places (m : DicModel) (ls : list Z) : Prop :=
  forall i k, dict_lookup (id_to_row m) i = Some k <-> nth_error ls k = Some i.

(** The table shows the dictionary. *)
Definition in_step (v : DicViewer) : Prop :=
  shown (viewer_model v) = dic (viewer_dic v)
  /\ places (viewer_model v) (labels (dic (viewer_dic v))).

(** The viewer opened on the sample dictionary. *)
Definition travel_viewer : DicViewer :=
  {| viewer_dic := travel_dictionary;
     viewer_model :=
       {| table :=
            [ (0%Z, {| jp := u "東/京"; kana := u "ひがし/きょう";
                       div0 := u "0/0"; div1 := u "0"; term_type := MEISHI;
                       pri := 0 |});
              (1%Z, {| jp := u "東/京"; kana := u "とう/きょう";
                       div0 := u "0/0"; div1 := u "0"; term_type := MEISHI;
                       pri := 1 |});
              (2%Z, kyoto_term) ];
          id_to_row := [(0%Z, 0); (1%Z, 1); (2%Z, 2)] |} |}.

(** Three calls on the viewer of the sample dictionary: a term it holds,
    a new term, and the removal of a row in the middle. *)
Definition travel_session : list viewer_op :=
  [AppendTerm kyoto_term; AppendTerm yomu; RemoveTerm 1].

(** What every call keeps: the table in step, the ids distinct and the
    counter above them. *)
Definition sound (v : DicViewer) : Prop :=
  in_step v /\ NoDup (labels (dic (viewer_dic v)))
  /\ counter_above (viewer_dic v).

(** The text without the three separators. *)
Definition strip (s : str) : str := filter (fun x => negb (is_separator x)) s.

(** A candidate of one run: its spelling and reading are those of the run
    with separators put in. *)
Definition spells (jp_gokan kana_gokan : str) (q : quad) : Prop :=
  strip (jp_of q) = strip jp_gokan /\ strip (kana_of q) = strip kana_gokan.

(** The pattern the reading of a stem is matched with: one group per run,
    the text of a kana run or [.+]. *)
Definition reading_pattern (jp_gokan_list : list (str * bool)) : str :=
  u "^"
  ++ concat (map (fun gokan_token : str * bool =>
                    if snd gokan_token then u "(" ++ fst gokan_token ++ u ")"
                    else u "(.+)") jp_gokan_list)
  ++ u "$".

(** The ending a candidate is closed with, if the type has one. *)
Definition gobi_jp (gobi : option (str * str)) : str :=
  match gobi with Some g => fst g | None => [] end.

Definition gobi_kana (gobi : option (str * str)) : str :=
  match gobi with Some g => snd g | None => [] end.

(** No separator, no [$] and no line break counts as a digit. *)
Definition marks_no_digits (U : Unicode) : bool :=
  forallb (fun c => negb (isdigit U c))
          [ch "/"; ch "\"; ch "*"; ch "$"; 10%N].

(** The characters with a meaning in a pattern. *)
Definition METAS : list N :=
  [ch "("; ch ")"; ch "|"; ch "*"; ch "+"; ch "?"; ch "{"; ch "^"; ch "$";
   ch "["; ch "\"; ch "."].

(** The text ahead lets the item before it stand without a quantifier. *)
Definition unquantified (s : str) : bool :=
  match s with
  | [] => true
  | c :: _ => negb (is_quantifier c || (c =? ch "{")%N)
  end.

(** The group of one run. *)
Definition run_group (i : nat) (run : str * bool) : regex :=
  RGroup i (if snd run then literal (fst run)
            else RSeq (RRep AAny 1 true) REmpty).

(** The groups of the runs, numbered from [g + 1], and the end of the
    text. *)
Fixpoint run_groups (g : nat) (runs : list (str * bool)) : regex :=
  match runs with
  | [] => RSeq REol REmpty
  | run :: rest => RSeq (run_group (S g) run) (run_groups (S g) rest)
  end.

(** The text of the group of one run in the pattern. *)
Definition run_text (run : str * bool) : str :=
  if snd run then u "(" ++ fst run ++ u ")" else u "(.+)".

(** A kana run holds kana, and no run is empty. *)
Definition run_ok (run : str * bool) : Prop :=
  fst run <> [] /\ (snd run = true -> forallb is_kana (fst run) = true).

(** A pattern without groups. *)
Fixpoint groupless (r : regex) : bool :=
  match r with
  | RGroup _ _ => false
  | RSeq r1 r2 | RAlt r1 r2 => groupless r1 && groupless r2
  | _ => true
  end.

(** The length of the ending the type splits off. *)
Definition ending_length (ty : str) : nat :=
  if str_eqb ty SAHEN then 2
  else if str_mem ty [GODAN; JOUGE; KEIYOU] then 1
  else 0.

(** The endings of the four types that have one. *)
Definition ENDINGS : list (str * str) :=
  map (fun g => (GODAN, g)) GOBI_LIST
  ++ [(JOUGE, u "る"); (SAHEN, u "する"); (KEIYOU, u "い")].

(** A place where the text can be cut at a star: the star is ahead and no
    [$] is behind. *)
Definition at_star (w : str * str) : bool :=
  match snd w with
  | c :: _ =>
    (c =? ch "*")%N
    && match fst w with
       | p :: _ => negb (p =? ch "$")%N
       | [] => true
       end
  | [] => false
  end.

(** The end of the patterns of [remove_gobi] and [get_gobi]. *)
Definition TO_END : regex := RSeq (RRep AAny 0 true) (RSeq REol REmpty).

Definition GROUP_TO_END (i : nat) : regex :=
  RSeq (RGroup i (RSeq (RRep AAny 0 true) REmpty)) (RSeq REol REmpty).

(** The ways of [.+] from the start of a text, longest first. *)
Definition ways (U : Unicode) (s : str) : list (str * str) :=
  rev (skipn 1 (rep_all U AAny [] s)).

(* ========================================================================= *)
(** * Properties *)

(** ** Texts and results *)

Lemma str_eqb_eq (a b : str) : str_eqb a b = true <-> a = b.
Proof.
  revert b; induction a as [|x a IH]; intros [|y b]; simpl;
    try (split; [discriminate | discriminate]); try tauto.
  rewrite andb_true_iff, N.eqb_eq, IH.
  split; [intros [-> ->]; reflexivity | intros E; inversion E; auto].
Qed.

Lemma str_eqb_refl (a : str) : str_eqb a a = true.
Proof. apply str_eqb_eq; reflexivity. Qed.

Lemma str_eqb_neq (a b : str) : str_eqb a b = false <-> a <> b.
Proof.
  rewrite <- str_eqb_eq. destruct (str_eqb a b); split; congruence.
Qed.

Lemma str_mem_false_cons (s x : str) (l : list str) :
  str_mem s (x :: l) = false -> str_eqb s x = false /\ str_mem s l = false.
Proof. unfold str_mem; simpl. apply orb_false_iff. Qed.

(* ------------------------------------------------------------------------- *)
(** ** auto_divide: the guards *)

Lemma str_mem_In (s : str) (l : list str) : str_mem s l = true <-> In s l.
Proof.
  unfold str_mem. rewrite existsb_exists. split.
  - intros (x & Hx & E). apply str_eqb_eq in E. subst; assumption.
  - intros H. exists s. split; [assumption | apply str_eqb_refl].
Qed.

Lemma str_mem_not_In (s : str) (l : list str) :
  str_mem s l = false <-> ~ In s l.
Proof.
  rewrite <- str_mem_In. destruct (str_mem s l); split; congruence.
Qed.

Lemma split_gobi_fails (U : Unicode) (n : nat) (ok : str -> bool)
    (jp' kana' : str) :
  take_last n jp' <> take_last n kana' \/ ok (take_last n jp') = false ->
  split_gobi U n ok jp' kana' = Ok None.
Proof.
  intros H. unfold split_gobi.
  destruct H as [H | H].
  - apply str_eqb_neq in H. rewrite H. reflexivity.
  - rewrite H. rewrite orb_true_r. reflexivity.
Qed.

(** The part of [auto_divide] that follows the two opening tests, for a
    given label. *)
Lemma auto_divide_open (U : Unicode) (jp' kana' ty : str) :
  jp' <> [] -> kana' <> [] ->
  is_jp_str U jp' && is_jp_str U kana' = true ->
  auto_divide U jp' kana' ty =
  if str_eqb ty GODAN then
    split_gobi U 1 (fun g => str_mem g GOBI_LIST) jp' kana'
  else if str_eqb ty JOUGE then
    split_gobi U 1 (fun g => str_eqb g (u "る")) jp' kana'
  else if str_eqb ty SAHEN then
    split_gobi U 2 (fun g => str_eqb g (u "する")) jp' kana'
  else if str_eqb ty KAHEN then
    if negb (str_eqb jp' (u "来る")) || negb (str_eqb kana' (u "くる"))
    then Ok None
    else Ok (Some [(u "来る", u "くる", u "0", u "0")])
  else if str_eqb ty KEIYOU then
    split_gobi U 1 (fun g => str_eqb g (u "い")) jp' kana'
  else if str_eqb ty MEISHI then divide_gokan U jp' kana' None
  else if str_eqb ty KOYUU then divide_gokan U jp' kana' None
  else if str_eqb ty EIGO then Ok (Some [(jp', kana', u "1", u "0")])
  else Ok None.
Proof.
  intros Hj Hk Hc. unfold auto_divide.
  destruct jp' as [|a jp']; [congruence|].
  destruct kana' as [|b kana']; [congruence|].
  cbn [length Nat.eqb orb]. rewrite Hc.
  cbn [negb]. rewrite andb_false_r. reflexivity.
Qed.

(** Outside the Japanese character set the call raises, whatever the
    ending. *)
Lemma auto_divide_disabled (U : Unicode) (jp' kana' ty : str) :
  jp' <> [] -> kana' <> [] -> ty <> EIGO ->
  is_jp_str U jp' && is_jp_str U kana' = false ->
  auto_divide U jp' kana' ty = Raise AutoDivisionDisabledError.
Proof.
  intros Hj Hk Hty Hc. unfold auto_divide.
  destruct jp' as [|a jp']; [congruence|].
  destruct kana' as [|b kana']; [congruence|].
  cbn [length Nat.eqb orb]. rewrite Hc. cbn [negb]. rewrite andb_true_r.
  destruct (str_mem ty [EIGO; KOYUU]) eqn:Em; cbn [negb]; [|reflexivity].
  apply str_mem_In in Em. destruct Em as [E | [E | []]]; [congruence|].
  subst ty.
  change (str_eqb KOYUU GODAN) with false.
  change (str_eqb KOYUU JOUGE) with false.
  change (str_eqb KOYUU SAHEN) with false.
  change (str_eqb KOYUU KAHEN) with false.
  change (str_eqb KOYUU KEIYOU) with false.
  change (str_eqb KOYUU MEISHI) with false.
  change (str_eqb KOYUU KOYUU) with true.
  reflexivity.
Qed.

(** C9 (as amended).  [auto_divide] returns [None] when the spelling or the
    reading is empty; and, when both are written in the Japanese character
    set, when the ending test of the type fails (the ending of the spelling
    differs from that of the reading or is not an ending of the type) or
    the label is none of the eight.  When both are not empty and the type
    is not the English one, a spelling or reading with a character outside
    that set makes the call raise [AutoDivisionDisabledError], whatever
    the ending. *)
Theorem auto_divide_returns_None (U : Unicode) (jp' kana' ty : str) :
  (jp' = [] \/ kana' = []
   \/ (is_jp_str U jp' && is_jp_str U kana' = true
       /\ ending_fails ty jp' kana') ->
   auto_divide U jp' kana' ty = Ok None)
  /\ (jp' <> [] -> kana' <> [] -> ty <> EIGO ->
      is_jp_str U jp' && is_jp_str U kana' = false ->
      auto_divide U jp' kana' ty = Raise AutoDivisionDisabledError).
Proof.
  split; [|apply auto_divide_disabled].
  intros [-> | [-> | [Hc Hf]]].
  - reflexivity.
  - unfold auto_divide. rewrite orb_true_r. reflexivity.
  - destruct jp' as [|a jp0]; [reflexivity|].
    destruct kana' as [|b kana0];
      [unfold auto_divide; rewrite orb_true_r; reflexivity|].
    rewrite auto_divide_open by (assumption || discriminate).
    destruct Hf as [[-> H] | [[-> H] | [[-> H] | [[-> H] | [[-> H] | H]]]]].
    + change (str_eqb GODAN GODAN) with true. cbv iota.
      apply split_gobi_fails.
      destruct H as [H | H]; [left; exact H | right].
      apply str_mem_not_In. exact H.
    + change (str_eqb JOUGE GODAN) with false.
      change (str_eqb JOUGE JOUGE) with true. cbv iota.
      apply split_gobi_fails.
      destruct H as [H | H]; [left; exact H | right].
      apply str_eqb_neq. exact H.
    + change (str_eqb SAHEN GODAN) with false.
      change (str_eqb SAHEN JOUGE) with false.
      change (str_eqb SAHEN SAHEN) with true. cbv iota.
      apply split_gobi_fails.
      destruct H as [H | H]; [left; exact H | right].
      apply str_eqb_neq. exact H.
    + change (str_eqb KEIYOU GODAN) with false.
      change (str_eqb KEIYOU JOUGE) with false.
      change (str_eqb KEIYOU SAHEN) with false.
      change (str_eqb KEIYOU KAHEN) with false.
      change (str_eqb KEIYOU KEIYOU) with true. cbv iota.
      apply split_gobi_fails.
      destruct H as [H | H]; [left; exact H | right].
      apply str_eqb_neq. exact H.
    + change (str_eqb KAHEN GODAN) with false.
      change (str_eqb KAHEN JOUGE) with false.
      change (str_eqb KAHEN SAHEN) with false.
      change (str_eqb KAHEN KAHEN) with true. cbv iota.
      destruct H as [H | H]; apply str_eqb_neq in H; rewrite H.
      * reflexivity.
      * rewrite orb_true_r. reflexivity.
    + apply str_mem_not_In in H.
      repeat (apply str_mem_false_cons in H; destruct H as [?E H]).
      rewrite E, E0, E1, E2, E3, E4, E5, E6. reflexivity.
Qed.

(** An ichidan spelling whose reading ends otherwise, and a godan spelling
    with a Latin letter. *)
Lemma auto_divide_returns_None_witness :
  auto_divide ucd (u "食べる") (u "たべた") JOUGE = Ok None
  /\ auto_divide ucd (u "読a") (u "よむ") GODAN
     = Raise AutoDivisionDisabledError.
Proof.
  split.
  - apply (proj1 (auto_divide_returns_None ucd (u "食べる") (u "たべた") JOUGE)).
    right. right. split.
    + vm_compute. reflexivity.
    + right. left. split; [reflexivity|]. left. vm_compute. discriminate.
  - apply (proj2 (auto_divide_returns_None ucd (u "読a") (u "よむ") GODAN));
      vm_compute; (reflexivity || discriminate).
Defined.

(** C9 (as stated) fails: with a character outside the Japanese set the
    godan ending test would fail (the spelling ends in [a]), yet the call
    raises instead of returning [None]. *)
Lemma auto_divide_raises_before_ending_test :
  ending_fails GODAN (u "読a") (u "よむ")
  /\ auto_divide ucd (u "読a") (u "よむ") GODAN
     = Raise AutoDivisionDisabledError
  /\ auto_divide ucd (u "読a") (u "よむ") GODAN <> Ok None.
Proof.
  split; [|split].
  - left. split; [reflexivity|]. left. vm_compute. discriminate.
  - vm_compute. reflexivity.
  - vm_compute. discriminate.
Qed.

(** C7 (as amended).  For 読む / よむ of type godan the solver returns the one
    candidate with the ending split off by a star and digit -1. *)
Theorem auto_divide_yomu (U : Unicode) :
  auto_divide U (u "読む") (u "よむ") GODAN
  = Ok (Some [(u "読*む", u "よ*む", u "0*-1", u "0*-1")]).
Proof. vm_compute. reflexivity. Qed.

(** C7 (as stated) fails: the claimed candidate is not in the list. *)
Lemma auto_divide_yomu_not_slash :
  ~ exists l, auto_divide ucd (u "読む") (u "よむ") GODAN = Ok (Some l)
              /\ In (u "読/む", u "よ/む", u "0/0", u "0") l.
Proof.
  intros (l & E & H). vm_compute in E.
  injection E as <-. destruct H as [H | []].
  vm_compute in H. discriminate.
Qed.

(* ------------------------------------------------------------------------- *)
(** ** auto_divide: the scheme-1 digits *)

Lemma split_on_length (c : N) (s : str) :
  exists n, length (split_on c s) = S n.
Proof.
  induction s as [|x s [n IH]]; simpl.
  - exists 0. reflexivity.
  - destruct (x =? c)%N.
    + exists (S n). simpl. rewrite IH. reflexivity.
    + destruct (split_on c s); [discriminate|]. exists n. exact IH.
Qed.






Lemma dedupe_Forall (P : quad -> Prop) (part : list quad) :
  forall seen, Forall P part -> Forall P (dedupe seen part).
Proof.
  induction part as [|q rest IH]; simpl; intros seen HF; [constructor|].
  inversion HF; subst.
  destruct (existsb _ seen); [apply IH; assumption|].
  constructor; [assumption | apply IH; assumption].
Qed.

Lemma product_In {A} (pools : list (list A)) :
  forall combo, In combo (product pools) ->
                Forall2 (fun x pool => In x pool) combo pools.
Proof.
  induction pools as [|xs rest IH]; simpl; intros combo H.
  - destruct H as [<- | []]. constructor.
  - apply in_flat_map in H. destruct H as (x & Hx & H).
    apply in_map_iff in H. destruct H as (c & <- & Hc).
    constructor; [exact Hx | exact (IH _ Hc)].
Qed.














(* ------------------------------------------------------------------------- *)
(** ** auto_divide: the cap on the candidates of a run *)

(** C3, evaluated where it fails.  For a run of three kanji read by 24 kana
    the loop accumulates 2024 candidates: each of the eight admissible
    separator combinations adds 253, the cap is tested only when a
    combination starts (1771 candidates before the last one), and nothing
    is tested after the last.  The call returns the 848 distinct
    candidates and raises nothing. *)
Theorem auto_divide_exceeds_cap_silently (U : Unicode) :
  let jp' := u "漢字語" in
  let kana' := u "あいうえおかきくけこさしすせそたちつてとなにぬね" in
  match run_choices jp' kana' with
  | Ok (Choices choices) => Some (length choices)
  | _ => None
  end = Some 2024
  /\ CAP < 2024
  /\ match auto_divide U jp' kana' MEISHI with
     | Ok (Some l) => Some (length l)
     | _ => None
     end = Some 848.
Proof.
  split; [|split].
  - vm_compute. reflexivity.
  - unfold CAP. lia.
  - vm_compute. reflexivity.
Qed.

(* ------------------------------------------------------------------------- *)
(** ** re_pattern on the term's own spelling *)

(** C4, evaluated where it fails.  The noun 1+1 passes the validation, its
    spelling without separators is 1+1, and its template, which takes the
    spelling as pattern text, reads the plus sign as a quantifier and does
    not match 1+1.  The same spelling as a proper noun is escaped and
    matches. *)
Theorem noun_pattern_misses_own_spelling :
  exists t t',
    new_Term ucd (u "1+1") (u "いちたすいち") (u "1") (u "0") MEISHI 0 = Ok t
    /\ remove_seps ucd (jp t) = u "1+1"
    /\ re_pattern ucd t = Ok (u "^(1+1)(.*)$")
    /\ re_match ucd (u "^(1+1)(.*)$") (u "1+1") = Ok None
    /\ new_Term ucd (u "1+1") (u "いちたすいち") (u "1") (u "0") KOYUU 0 = Ok t'
    /\ re_pattern ucd t' = Ok (u "^(1\+1)(.*)$")
    /\ option_map (fun m => group m 1)
         match re_match ucd (u "^(1\+1)(.*)$") (u "1+1") with
         | Ok r => r
         | Raise _ => None
         end = Some (Ok (u "1+1")).
Proof.
  do 2 eexists.
  split; [vm_compute; reflexivity|].
  split; [vm_compute; reflexivity|].
  split; [vm_compute; reflexivity|].
  split; [vm_compute; reflexivity|].
  split; [vm_compute; reflexivity|].
  split; vm_compute; reflexivity.
Qed.

(* ------------------------------------------------------------------------- *)
(** ** The tokenizer at the end of a line *)

(** C1, evaluated where it fails.  When a priority directive, or an inline
    quadruple whose term is rejected, ends the line, the text left is empty
    and the dictionary search that follows takes its first character:
    [IndexError], in the three shapes and whatever the dictionary holds. *)
Theorem tokenizer_raises_at_line_end (d : Dictionary) :
  line_to_tokens0 ucd d (u "[1]") = Raise IndexError
  /\ line_to_tokens1 ucd d (u "[1]") = Raise IndexError
  /\ line_to_tokens2 ucd d (u "[1]") = Raise IndexError
  /\ line_to_tokens0 ucd d (u "(a;b;c;d)") = Raise IndexError
  /\ line_to_tokens1 ucd d (u "(a;b;c;d)") = Raise IndexError
  /\ line_to_tokens2 ucd d (u "(a;b;c;d)") = Raise IndexError.
Proof.
  repeat split; vm_compute; reflexivity.
Qed.

(* ------------------------------------------------------------------------- *)
(** ** The priority directive *)

Lemma filter_andb_pool {A} (f g : A -> bool) (l : list A) :
  filter (fun x => f x && g x) l = filter (fun x => f x && g x) (filter g l).
Proof.
  induction l as [|x l IH]; simpl; [reflexivity|].
  destruct (g x) eqn:G; simpl.
  - rewrite G. destruct (f x); simpl; rewrite <- IH; reflexivity.
  - rewrite andb_false_r. exact IH.
Qed.

(** A search at priority [p] depends on the rows of that priority only. *)
Lemma search_to_token_pool (S : Shape) (U : Unicode) (d : Dictionary)
    (line : str) (p : Z) :
  search_to_token U S d line p
  = search_to_token U S {| dic := priority_pool d p; index := index d |} line p.
Proof.
  unfold search_to_token, priority_pool. destruct line as [|c line];
    [reflexivity|]. cbn [dic].
  rewrite (filter_andb_pool
             (fun lr => startswith (lower U (Japanese (snd lr))) (lower U [c]))
             (fun lr => (Priority (snd lr) =? p)%Z) (dic d)) at 1.
  reflexivity.
Qed.

(** A round that starts on a priority directive emits nothing for it and
    searches the text after it at the priority it names. *)
Lemma loop_directive_round (U : Unicode) (S : Shape)
    (search : str -> Z -> result (bool * option (list (tok S)) * str))
    (f : nat) (line : str) (m : mstate) (digits rest : str) (p : Z) :
  line <> [] ->
  str_mem (firstn 2 line) DOUBLED = false ->
  match_compiled U PATTERNS_custom line = None ->
  match_compiled U PATTERNS_priority line = Some m ->
  group m 1 = Ok digits -> int_digits U digits = Ok p ->
  group m 2 = Ok rest ->
  line_to_tokens_loop U S search (Datatypes.S f) line
  = search_round U S search f rest p.
Proof.
  intros Hne Hd Hc Hp Hg1 Hi Hg2. destruct line as [|c0 tail]; [congruence|].
  cbn [line_to_tokens_loop]. fold DOUBLED.
  rewrite Hd, Hc, Hp, Hg1. cbn [bind]. rewrite Hi. cbn [bind].
  rewrite Hg2. reflexivity.
Qed.

(** Without the directive the same line is matched against the rows of
    priority 0: here the rival reading. *)
Example default_priority_finds_rival :
  line_to_tokens0 ucd (Dictionary_init [(0%Z, tokyo_rival); (1%Z, tokyo)])
    (u "東京")
  = Ok [ {| jp0 := u "東"; kana0 := Some (u "ひがし"); alignment := 0 |};
         {| jp0 := u "京"; kana0 := Some (u "きょう"); alignment := 0 |} ].
Proof. vm_compute. reflexivity. Qed.

(* ------------------------------------------------------------------------- *)
(** ** Dictionary: append and remove *)

Lemma max_label_bound (ls : list Z) (z : Z) :
  Forall (fun l => (l <= fold_right Z.max z ls)%Z) ls
  /\ (z <= fold_right Z.max z ls)%Z.
Proof.
  induction ls as [|x ls [IH1 IH2]]; simpl.
  - split; [constructor | lia].
  - split; [|lia]. constructor; [lia|].
    eapply Forall_impl; [|exact IH1]. simpl. intros a Ha. lia.
Qed.

Lemma Dictionary_init_counter_above (df : frame) :
  counter_above (Dictionary_init df).
Proof.
  unfold counter_above, Dictionary_init. simpl.
  destruct df as [|[l r] df]; [constructor|].
  cbn [length Nat.ltb Nat.leb dic index].
  destruct (max_label_bound (labels ((l, r) :: df)) (hd 0%Z (labels ((l, r) :: df))))
    as [H _].
  eapply Forall_impl; [|exact H]. simpl. intros a Ha. lia.
Qed.

Lemma has_label_In (df : frame) (label : Z) :
  has_label df label = true <-> In label (labels df).
Proof.
  unfold has_label. rewrite existsb_exists. split.
  - intros (x & Hx & E). apply Z.eqb_eq in E. subst. assumption.
  - intros H. exists label. split; [assumption | apply Z.eqb_refl].
Qed.

Lemma loc_set_fresh (df : frame) (label : Z) (r : row) :
  ~ In label (labels df) -> loc_set df label r = df ++ [(label, r)].
Proof.
  intros H. unfold loc_set.
  destruct (has_label df label) eqn:E; [|reflexivity].
  apply has_label_In in E. contradiction.
Qed.

Lemma drop_absent (df : frame) (label : Z) :
  ~ In label (labels df) -> drop df label = df.
Proof.
  induction df as [|[l x] df IH]; simpl; intros H; [reflexivity|].
  destruct (Z.eqb_spec l label) as [E | E]; [tauto|].
  simpl. rewrite IH by tauto. reflexivity.
Qed.


Lemma counter_above_fresh (d : Dictionary) :
  counter_above d -> ~ In (index d) (labels (dic d)).
Proof.
  unfold counter_above. rewrite Forall_forall. intros H Hin.
  specialize (H _ Hin). lia.
Qed.

Lemma append_counter (d : Dictionary) (t : Term) :
  counter_above d ->
  counter_above (fst (append d t))
  /\ (index d <= index (fst (append d t)))%Z
  /\ forall i, snd (append d t) = Some i ->
               i = index d /\ index (fst (append d t)) = (i + 1)%Z.
Proof.
  intros H. unfold append. destruct (is_exists d t); cbn [fst snd].
  - split; [exact H|]. split; [lia | discriminate].
  - split; [|split].
    + unfold counter_above. cbn [dic index].
      rewrite (loc_set_fresh _ _ _ (counter_above_fresh _ H)).
      unfold labels. rewrite map_app. apply Forall_app. split.
      * eapply Forall_impl; [|exact H]. simpl. intros a Ha. lia.
      * constructor; [simpl; lia | constructor].
    + cbn [index]. lia.
    + intros i E. injection E as <-. cbn [index]. split; lia.
Qed.

Lemma remove_counter (d : Dictionary) (i : Z) :
  counter_above d ->
  counter_above (fst (remove d i)) /\ index (fst (remove d i)) = index d.
Proof.
  intros H. unfold remove. destruct (has_label (dic d) i); cbn [fst].
  - split; [|reflexivity]. unfold counter_above, drop, labels. cbn [dic index].
    unfold counter_above, labels in H. rewrite Forall_forall in *.
    intros l Hl. apply in_map_iff in Hl. destruct Hl as (x & <- & Hx).
    apply filter_In in Hx. apply H. apply in_map. tauto.
  - split; [exact H | reflexivity].
Qed.







(** The id of the witness: 2, although id 1 is free again. *)
Example append_after_remove_id :
  snd (append (fst (run (Dictionary_init [(0%Z, tokyo)])
                        [Append kyoto_term; Remove 1%Z])) yomu) = Some 2%Z.
Proof. vm_compute. reflexivity. Qed.

(* ------------------------------------------------------------------------- *)
(** ** Groups of a pattern without alternation *)

Lemma rmatch_caps (U : Unicode) (r : regex) :
  linear r = true ->
  forall st st', In st' (rmatch U r st) ->
                 map fst (m_caps st') = closing r ++ map fst (m_caps st).
Proof.
  induction r as [ | a | a lo g | a g | r1 IH1 r2 IH2 | r1 IH1 r2 IH2
                   | i r1 IH1 | | | a ]; intros L st st' H; simpl in *.
  - destruct H as [<- | []]. reflexivity.
  - destruct (m_suf st) as [|c t]; [destruct H|].
    destruct (atom_ok U a c); [|destruct H].
    destruct H as [<- | []]. reflexivity.
  - apply in_map_iff in H. destruct H as (ps & <- & _). reflexivity.
  - apply in_map_iff in H. destruct H as (ps & <- & _). reflexivity.
  - apply andb_true_iff in L. destruct L as [L1 L2].
    apply in_flat_map in H. destruct H as (st1 & H1 & H2).
    rewrite (IH2 L2 _ _ H2), (IH1 L1 _ _ H1), app_assoc. reflexivity.
  - discriminate.
  - apply in_map_iff in H. destruct H as (st1 & <- & H1). simpl.
    rewrite (IH1 L _ _ H1). reflexivity.
  - destruct (m_pre st); [|destruct H]. destruct H as [<- | []]. reflexivity.
  - destruct (m_suf st) as [|c [|c' t]]; try (destruct H; fail).
    + destruct H as [<- | []]. reflexivity.
    + destruct (c =? 10)%N; [|destruct H]. destruct H as [<- | []]. reflexivity.
  - destruct (m_pre st) as [|c t].
    + destruct H as [<- | []]. reflexivity.
    + destruct (atom_ok U a c); [destruct H|]. destruct H as [<- | []].
      reflexivity.
Qed.

(** A match of a linear pattern with the one group 1 holds that group and
    has [lastindex] 1. *)
Lemma one_group_match (U : Unicode) (r : regex) (s : str) (m : mstate) :
  linear r = true -> closing r = [1] ->
  match_compiled U r s = Some m ->
  exists g, m_caps m = [(1, g)].
Proof.
  intros L C H. unfold match_compiled in H.
  destruct (rmatch U r _) as [|st l] eqn:E; [discriminate|].
  injection H as ->.
  assert (Hin : In m (rmatch U r {| m_pre := []; m_suf := s; m_caps := [] |}))
    by (rewrite E; left; reflexivity).
  pose proof (rmatch_caps U r L _ _ Hin) as Hc. rewrite C in Hc. simpl in Hc.
  destruct (m_caps m) as [|[i g] [|x l']]; try discriminate.
  injection Hc as ->. exists g. reflexivity.
Qed.

Lemma is_gobi_exists_total (U : Unicode) (s : str) :
  exists b, is_gobi_exists U s = Ok b.
Proof.
  unfold is_gobi_exists.
  destruct (match_compiled U PATTERNS_is_gobi_exists s) as [m|] eqn:E;
    [|exists false; reflexivity].
  destruct (one_group_match U PATTERNS_is_gobi_exists s m eq_refl eq_refl E)
    as [g Hg].
  unfold lastindex. rewrite Hg. exists true. reflexivity.
Qed.

Lemma remove_gobi_total (U : Unicode) (s : str) :
  exists g, remove_gobi U s = Ok g.
Proof.
  unfold remove_gobi.
  destruct (match_compiled U PATTERNS_remove_gobi s) as [m|] eqn:E;
    [|exists s; reflexivity].
  destruct (one_group_match U PATTERNS_remove_gobi s m eq_refl eq_refl E)
    as [g Hg].
  unfold too_many_groups, lastindex, group. rewrite Hg. exists g. reflexivity.
Qed.

Lemma get_gobi_outcome (U : Unicode) (s : str) :
  (exists g, get_gobi U s = Ok g) \/ get_gobi U s = Raise ValueError.
Proof.
  unfold get_gobi.
  destruct (match_compiled U PATTERNS_get_gobi s) as [m|] eqn:E;
    [|right; reflexivity].
  destruct (one_group_match U PATTERNS_get_gobi s m eq_refl eq_refl E)
    as [g Hg].
  unfold too_many_groups, lastindex, group. rewrite Hg. left. exists g.
  reflexivity.
Qed.

(** [is_valid] never raises anything but [ValueError]. *)
Lemma is_valid_outcome (U : Unicode) (t : Term) (div_type : nat) :
  (exists b, is_valid U t div_type = Ok b)
  \/ is_valid U t div_type = Raise ValueError.
Proof.
  unfold is_valid.
  destruct (negb (forallb _ _)); [left; eexists; reflexivity|].
  destruct (_ && _); [left; eexists; reflexivity|]. cbv zeta.
  destruct (is_gobi_exists_total U
              (div_remove U (jp t) (nth (1 - div_type) [ch "/"; ch "\"] 0%N)))
    as [g1 ->].
  destruct (is_gobi_exists_total U
              (div_remove U (kana t) (nth (1 - div_type) [ch "/"; ch "\"] 0%N)))
    as [g2 ->].
  destruct (is_gobi_exists_total U
              (div_remove U (nth div_type [div0 t; div1 t] [])
                 (nth (1 - div_type) [ch "/"; ch "\"] 0%N)))
    as [g3 ->].
  cbn [bind].
  destruct (str_mem (term_type t) [MEISHI; KOYUU]).
  { destruct (g1 || g2 || g3); left; eexists; reflexivity. }
  destruct (str_eqb (term_type t) KAHEN); [left; eexists; reflexivity|].
  destruct (str_eqb (term_type t) EIGO).
  { destruct (g1 || g2 || g3); left; eexists; reflexivity. }
  destruct (negb (g1 && g2 && g3)); [left; eexists; reflexivity|].
  match goal with
  | |- context [get_gobi U ?a] =>
    destruct (get_gobi_outcome U a) as [[x ->] | ->];
      [|right; reflexivity]
  end. cbn [bind].
  match goal with
  | |- context [get_gobi U ?a] =>
    destruct (get_gobi_outcome U a) as [[y ->] | ->];
      [|right; reflexivity]
  end. cbn [bind].
  match goal with
  | |- context [get_gobi U ?a] =>
    destruct (get_gobi_outcome U a) as [[z ->] | ->];
      [|right; reflexivity]
  end. cbn [bind except_MultipleGobiError].
  destruct (_ || _); [left; eexists; reflexivity|].
  match goal with
  | |- context [if negb ?c then _ else _] =>
    destruct c; cbn [negb]; [|left; eexists; reflexivity]
  end.
  match goal with
  | |- context [remove_gobi U ?a] =>
    destruct (remove_gobi_total U a) as [j' ->]
  end. cbn [bind].
  match goal with
  | |- context [remove_gobi U ?a] =>
    destruct (remove_gobi_total U a) as [k' ->]
  end. cbn [bind].
  match goal with
  | |- context [remove_gobi U ?a] =>
    destruct (remove_gobi_total U a) as [d' ->]
  end. cbn [bind].
  left; eexists; reflexivity.
Qed.

Lemma new_Term_outcome (U : Unicode) (j k a b ty : str) (p : Z) :
  (exists t, new_Term U j k a b ty p = Ok t)
  \/ new_Term U j k a b ty p = Raise ValueError.
Proof.
  unfold new_Term. cbv zeta.
  match goal with
  | |- context [is_valid U ?t 0] =>
    destruct (is_valid_outcome U t 0) as [[v0 ->] | ->];
      cbn [bind]; [|right; reflexivity];
    destruct v0; cbn [negb]; [|right; reflexivity];
    destruct (is_valid_outcome U t 1) as [[v1 ->] | ->];
      cbn [bind]; [|right; reflexivity];
    destruct v1; cbn [negb]; [left; eexists; reflexivity | right; reflexivity]
  end.
Qed.

(** ** Dictionary.check *)

Lemma int_cell_outcome (U : Unicode) (c : cell) :
  (exists p, int_cell U c = Ok p) \/ int_cell U c = Raise ValueError
  \/ (exists negative, c = CInf negative)
     /\ int_cell U c = Raise OverflowError.
Proof.
  destruct c as [s | z | m e | negative |]; simpl.
  - unfold py_int. destruct (int_text U s); [left; eexists|right; left];
      reflexivity.
  - left; eexists; reflexivity.
  - left; eexists; reflexivity.
  - right. right. split; [eexists|]; reflexivity.
  - right; left; reflexivity.
Qed.

Lemma row_term_outcome (U : Unicode) (df : raw_frame) (r : raw_row) :
  has_columns df = true -> text_fields r = true ->
  finite_priority r = true ->
  (exists t, row_term U df r = Ok t) \/ row_term U df r = Raise ValueError.
Proof.
  unfold has_columns, text_fields, finite_priority, row_term, cell_at.
  intros Hc Ht Hp.
  cbn [COLUMNS forallb firstn nth] in *.
  repeat (apply andb_true_iff in Hc; destruct Hc as [?Hc Hc]).
  rewrite Hc0, Hc1, Hc2, Hc3, Hc4, Hc5. cbn [bind].
  repeat (apply andb_true_iff in Ht; destruct Ht as [?Ht Ht]).
  destruct (int_cell_outcome U (r (u "Priority")))
    as [[p ->] | [-> | [[negative E] _]]];
    cbn [bind]; [|right; reflexivity | rewrite E in Hp; discriminate Hp].
  unfold Term_of_cells.
  destruct (r (u "Japanese")); try discriminate.
  destruct (r (u "Kana")); try discriminate.
  destruct (r (u "Division0")); try discriminate.
  destruct (r (u "Division1")); try discriminate.
  cbn [transfer_cells].
  repeat match goal with
         | |- context [if is_valid_transfer ?x then _ else _] =>
           destruct (is_valid_transfer x); cbn [bind negb];
             [|right; reflexivity]
         end.
  cbn [bind negb text_of]. apply new_Term_outcome.
Qed.

Lemma filter_other_labels {A} (l : list (Z * A)) (label : Z) :
  ~ In label (map fst l) ->
  filter (fun lr => negb (fst lr =? label)%Z) l = l.
Proof.
  induction l as [|[x a] l IH]; simpl; intros H; [reflexivity|].
  destruct (Z.eqb_spec x label) as [E | E]; [tauto|].
  simpl. rewrite IH by tauto. reflexivity.
Qed.

Lemma check_loop_outcome (U : Unicode) (df : raw_frame) :
  has_columns df = true ->
  forall todo done infos,
    NoDup (map fst (done ++ todo)) ->
    forallb (fun lr => text_fields (snd lr) && finite_priority (snd lr)) todo
    = true ->
    check_loop U df todo
      (filter (fun lr => keeps U df (snd lr)) done ++ todo) infos
    = Ok (filter (fun lr => keeps U df (snd lr)) (done ++ todo),
          infos ++ map fst (filter (fun lr => negb (keeps U df (snd lr))) todo)).
Proof.
  intros Hc. induction todo as [|[label r] rest IH];
    intros done infos Hnd Ht.
  - cbn [check_loop filter map]. rewrite !app_nil_r. reflexivity.
  - cbn [forallb snd] in Ht. apply andb_true_iff in Ht. destruct Ht as [Hr Ht].
    apply andb_true_iff in Hr. destruct Hr as [Hr Hp].
    specialize (IH (done ++ [(label, r)])).
    rewrite <- app_assoc in IH. cbn [app] in IH.
    cbn [check_loop filter snd].
    destruct (row_term_outcome U df r Hc Hr Hp) as [[t E] | E].
    + assert (K : keeps U df r = true) by (unfold keeps; rewrite E; reflexivity).
      rewrite E, K. cbn [negb].
      rewrite <- (IH infos Hnd Ht).
      rewrite filter_app. cbn [filter snd]. rewrite K, <- app_assoc.
      reflexivity.
    + assert (K : keeps U df r = false)
        by (unfold keeps; rewrite E; reflexivity).
      rewrite E, K. cbn [negb map fst].
      assert (Hin : existsb (Z.eqb label)
                      (map fst (filter (fun lr => keeps U df (snd lr)) done
                                ++ (label, r) :: rest)) = true).
      { apply existsb_exists. exists label. split; [|apply Z.eqb_refl].
        rewrite map_app. apply in_or_app. right. left. reflexivity. }
      rewrite Hin.
      pose proof Hnd as Hnd2. rewrite map_app in Hnd2. cbn [map fst] in Hnd2.
      pose proof (NoDup_remove_2 _ _ _ Hnd2) as Hfresh.
      rewrite filter_app. cbn [filter fst]. rewrite Z.eqb_refl. cbn [negb].
      rewrite (filter_other_labels rest label)
        by (intros X; apply Hfresh; apply in_or_app; right; exact X).
      rewrite (filter_other_labels (filter _ done) label).
      2:{ intros X; apply Hfresh; apply in_or_app; left.
          apply in_map_iff in X. destruct X as (x & Ex & Hx).
          apply filter_In in Hx. apply in_map_iff. exists x. tauto. }
      specialize (IH (infos ++ [label]) Hnd Ht).
      rewrite filter_app in IH. cbn [filter snd] in IH. rewrite K in IH.
      rewrite app_nil_r in IH. rewrite IH. rewrite <- app_assoc. reflexivity.
Qed.

(** Where [check] does what is asked of it: on a row source with distinct
    row labels whose spelling, reading and division cells all hold text
    and whose priority cells are no infinite floats, it fails only when
    one of the six columns is absent; otherwise it returns the rows whose
    [Term] is built, in their order, and has logged one diagnostic for
    each of the other rows. *)
Lemma check_on_text_rows (U : Unicode) (df : raw_frame) :
  NoDup (map fst (rows df)) ->
  forallb (fun lr => text_fields (snd lr) && finite_priority (snd lr))
          (rows df) = true ->
  check U df
  = if has_columns df
    then Ok ({| columns := columns df;
                rows := filter (fun lr => keeps U df (snd lr)) (rows df) |},
             map fst (filter (fun lr => negb (keeps U df (snd lr))) (rows df)))
    else Raise ValueError.
Proof.
  intros Hnd Ht. unfold check. fold (has_columns df).
  destruct (has_columns df) eqn:Hc; cbn [negb]; [|reflexivity].
  pose proof (check_loop_outcome U df Hc (rows df) [] [] Hnd Ht) as H.
  cbn [filter app] in H. rewrite H. reflexivity.
Qed.

(** What the load of the sample keeps and logs. *)
Example check_sample :
  match check ucd sample_frame with
  | Ok (new_df, infos) => Some (map fst (rows new_df), infos)
  | Raise _ => None
  end = Some ([0%Z], [1%Z; 2%Z]).
Proof. vm_compute. reflexivity. Qed.

(** C5, evaluated where it fails.  With the six columns present, one row
    whose spelling cell is empty makes the whole load raise [TypeError],
    and one row whose priority cell is an infinite float makes it raise
    [OverflowError], the valid row before it notwithstanding: [check]
    drops a row only for a [ValueError] and raises again whatever else
    the construction of its [Term] raised. *)
Theorem check_raises_on_missing_cell :
  has_columns missing_cell_frame = true
  /\ check ucd missing_cell_frame = Raise TypeError
  /\ has_columns infinite_priority_frame = true
  /\ check ucd infinite_priority_frame = Raise OverflowError.
Proof. repeat split; vm_compute; reflexivity. Qed.

(* ------------------------------------------------------------------------- *)
(** ** The round trip of the tokenizer *)

Lemma anchored_literal_miss (U : Unicode) (x : N) (r : regex) (c : N)
    (t : str) :
  (c =? x)%N = false ->
  match_compiled U (RSeq RBol (RSeq (RAtom (AChar x)) r)) (c :: t) = None.
Proof.
  intros H. unfold match_compiled.
  cbn [rmatch m_pre m_suf flat_map atom_ok app]. rewrite H. reflexivity.
Qed.

Lemma control_free_head (c : N) :
  mem c CONTROL = false ->
  (c =? ch "$")%N = false /\ (c =? ch "(")%N = false
  /\ (c =? ch ")")%N = false /\ (c =? ch "[")%N = false
  /\ (c =? ch "]")%N = false.
Proof.
  unfold mem, CONTROL. cbn [existsb]. intros H.
  repeat (apply orb_false_iff in H; destruct H as [?H H]). auto.
Qed.

Lemma not_doubled (c : N) (tail : str) :
  mem c CONTROL = false -> str_mem (firstn 2 (c :: tail)) DOUBLED = false.
Proof.
  intros H. destruct (control_free_head c H) as (H1 & H2 & H3 & H4 & H5).
  unfold str_mem, DOUBLED.
  change (u "$$") with [ch "$"; ch "$"]. change (u "((") with [ch "("; ch "("].
  change (u "))") with [ch ")"; ch ")"]. change (u "[[") with [ch "["; ch "["].
  change (u "]]") with [ch "]"; ch "]"].
  destruct tail as [|x tail]; cbn [firstn existsb str_eqb];
    rewrite H1, H2, H3, H4, H5; reflexivity.
Qed.

(** A round that starts on a character that is no control character is a
    search at the default priority. *)
Lemma loop_plain_round (U : Unicode) (S : Shape)
    (search : str -> Z -> result (bool * option (list (tok S)) * str))
    (f : nat) (c : N) (tail : str) :
  mem c CONTROL = false ->
  line_to_tokens_loop U S search (Datatypes.S f) (c :: tail)
  = search_round U S search f (c :: tail) 0.
Proof.
  intros H. destruct (control_free_head c H) as (H1 & H2 & H3 & H4 & H5).
  cbn [line_to_tokens_loop]. fold DOUBLED.
  rewrite (not_doubled c tail H).
  unfold PATTERNS_custom, PATTERNS_priority.
  rewrite (anchored_literal_miss U _ _ c tail H2).
  rewrite (anchored_literal_miss U _ _ c tail H4).
  rewrite H1. reflexivity.
Qed.

Lemma spelling_app (S : Shape) (a b : list (tok S)) :
  spelling S (a ++ b) = spelling S a ++ spelling S b.
Proof. unfold spelling. rewrite map_app, concat_app. reflexivity. Qed.

Lemma plain_line_app (a b : str) :
  plain_line (a ++ b) = true -> plain_line b = true.
Proof.
  unfold plain_line. rewrite forallb_app. intros H.
  apply andb_true_iff in H. tauto.
Qed.

(** The loop on a line without control characters, for any shape whose
    pass-through token spells its character. *)
Lemma loop_spells_line (U : Unicode) (S : Shape)
    (search : str -> Z -> result (bool * option (list (tok S)) * str)) :
  (forall s, tok_jp S (plain S s) = s) ->
  faithful_search S search ->
  forall n line fuel,
    length line <= n -> length line < fuel -> plain_line line = true ->
    exists tokens,
      line_to_tokens_loop U S search fuel line = Ok tokens
      /\ spelling S tokens = line.
Proof.
  intros Hplain Hf. induction n as [|n IH]; intros line fuel Hn Hfuel Hc.
  - destruct line; [|simpl in Hn; lia]. destruct fuel; [lia|].
    exists []. split; reflexivity.
  - destruct line as [|c tail].
    { destruct fuel; [lia|]. exists []. split; reflexivity. }
    destruct fuel as [|f]; [lia|]. cbn [length] in Hn, Hfuel.
    pose proof Hc as Hc'. unfold plain_line in Hc'. cbn [forallb] in Hc'.
    apply andb_true_iff in Hc'. destruct Hc' as [Hhead Htail].
    apply andb_true_iff in Hhead. destruct Hhead as [Hhead _].
    apply negb_true_iff in Hhead.
    rewrite (loop_plain_round U S search f c tail Hhead).
    unfold search_round.
    destruct (Hf c tail Hc) as (found & new_tokens & rest & E & P).
    rewrite E. cbn [bind]. destruct found.
    + destruct P as [Psp Plen].
      assert (Hrest : plain_line rest = true)
        by (apply (plain_line_app (spelling S (tokens_of new_tokens)));
            rewrite Psp; exact Hc).
      destruct (IH rest f) as (more & Em & Sm); [lia | lia | exact Hrest|].
      rewrite Em. cbn [bind]. eexists. split; [reflexivity|].
      rewrite spelling_app, Sm. exact Psp.
    + subst rest.
      destruct (IH tail f) as (more & Em & Sm); [lia | lia | exact Htail|].
      rewrite Em. cbn [bind]. eexists. split; [reflexivity|].
      unfold spelling in *. cbn [map concat]. rewrite Hplain, Sm. reflexivity.
Qed.

(** Where the round trip holds.  For a line that holds none of the control
    characters [$ ( ) [ ]] (and no line break), in each of the three
    shapes: when the searches of the dictionary return and their hits
    spell the text they consume, the tokenizer returns and the spelling
    fields of its tokens, concatenated in order, are the line. *)
Lemma faithful_searches_spell_line (U : Unicode) (S : Shape)
    (d : Dictionary) (line : str) :
  In S [shape0 U; shape1 U; shape2 U] ->
  faithful_search S (search_to_token U S d) ->
  plain_line line = true ->
  exists tokens,
    line_to_tokens U S d line = Ok tokens /\ spelling S tokens = line.
Proof.
  intros HS Hf Hc. unfold line_to_tokens.
  apply (loop_spells_line U S _) with (n := length line); auto.
  destruct HS as [<- | [<- | [<- | []]]]; reflexivity.
Qed.

(** With the empty dictionary every character passes through. *)
Example empty_dictionary_spells_line :
  exists tokens,
    line_to_tokens ucd (shape0 ucd) empty_dictionary (u "東京へ行く") = Ok tokens
    /\ spelling (shape0 ucd) tokens = u "東京へ行く".
Proof.
  apply (faithful_searches_spell_line ucd (shape0 ucd) empty_dictionary
           (u "東京へ行く")).
  - left. reflexivity.
  - intros c l _. exists false, None, (c :: l). split; reflexivity.
  - vm_compute. reflexivity.
Qed.

(** The control syntax is consumed: the two markers of a [$]-span belong
    to no token. *)
Example span_markers_are_consumed :
  line_to_tokens0 ucd empty_dictionary (u "$歌$")
  = Ok [mkToken0 (u "歌")]
  /\ spelling (shape0 ucd) [mkToken0 (u "歌")] <> u "$歌$".
Proof.
  split; [vm_compute; reflexivity | vm_compute; discriminate].
Qed.

(** C2, evaluated where it fails.  The lines 345 and 東京 hold no control
    character, and the dictionary holds the valid nouns 3.5 and 東. (the
    point is in the character set of a spelling).  The template of a noun
    is built from its spelling without escaping, so the point stands for
    any character: 3.5 is found in 345 and 東. in 東京, and the token
    carries the spelling of the entry, not the text that was matched.  The
    spelling fields of the tokens are 3.5 and 東., not the lines; in the
    three shapes. *)
Theorem tokens_misspell_line_on_dotted_entry :
  let d := Dictionary_init [(0%Z, three_point_five); (1%Z, higashi)] in
  plain_line (u "345") = true /\ plain_line (u "東京") = true
  /\ (exists t,
        new_Term ucd (u "3.5") (u "さんてんご") (u "0") (u "0") MEISHI 0 = Ok t
        /\ re_pattern ucd t = Ok (u "^(3.5)(.*)$"))
  /\ line_to_tokens0 ucd d (u "345")
     = Ok [ {| jp0 := u "3.5"; kana0 := Some (u "さんてんご");
               alignment := 0 |} ]
  /\ line_to_tokens1 ucd d (u "345")
     = Ok [ {| jp1 := u "3.5"; up_kana := Some (u "さんてんご");
               down_kana := None |} ]
  /\ line_to_tokens2 ucd d (u "345")
     = Ok [ {| jp2 := u "3.5"; kana2 := Some (u "さんてんご");
               is_skip := false |} ]
  /\ line_to_tokens0 ucd d (u "東京")
     = Ok [ {| jp0 := u "東."; kana0 := Some (u "ひがし"); alignment := 0 |} ]
  /\ line_to_tokens1 ucd d (u "東京")
     = Ok [ {| jp1 := u "東."; up_kana := Some (u "ひがし");
               down_kana := None |} ]
  /\ line_to_tokens2 ucd d (u "東京")
     = Ok [ {| jp2 := u "東."; kana2 := Some (u "ひがし");
               is_skip := false |} ]
  /\ u "3.5" <> u "345" /\ u "東." <> u "東京".
Proof.
  cbv zeta.
  split; [vm_compute; reflexivity|].
  split; [vm_compute; reflexivity|].
  split.
  { eexists. split; vm_compute; reflexivity. }
  split; [vm_compute; reflexivity|].
  split; [vm_compute; reflexivity|].
  split; [vm_compute; reflexivity|].
  split; [vm_compute; reflexivity|].
  split; [vm_compute; reflexivity|].
  split; [vm_compute; reflexivity|].
  split; vm_compute; discriminate.
Qed.

(* ------------------------------------------------------------------------- *)
(** ** Searches that spell what they consume *)

Lemma mapM_add_keys (U : Unicode) (l : list (Z * row)) :
  exists keyed,
    mapM (fun lr => add_keys U (snd lr)) l = Ok keyed
    /\ forall x, In x keyed -> In (fst (fst x)) (map snd l).
Proof.
  induction l as [|[label r] l (keyed & E & H)]; cbn [mapM].
  - exists []. split; [reflexivity | intros x []].
  - unfold add_keys at 1. cbn [snd].
    destruct (remove_gobi_total U (Japanese r)) as [g ->]. cbn [bind].
    rewrite E. cbn [bind]. eexists. split; [reflexivity|].
    intros x [<- | Hx]; cbn [map snd fst]; [left; reflexivity|].
    right. exact (H x Hx).
Qed.

Lemma sort_insert_In (x y : keyed) (l : list keyed) :
  In y (sort_insert x l) -> y = x \/ In y l.
Proof.
  induction l as [|z l IH]; cbn [sort_insert].
  - intros [<- | []]. left. reflexivity.
  - destruct (sorts_before z x).
    + intros [<- | H]; [right; left; reflexivity|].
      destruct (IH H) as [-> | H']; [left; reflexivity | right; right; exact H'].
    + intros [<- | H]; [left; reflexivity | right; exact H].
Qed.

Lemma sort_values_In (y : keyed) (l : list keyed) :
  In y (sort_values l) -> In y l.
Proof.
  induction l as [|x l IH]; cbn [sort_values fold_right]; [intros []|].
  intros H. destruct (sort_insert_In _ _ _ H) as [-> | H'];
    [left; reflexivity | right; exact (IH H')].
Qed.

Lemma search_rows_faithful (U : Unicode) (S : Shape) (line : str)
    (rows : list keyed) :
  plain_line line = true -> line <> [] ->
  (forall x, In x rows -> faithful_row U S (fst (fst x))) ->
  exists found new_tokens rest,
    search_rows U S rows line = Ok (found, new_tokens, rest)
    /\ if found
       then spelling S (tokens_of new_tokens) ++ rest = line
            /\ length rest < length line
       else rest = line.
Proof.
  intros Hp Hne. induction rows as [|[[r a] b] rows IH]; intros Hrows.
  - exists false, None, line. split; reflexivity.
  - cbn [search_rows].
    destruct (Hrows _ (or_introl eq_refl) line Hp Hne)
      as (term & pattern & res & E1 & E2 & E3 & P).
    cbn [fst] in E1. rewrite E1. cbn [bind]. rewrite E2. cbn [bind].
    rewrite E3. cbn [bind]. destruct res as [m|].
    + destruct P as (g1 & g2 & tokens & G1 & G2 & T & Sp & L).
      rewrite G1. cbn [bind]. rewrite T. cbn [bind]. rewrite G2. cbn [bind].
      exists true, (Some tokens), g2. split; [reflexivity|]. split; assumption.
    + apply IH. intros x Hx. apply Hrows. right. exact Hx.
Qed.

(** A dictionary of faithful rows gives faithful searches. *)
Lemma faithful_rows_search (U : Unicode) (S : Shape) (d : Dictionary) :
  (forall lr, In lr (dic d) -> faithful_row U S (snd lr)) ->
  faithful_search S (search_to_token U S d).
Proof.
  intros Hd c l Hp. unfold search_to_token.
  destruct (mapM_add_keys U
              (filter (fun lr =>
                         startswith (lower U (Japanese (snd lr))) (lower U [c])
                         && (Priority (snd lr) =? 0)%Z) (dic d)))
    as (keyed & E & Hk).
  rewrite E. cbn [bind].
  destruct (search_rows_faithful U S (c :: l) (sort_values keyed) Hp)
    as (found & new_tokens & rest & Es & P).
  - discriminate.
  - intros x Hx. apply sort_values_In in Hx. apply Hk in Hx.
    apply in_map_iff in Hx. destruct Hx as (lr & <- & Hlr).
    apply filter_In in Hlr. apply Hd. tauto.
  - exists found, new_tokens, rest. split; [exact Es|].
    destruct found; [|exact P]. destruct P as [P1 P2]. split; [exact P1|].
    cbn [length] in P2. lia.
Qed.

(** *** Templates of a literal spelling *)

Lemma startswith_split (s p : str) :
  startswith s p = true -> p ++ skipn (length p) s = s.
Proof.
  revert s; induction p as [|x p IH]; intros [|y s]; cbn [startswith];
    try reflexivity; try discriminate.
  intros H. apply andb_true_iff in H. destruct H as [E H].
  apply N.eqb_eq in E. subst y. cbn [length skipn app]. rewrite (IH s H).
  reflexivity.
Qed.

Lemma rmatch_literal (U : Unicode) (lit : str) :
  forall st,
    rmatch U (literal lit) st
    = if startswith (m_suf st) lit
      then [{| m_pre := rev lit ++ m_pre st;
               m_suf := skipn (length lit) (m_suf st);
               m_caps := m_caps st |}]
      else [].
Proof.
  induction lit as [|c t IH]; intros [pre suf caps]; cbn [literal rmatch].
  - destruct suf; reflexivity.
  - cbn [m_suf m_pre m_caps]. destruct suf as [|x s']; [reflexivity|].
    cbn [atom_ok startswith]. rewrite (N.eqb_sym c x).
    destruct (N.eqb_spec x c) as [-> | _]; [|reflexivity].
    cbn [flat_map andb]. rewrite IH, app_nil_r. cbn [m_suf m_pre m_caps].
    destruct (startswith s' t); [|reflexivity].
    cbn [rev length skipn]. rewrite <- app_assoc. reflexivity.
Qed.

(** Backtracking over [.*] from the longest: only the end of the text
    passes a test that rejects every text ahead that is not empty. *)
Lemma greedy_any_to_end (U : Unicode) {A} (G : str * str -> list A)
    (suf : str) :
  (forall p c s, (c =? 10)%N = false -> G (p, c :: s) = []) ->
  no_line_break suf = true ->
  forall pre,
    flat_map G (rev (rep_all U AAny pre suf)) = G (rev suf ++ pre, []).
Proof.
  intros HG. induction suf as [|c t IH]; intros Hn pre.
  - cbn [rep_all rev app flat_map]. apply app_nil_r.
  - cbn [no_line_break forallb] in Hn. apply andb_true_iff in Hn.
    destruct Hn as [Hc Ht]. apply negb_true_iff in Hc.
    cbn [rep_all atom_ok]. rewrite Hc. cbn [negb rev].
    rewrite flat_map_app.
    change (flat_map G [(pre, c :: t)]) with (G (pre, c :: t) ++ []).
    rewrite (HG pre c t Hc), !app_nil_r, (IH Ht (c :: pre)).
    rewrite <- app_assoc. reflexivity.
Qed.

Lemma flat_map_unit {A} (l : list A) : flat_map (fun x => [x]) l = l.
Proof. induction l as [|x l IH]; simpl; [|rewrite IH]; reflexivity. Qed.

Lemma flat_map_of_map {A B C} (f : B -> list C) (g : A -> B) (l : list A) :
  flat_map f (map g l) = flat_map (fun x => f (g x)) l.
Proof. induction l as [|x l IH]; simpl; [|rewrite IH]; reflexivity. Qed.

Lemma rmatch_REST (U : Unicode) (st : mstate) :
  no_line_break (m_suf st) = true ->
  rmatch U REST st
  = [{| m_pre := rev (m_suf st) ++ m_pre st; m_suf := [];
        m_caps := (2, m_suf st) :: m_caps st |}].
Proof.
  intros Hn. destruct st as [pre suf caps]. cbn [m_pre m_suf m_caps] in *.
  unfold REST. cbn [rmatch m_pre m_suf m_caps skipn].
  rewrite flat_map_unit, !flat_map_of_map.
  rewrite (greedy_any_to_end U _ suf); [| |exact Hn].
  - cbn [fst snd flat_map map m_pre m_suf m_caps app].
    rewrite length_app, length_rev, Nat.add_sub.
    rewrite <- (length_rev suf) at 1.
    rewrite firstn_app, Nat.sub_diag, firstn_all. cbn [firstn].
    rewrite app_nil_r, rev_involutive. reflexivity.
  - intros p c s Hc. cbn [fst snd flat_map map m_pre m_suf m_caps app].
    destruct s; [rewrite Hc|]; reflexivity.
Qed.

Lemma plain_line_no_line_break (s : str) :
  plain_line s = true -> no_line_break s = true.
Proof.
  unfold plain_line, no_line_break. rewrite !forallb_forall.
  intros H x Hx. specialize (H x Hx). apply andb_true_iff in H. tauto.
Qed.

Lemma no_line_break_skipn (n : nat) (s : str) :
  no_line_break s = true -> no_line_break (skipn n s) = true.
Proof.
  unfold no_line_break. intros H. rewrite <- (firstn_skipn n s) in H.
  rewrite forallb_app in H. apply andb_true_iff in H. tauto.
Qed.

Lemma startswith_length (s p : str) :
  startswith s p = true -> length p <= length s.
Proof.
  revert s; induction p as [|x p IH]; intros [|y s]; cbn [startswith length];
    try lia; try discriminate.
  intros H. apply andb_true_iff in H. destruct H as [_ H].
  specialize (IH s H). lia.
Qed.

(** The match of a literal template on a text without line break. *)
Lemma literal_pattern_match (U : Unicode) (lit line : str) :
  no_line_break line = true ->
  match_compiled U (literal_pattern lit) line
  = if startswith line lit
    then Some {| m_pre := rev (skipn (length lit) line) ++ rev lit;
                 m_suf := [];
                 m_caps := [(2, skipn (length lit) line); (1, lit)] |}
    else None.
Proof.
  intros Hn. unfold match_compiled, literal_pattern.
  cbn [rmatch m_pre m_suf m_caps flat_map]. rewrite app_nil_r.
  rewrite rmatch_literal. cbn [m_pre m_suf m_caps].
  destruct (startswith line lit); [|reflexivity].
  cbn [map flat_map m_pre m_suf m_caps]. rewrite app_nil_r.
  rewrite rmatch_REST by (apply no_line_break_skipn; exact Hn).
  cbn [m_pre m_suf m_caps hd_error length]. rewrite !app_nil_r, Nat.sub_0_r.
  rewrite firstn_all, rev_involutive. reflexivity.
Qed.

(** A row whose template is that of a literal spelling is faithful, when
    its own decomposition spells that literal. *)
Lemma literal_row_faithful (U : Unicode) (S : Shape) (r : row) (term : Term)
    (pattern lit : str) (tokens : list (tok S)) :
  new_Term U (Japanese r) (Kana r) (Division0 r) (Division1 r) (Type_ r)
           (Priority r) = Ok term ->
  re_pattern U term = Ok pattern ->
  re_compile pattern = Ok (literal_pattern lit) ->
  lit <> [] ->
  to_token S term lit = Ok tokens ->
  spelling S tokens = lit ->
  faithful_row U S r.
Proof.
  intros E1 E2 E3 Hlit E4 E5 line Hp Hne.
  exists term, pattern, (match_compiled U (literal_pattern lit) line).
  split; [exact E1|]. split; [exact E2|]. split.
  { unfold re_match. rewrite E3. reflexivity. }
  rewrite (literal_pattern_match U lit line (plain_line_no_line_break _ Hp)).
  destruct (startswith line lit) eqn:Es; [|exact I].
  exists lit, (skipn (length lit) line), tokens.
  split; [reflexivity|]. split; [reflexivity|]. split; [exact E4|].
  split; [rewrite E5; exact (startswith_split _ _ Es)|].
  rewrite length_skipn. pose proof (startswith_length _ _ Es).
  destruct lit; [congruence|]. destruct line; [congruence|].
  cbn [length] in *. lia.
Qed.

(** The hypothesis of the round trip holds of a dictionary of nouns, in the
    three shapes. *)
Lemma travel_dictionary_faithful (S : Shape) :
  In S [shape0 ucd; shape1 ucd; shape2 ucd] ->
  faithful_search S (search_to_token ucd S travel_dictionary).
Proof.
  intros HS. apply faithful_rows_search. intros lr Hlr.
  destruct HS as [<- | [<- | [<- | []]]];
    destruct Hlr as [<- | [<- | [<- | []]]];
    first
      [ solve [ eapply literal_row_faithful with (lit := u "東京");
                [ vm_compute; reflexivity | vm_compute; reflexivity
                | vm_compute; reflexivity | vm_compute; discriminate
                | vm_compute; reflexivity | vm_compute; reflexivity ] ]
      | solve [ eapply literal_row_faithful with (lit := u "京都");
                [ vm_compute; reflexivity | vm_compute; reflexivity
                | vm_compute; reflexivity | vm_compute; discriminate
                | vm_compute; reflexivity | vm_compute; reflexivity ] ] ].
Qed.

Example travel_line_tokens :
  option_map (spelling (shape0 ucd))
    match line_to_tokens0 ucd travel_dictionary (u "東京と京都") with
    | Ok tokens => Some tokens
    | Raise _ => None
    end = Some (u "東京と京都")
  /\ line_to_tokens2 ucd travel_dictionary (u "京都")
     = Ok [ {| jp2 := u "京都"; kana2 := Some (u "きょうと");
               is_skip := false |} ].
Proof. split; vm_compute; reflexivity. Qed.

(* ========================================================================= *)
(** * Further properties *)

(* ------------------------------------------------------------------------- *)
(** ** Separators and escapes *)

Lemma div_match (U : Unicode) (c : N) (pre : str) (x : N) (t : str) :
  In c SEPARATORS ->
  hd_error (rmatch U (PATTERNS_div c)
              {| m_pre := pre; m_suf := x :: t; m_caps := [] |})
  = if bare c (hd 0%N pre, x)
    then Some {| m_pre := x :: pre; m_suf := t; m_caps := [] |}
    else None.
Proof.
  intros Hc. unfold bare; simpl fst; simpl snd.
  assert (E : PATTERNS_div c
              = RSeq (RNotBehind (AChar (ch "$"))) (RSeq (RAtom (AChar c)) REmpty)).
  { destruct Hc as [<- | [<- | [<- | []]]]; reflexivity. }
  rewrite E. clear E Hc.
  destruct pre as [|p pre]; cbn [hd].
  - change (0 =? ch "$")%N with false. cbn [negb]. rewrite andb_true_r.
    cbn. destruct (x =? c)%N; reflexivity.
  - cbn. destruct (p =? 36)%N; cbn.
    + rewrite andb_false_r. reflexivity.
    + rewrite andb_true_r. destruct (x =? c)%N; reflexivity.
Qed.

Lemma scan_round (U : Unicode) (c : N) (pre : str) (x : N) (t cur : str) :
  In c SEPARATORS ->
  re_scan U (PATTERNS_div c) 0 pre (x :: t) cur
  = if bare c (hd 0%N pre, x)
    then rev cur :: re_scan U (PATTERNS_div c) 0 (x :: pre) t []
    else re_scan U (PATTERNS_div c) 0 (x :: pre) t (x :: cur).
Proof.
  intros Hc. cbn [re_scan]. rewrite (div_match U c pre x t Hc).
  destruct (bare c (hd 0%N pre, x)); [|reflexivity].
  cbn [m_pre length]. replace (S (length pre) - length pre) with 1 by lia.
  reflexivity.
Qed.

Lemma re_scan_not_nil (U : Unicode) (r : regex) (suf : str) :
  forall skip pre cur, re_scan U r skip pre suf cur <> [].
Proof.
  induction suf as [|x t IH]; intros skip pre cur; cbn [re_scan].
  - discriminate.
  - destruct skip; [|apply IH].
    destruct (hd_error _); [destruct (_ - _)|]; try apply IH; discriminate.
Qed.

Lemma join_cons (sep h : str) (l : list str) :
  l <> [] -> join sep (h :: l) = h ++ sep ++ join sep l.
Proof. destruct l; [congruence | reflexivity]. Qed.

Lemma join_scan (U : Unicode) (c : N) (suf : str) :
  In c SEPARATORS -> forall pre cur,
  join [c] (re_scan U (PATTERNS_div c) 0 pre suf cur) = rev cur ++ suf.
Proof.
  intros Hc. induction suf as [|x t IH]; intros pre cur.
  - cbn. rewrite app_nil_r. reflexivity.
  - rewrite scan_round by assumption.
    destruct (bare c (hd 0%N pre, x)) eqn:B.
    + unfold bare in B. apply andb_true_iff in B. destruct B as [B _].
      apply N.eqb_eq in B. cbn [snd] in B. subst x.
      rewrite join_cons by apply re_scan_not_nil.
      rewrite IH. reflexivity.
    + rewrite IH. cbn [rev]. rewrite <- app_assoc. reflexivity.
Qed.

Lemma concat_scan (U : Unicode) (c : N) (suf : str) :
  In c SEPARATORS -> forall pre cur,
  concat (re_scan U (PATTERNS_div c) 0 pre suf cur)
  = rev cur
    ++ map snd (filter (fun px => negb (bare c px))
                       (combine (hd 0%N pre :: suf) suf)).
Proof.
  intros Hc. induction suf as [|x t IH]; intros pre cur.
  - cbn. rewrite !app_nil_r. reflexivity.
  - rewrite scan_round by assumption.
    cbn [combine filter].
    destruct (bare c (hd 0%N pre, x)) eqn:B; cbn [negb concat].
    + rewrite IH. reflexivity.
    + rewrite IH. cbn [rev map hd]. rewrite <- app_assoc. reflexivity.
Qed.

Lemma split_on_cons (c : N) (s : str) :
  exists h l, split_on c s = h :: l.
Proof.
  destruct (split_on_length c s) as [n L].
  destruct (split_on c s) as [|h l]; [discriminate | eauto].
Qed.

Lemma scan_no_dollar (U : Unicode) (c : N) (suf : str) :
  In c SEPARATORS -> no_dollar suf = true -> forall pre cur,
  hd 0%N pre <> ch "$" ->
  re_scan U (PATTERNS_div c) 0 pre suf cur
  = match split_on c suf with
    | h :: l => (rev cur ++ h) :: l
    | [] => []
    end.
Proof.
  intros Hc. induction suf as [|x t IH]; intros Hs pre cur Hp.
  - cbn. rewrite app_nil_r. reflexivity.
  - cbn [no_dollar forallb] in Hs. apply andb_true_iff in Hs.
    destruct Hs as [Hx Ht]. fold (no_dollar t) in Ht.
    apply negb_true_iff, N.eqb_neq in Hx.
    rewrite scan_round by assumption. unfold bare. cbn [fst snd].
    apply N.eqb_neq in Hp. rewrite Hp. cbn [negb]. rewrite andb_true_r.
    cbn [split_on].
    destruct (split_on_cons c t) as (h & l & E).
    destruct (x =? c)%N.
    + rewrite (IH Ht) by (cbn [hd]; assumption). rewrite E.
      rewrite app_nil_r. reflexivity.
    + rewrite (IH Ht) by (cbn [hd]; assumption). rewrite E.
      cbn [rev]. rewrite <- app_assoc. reflexivity.
Qed.

(** X1. [div_remove] deletes exactly the occurrences of the separator that
    no [$] precedes: every other character, an escaped separator included,
    stays in its place. *)
Theorem div_remove_keeps_escaped (U : Unicode) (s : str) (c : N) :
  In c SEPARATORS ->
  div_remove U s c
  = map snd (filter (fun px => negb (bare c px)) (with_previous s)).
Proof.
  intros Hc. unfold div_remove, re_sub_empty, re_split.
  rewrite concat_scan by assumption. reflexivity.
Qed.

Lemma div_remove_keeps_escaped_witness :
  div_remove ucd (u "a/b$/c") (ch "/") = u "ab$/c".
Proof.
  rewrite (div_remove_keeps_escaped ucd (u "a/b$/c") (ch "/"));
    [reflexivity | simpl; auto].
Defined.

Lemma div_split_no_dollar (U : Unicode) (s : str) (c : N) :
  In c SEPARATORS -> no_dollar s = true -> div_split U s c = split_on c s.
Proof.
  intros Hc Hs. unfold div_split, re_split.
  rewrite scan_no_dollar; try assumption.
  - destruct (split_on c s); reflexivity.
  - cbn. discriminate.
Qed.

(** X2. [div_split] loses nothing: joining its pieces with the separator
    gives the text back, their concatenation is what [div_remove] returns,
    and on a text without [$] it is the plain split at the separator. *)
Theorem div_split_join (U : Unicode) (s : str) (c : N) :
  In c SEPARATORS ->
  join [c] (div_split U s c) = s
  /\ concat (div_split U s c) = div_remove U s c
  /\ (no_dollar s = true -> div_split U s c = split_on c s).
Proof.
  intros Hc. split; [|split].
  - unfold div_split, re_split. rewrite join_scan by assumption. reflexivity.
  - reflexivity.
  - intros Hs. apply div_split_no_dollar; assumption.
Qed.

Lemma div_split_join_witness :
  join (u "/") (div_split ucd (u "東/京$/都") (ch "/")) = u "東/京$/都"
  /\ concat (div_split ucd (u "東/京$/都") (ch "/"))
     = div_remove ucd (u "東/京$/都") (ch "/")
  /\ (no_dollar (u "東/京$/都") = true ->
      div_split ucd (u "東/京$/都") (ch "/") = split_on (ch "/") (u "東/京$/都")).
Proof.
  apply (div_split_join ucd (u "東/京$/都") (ch "/")). simpl; auto.
Defined.

(** *** remove_seps *)

Lemma remove_char_concat_split (c : N) (s : str) :
  concat (split_on c s) = remove_char c s.
Proof.
  induction s as [|x t IH]; [reflexivity|].
  cbn [split_on remove_char filter]. fold (remove_char c t).
  destruct (split_on_cons c t) as (h & l & E).
  destruct (x =? c)%N; cbn [negb].
  - cbn [concat app]. exact IH.
  - rewrite E in *. cbn [concat app] in *. rewrite IH. reflexivity.
Qed.

Lemma div_remove_no_dollar (U : Unicode) (s : str) (c : N) :
  In c SEPARATORS -> no_dollar s = true ->
  div_remove U s c = remove_char c s.
Proof.
  intros Hc Hs. change (div_remove U s c) with (concat (div_split U s c)).
  rewrite (div_split_no_dollar U s c Hc Hs). apply remove_char_concat_split.
Qed.

Lemma no_dollar_filter (f : N -> bool) (s : str) :
  no_dollar s = true -> no_dollar (filter f s) = true.
Proof.
  unfold no_dollar. rewrite !forallb_forall. intros H x Hx.
  apply filter_In in Hx. apply H, Hx.
Qed.

Lemma replace_no_dollar (c : N) (s : str) :
  no_dollar s = true -> replace [ch "$"; c] [c] s = s.
Proof.
  unfold replace. induction s as [|x t IH]; intros Hs; [reflexivity|].
  cbn [no_dollar forallb] in Hs. apply andb_true_iff in Hs.
  destruct Hs as [Hx Ht]. fold (no_dollar t) in Ht.
  apply negb_true_iff in Hx.
  cbn [replace_skip startswith].
  rewrite N.eqb_sym, Hx. cbn [andb]. rewrite (IH Ht). reflexivity.
Qed.

Lemma remove_seps_filter (U : Unicode) (t : str) :
  no_dollar t = true ->
  remove_seps U t = filter (fun x => negb (is_separator x)) t.
Proof.
  intros Ht. unfold remove_seps. cbn [fold_left].
  assert (S1 : In (ch "/") SEPARATORS) by (simpl; auto).
  assert (S2 : In (ch "\") SEPARATORS) by (simpl; auto).
  assert (S3 : In (ch "*") SEPARATORS) by (simpl; auto).
  rewrite (div_remove_no_dollar U t (ch "/") S1 Ht). unfold remove_char.
  rewrite (div_remove_no_dollar U _ (ch "\") S2 (no_dollar_filter _ _ Ht)).
  unfold remove_char.
  rewrite (div_remove_no_dollar U _ (ch "*") S3
             (no_dollar_filter _ _ (no_dollar_filter _ _ Ht))).
  unfold remove_char.
  pose proof (no_dollar_filter (fun x => negb (x =? ch "*")%N) _
                (no_dollar_filter (fun x => negb (x =? ch "\")%N) _
                   (no_dollar_filter (fun x => negb (x =? ch "/")%N) _ Ht)))
    as Hf.
  rewrite (replace_no_dollar (ch "/") _ Hf), (replace_no_dollar (ch "\") _ Hf),
    (replace_no_dollar (ch "*") _ Hf), (replace_no_dollar (ch "$") _ Hf).
  clear Hf.
  clear Ht. induction t as [|x t IH]; [reflexivity|].
  cbn [filter]. unfold is_separator, mem, SEPARATORS. cbn [existsb].
  rewrite orb_false_r.
  destruct (x =? ch "/")%N; cbn [negb orb]; [exact IH|].
  cbn [filter].
  destruct (x =? ch "\")%N; cbn [negb orb]; [exact IH|].
  cbn [filter].
  destruct (x =? ch "*")%N; cbn [negb orb]; [exact IH|].
  rewrite IH. reflexivity.
Qed.

(** X3. On a text without [$], [remove_seps] is the text without its
    [/], [\] and [*], and removing the separators twice changes nothing
    more. *)
Theorem remove_seps_no_dollar (U : Unicode) (s : str) :
  no_dollar s = true ->
  remove_seps U s = filter (fun x => negb (is_separator x)) s
  /\ remove_seps U (remove_seps U s) = remove_seps U s.
Proof.
  intros Hs.
  split; [apply remove_seps_filter, Hs|].
  rewrite (remove_seps_filter U s Hs).
  rewrite remove_seps_filter by (apply no_dollar_filter, Hs).
  induction s as [|x t IH]; [reflexivity|].
  cbn [no_dollar forallb] in Hs. apply andb_true_iff in Hs.
  cbn [filter]. destruct (negb (is_separator x)) eqn:B.
  - cbn [filter]. rewrite B. rewrite IH by apply Hs. reflexivity.
  - apply IH, Hs.
Qed.

Lemma remove_seps_no_dollar_witness :
  remove_seps ucd (u "東/\京*都") = u "東京都".
Proof.
  destruct (remove_seps_no_dollar ucd (u "東/\京*都")) as [E _];
    [reflexivity | rewrite E; reflexivity].
Defined.

(** *** is_valid_transfer *)

(** X4. [is_valid_transfer] on a text whose only [$] comes after a part
    without one: the part alone is valid; a [$] at the very end is not;
    a [$] followed by one last character is valid exactly when that
    character is one of [/], [\], [*], [$]; and after a valid pair the next
    character is skipped unread, so validity is that of what follows it. *)
Theorem is_valid_transfer_dollar (s : str) :
  no_dollar s = true ->
  is_valid_transfer s = true
  /\ is_valid_transfer (s ++ [ch "$"]) = false
  /\ (forall c, is_valid_transfer (s ++ [ch "$"; c]) = mem c ESCAPABLE)
  /\ (forall c x t, mem c ESCAPABLE = true ->
        is_valid_transfer (s ++ ch "$" :: c :: x :: t) = is_valid_transfer t).
Proof.
  induction s as [|y s IH]; intros Hs.
  - repeat split.
    + intros c. cbn [app is_valid_transfer].
      change (ch "$" =? ch "$")%N with true. cbv iota.
      unfold ESCAPABLE. destruct (mem c [ch "/"; ch "\"; ch "*"; ch "$"]);
        reflexivity.
    + intros c x t Hc. cbn [app is_valid_transfer].
      change (ch "$" =? ch "$")%N with true. cbv iota.
      unfold ESCAPABLE in Hc. rewrite Hc. reflexivity.
  - cbn [no_dollar forallb] in Hs. apply andb_true_iff in Hs.
    destruct Hs as [Hy Hs]. apply negb_true_iff in Hy.
    destruct (IH Hs) as (A & B & C & D).
    cbn [app is_valid_transfer]. rewrite Hy. repeat split; assumption.
Qed.

Lemma is_valid_transfer_dollar_witness :
  is_valid_transfer (u "東/京") = true
  /\ is_valid_transfer (u "東/京" ++ [ch "$"]) = false
  /\ (forall c, is_valid_transfer (u "東/京" ++ [ch "$"; c]) = mem c ESCAPABLE)
  /\ (forall c x t, mem c ESCAPABLE = true ->
        is_valid_transfer (u "東/京" ++ ch "$" :: c :: x :: t)
        = is_valid_transfer t).
Proof. apply (is_valid_transfer_dollar (u "東/京")). reflexivity. Defined.

(* ------------------------------------------------------------------------- *)
(** ** kahen_to_token and generate_insertions *)

(** *** kahen_to_token *)

Lemma kahen_search_first (origin_str : str) (d : list (str * str)) :
  match kahen_search d origin_str with
  | Ok s =>
    exists before key value after,
      d = before ++ (key, value) :: after
      /\ Forall (fun kv => startswith origin_str (fst kv) = false) before
      /\ startswith origin_str key = true
      /\ s = ([u "来"; skipn 1 key], [firstn 1 value; skipn 1 value],
              [u "0"; u "-1"], skipn (length key) origin_str)
  | Raise e =>
    e = ValueError
    /\ forall kv, In kv d -> startswith origin_str (fst kv) = false
  end.
Proof.
  induction d as [|[key value] d IH]; cbn [kahen_search].
  - split; [reflexivity | intros kv []].
  - destruct (startswith origin_str key) eqn:E.
    + exists [], key, value, d. repeat split; [constructor | exact E].
    + destruct (kahen_search d origin_str) as [s|e].
      * destruct IH as (before & k & v & after & -> & F & Hs & ->).
        exists ((key, value) :: before), k, v, after.
        repeat split; [constructor; assumption | exact Hs].
      * destruct IH as [A B]. split; [assumption|].
        intros kv [<- | H]; [exact E | apply B, H].
Qed.

Lemma cut_first (x : str) : concat [firstn 1 x; skipn 1 x] = x.
Proof. cbn [concat]. rewrite app_nil_r. apply firstn_skipn. Qed.

(** X5. [kahen_to_token] takes the first form of the irregular verb in
    its table that starts the text: it returns the form cut after its
    first character, 来 and the rest, the reading of that form cut after
    its first character too, the division codes [0] and [-1], and the text
    left after the form; or it raises ValueError, and then no form of the
    table starts the text. *)
Theorem kahen_to_token_outcome (t : Term) (origin_str : str) (div_type : nat) :
  match kahen_to_token t origin_str div_type with
  | Ok (jp_list, kana_list, div_list, leftover) =>
    (exists before key value after,
        kahen_dic = before ++ (key, value) :: after
        /\ Forall (fun kv => startswith origin_str (fst kv) = false) before
        /\ origin_str = key ++ leftover
        /\ jp_list = [u "来"; skipn 1 key]
        /\ kana_list = [firstn 1 value; skipn 1 value]
        /\ length (firstn 1 value) = 1)
    /\ concat jp_list ++ leftover = origin_str
    /\ div_list = [u "0"; u "-1"]
    /\ length jp_list = 2 /\ length kana_list = 2
    /\ hd [] jp_list = u "来"
    /\ In (concat jp_list, concat kana_list) kahen_dic
  | Raise e =>
    e = ValueError
    /\ forall kv, In kv kahen_dic -> startswith origin_str (fst kv) = false
  end.
Proof.
  unfold kahen_to_token.
  pose proof (kahen_search_first origin_str kahen_dic) as H.
  destruct (kahen_search kahen_dic origin_str) as [[[[jl kl] dl] left]|e];
    [|exact H].
  destruct H as (before & key & value & after & Ed & F & Hs & E).
  injection E as -> -> -> ->.
  assert (Hin : In (key, value) kahen_dic)
    by (rewrite Ed; apply in_or_app; right; left; reflexivity).
  assert (Hk : firstn 1 key = u "来" /\ length (firstn 1 value) = 1).
  { clear -Hin. unfold kahen_dic in Hin.
    repeat (destruct Hin as [Hin | Hin];
            [injection Hin as <- <-; split; reflexivity|]).
    destruct Hin. }
  destruct Hk as [Hk Hv].
  pose proof (startswith_split _ _ Hs) as Ho.
  split; [|split; [|split; [|split; [|split; [|split]]]]].
  - exists before, key, value, after. repeat split; try assumption.
    symmetry. exact Ho.
  - change (concat [u "来"; skipn 1 key] ++ skipn (length key) origin_str
            = origin_str).
    rewrite <- Hk, cut_first. exact Ho.
  - reflexivity.
  - reflexivity.
  - reflexivity.
  - reflexivity.
  - change (In (concat [u "来"; skipn 1 key],
                concat [firstn 1 value; skipn 1 value]) kahen_dic).
    rewrite <- Hk, !cut_first. exact Hin.
Qed.

(** *** generate_insertions *)

Lemma combinations_length (l : list nat) :
  forall k, length (combinations l k) = choose (length l) k.
Proof.
  induction l as [|x l IH]; intros [|k]; cbn [combinations choose length];
    try reflexivity.
  rewrite length_app, length_map, !IH. reflexivity.
Qed.

Lemma combinations_In (l : list nat) :
  forall k ind, In ind (combinations l k) ->
    length ind = k /\ incl ind l /\ k <= length l.
Proof.
  induction l as [|x l IH]; intros [|k] ind H; cbn [combinations] in H.
  - destruct H as [<- | []]. repeat split; [intros ? [] | simpl; lia].
  - destruct H.
  - destruct H as [<- | []]. repeat split; [intros ? [] | simpl; lia].
  - apply in_app_or in H. destruct H as [H | H].
    + apply in_map_iff in H. destruct H as (ind' & <- & H).
      destruct (IH _ _ H) as (A & B & C).
      repeat split; [simpl; lia | | simpl; lia].
      intros y [<- | Hy]; [left; reflexivity | right; apply B, Hy].
    + destruct (IH _ _ H) as (A & B & C).
      repeat split; [assumption | | simpl; lia].
      intros y Hy. right. apply B, Hy.
Qed.

Lemma fill_in_ext (positions : list nat) (fill : str) :
  forall ind1 ind2 origin,
  (forall p, In p positions ->
     existsb (Nat.eqb p) ind1 = existsb (Nat.eqb p) ind2) ->
  fill_in positions ind1 fill origin = fill_in positions ind2 fill origin.
Proof.
  induction positions as [|p ps IH]; intros ind1 ind2 origin H;
    cbn [fill_in]; [reflexivity|].
  rewrite <- (H p) by (left; reflexivity).
  destruct (existsb (Nat.eqb p) ind1).
  - f_equal. apply IH. intros q Hq. apply H. right. exact Hq.
  - destruct origin; [reflexivity|]. f_equal.
    apply IH. intros q Hq. apply H. right. exact Hq.
Qed.

Lemma existsb_not_In (p : nat) (ind : list nat) :
  ~ In p ind -> existsb (Nat.eqb p) ind = false.
Proof.
  intros H. destruct (existsb (Nat.eqb p) ind) eqn:E; [|reflexivity].
  apply existsb_exists in E. destruct E as (y & Hy & E).
  apply Nat.eqb_eq in E. subst. contradiction.
Qed.

Lemma fill_in_insertion (fill : str) (positions : list nat) :
  NoDup positions ->
  forall k ind origin,
  In ind (combinations positions k) ->
  length origin + k = length positions ->
  insertion fill k origin (fill_in positions ind fill origin).
Proof.
  induction positions as [|x ps IH]; intros Hnd k ind origin Hin Hlen.
  - destruct k; cbn [combinations] in Hin; [|destruct Hin].
    destruct origin; [|simpl in Hlen; lia]. constructor.
  - inversion Hnd as [|? ? Hx Hnd']; subst.
    destruct k as [|k]; cbn [combinations] in Hin.
    + destruct Hin as [<- | []]. cbn [fill_in existsb].
      destruct origin as [|y origin]; [simpl in Hlen; lia|].
      constructor. apply (IH Hnd' 0 [] origin).
      * destruct ps; left; reflexivity.
      * simpl in Hlen |- *. lia.
    + apply in_app_or in Hin. destruct Hin as [Hin | Hin].
      * apply in_map_iff in Hin. destruct Hin as (ind' & <- & Hin).
        cbn [fill_in existsb]. rewrite Nat.eqb_refl. cbn [orb].
        rewrite (fill_in_ext ps fill (x :: ind') ind').
        -- constructor. apply (IH Hnd' k ind' origin Hin).
           simpl in Hlen. lia.
        -- intros p Hp. cbn [existsb].
           destruct (Nat.eqb_spec p x) as [-> | _]; [contradiction|].
           reflexivity.
      * destruct (combinations_In _ _ _ Hin) as (A & B & C).
        cbn [fill_in]. rewrite existsb_not_In by (intros H; apply Hx, B, H).
        destruct origin as [|y origin]; [simpl in Hlen; lia|].
        constructor. apply (IH Hnd' (S k) ind origin Hin).
        simpl in Hlen |- *. lia.
Qed.

Lemma insertion_length (fill : str) (k : nat) (o r : list str) :
  insertion fill k o r -> length r = length o + k.
Proof. induction 1; simpl; lia. Qed.

(** X6. [generate_insertions] returns one list for every choice of
    [fill_count] places among [len(origin_iter) + fill_count]; each is the
    original list, in order, with [fill_count] copies of the filler put
    in. *)
Theorem generate_insertions_spec (origin_iter : list str) (fill_term : str)
    (fill_count : nat) :
  length (generate_insertions origin_iter fill_term fill_count)
  = choose (length origin_iter + fill_count) fill_count
  /\ forall r, In r (generate_insertions origin_iter fill_term fill_count) ->
       insertion fill_term fill_count origin_iter r
       /\ length r = length origin_iter + fill_count.
Proof.
  unfold generate_insertions. split.
  - rewrite length_map, combinations_length, length_seq. reflexivity.
  - intros r H. apply in_map_iff in H. destruct H as (ind & <- & H).
    assert (I : insertion fill_term fill_count origin_iter
                  (fill_in (seq 0 (length origin_iter + fill_count)) ind
                     fill_term origin_iter)).
    { apply fill_in_insertion; [apply seq_NoDup | exact H |].
      rewrite length_seq. reflexivity. }
    split; [exact I | apply (insertion_length _ _ _ _ I)].
Qed.

(* ------------------------------------------------------------------------- *)
(** ** The order of a search *)

Lemma sorts_before_spec (a b : keyed) :
  sorts_before a b = true <->
  (snd (fst b) < snd (fst a)
   \/ snd (fst a) = snd (fst b)
      /\ (snd b < snd a
          \/ snd a = snd b
             /\ (Priority (fst (fst a)) < Priority (fst (fst b)))%Z)).
Proof.
  destruct a as [[ra la] ga], b as [[rb lb] gb]. unfold sorts_before.
  cbn [fst snd].
  rewrite orb_true_iff, andb_true_iff, orb_true_iff, andb_true_iff,
    !Nat.ltb_lt, !Nat.eqb_eq, Z.ltb_lt. reflexivity.
Qed.

Lemma sorts_before_asym (a b : keyed) :
  sorts_before a b = true -> sorts_before b a = false.
Proof.
  intros H. destruct (sorts_before b a) eqn:E; [|reflexivity].
  apply sorts_before_spec in H, E. lia.
Qed.

Lemma sorts_before_negtrans (a b c : keyed) :
  sorts_before a b = false -> sorts_before b c = false ->
  sorts_before a c = false.
Proof.
  intros H1 H2. destruct (sorts_before a c) eqn:E; [|reflexivity].
  apply sorts_before_spec in E.
  assert (N1 : ~ sorts_before a b = true) by congruence.
  assert (N2 : ~ sorts_before b c = true) by congruence.
  rewrite sorts_before_spec in N1, N2. lia.
Qed.

Lemma sort_insert_sorted (x : keyed) (l : list keyed) :
  StronglySorted not_after l -> StronglySorted not_after (sort_insert x l).
Proof.
  induction 1 as [|y l Hl IH Hy]; cbn [sort_insert].
  - repeat constructor.
  - destruct (sorts_before y x) eqn:E.
    + constructor; [exact IH|].
      apply Forall_forall. intros z Hz.
      apply sort_insert_In in Hz. destruct Hz as [-> | Hz].
      * apply sorts_before_asym, E.
      * rewrite Forall_forall in Hy. apply Hy, Hz.
    + constructor; [constructor; assumption|].
      constructor; [exact E|].
      rewrite Forall_forall in Hy |- *. intros z Hz.
      unfold not_after. apply (sorts_before_negtrans z y x); [|exact E].
      apply Hy, Hz.
Qed.

Lemma sort_values_sorted (l : list keyed) :
  StronglySorted not_after (sort_values l).
Proof.
  induction l as [|x l IH]; cbn [sort_values fold_right].
  - constructor.
  - apply sort_insert_sorted, IH.
Qed.

Lemma sort_insert_perm (x : keyed) (l : list keyed) :
  Permutation (x :: l) (sort_insert x l).
Proof.
  induction l as [|y l IH]; cbn [sort_insert]; [reflexivity|].
  destruct (sorts_before y x); [|reflexivity].
  rewrite perm_swap. apply perm_skip, IH.
Qed.

Lemma sort_values_perm (l : list keyed) : Permutation l (sort_values l).
Proof.
  induction l as [|x l IH]; cbn [sort_values fold_right]; [reflexivity|].
  rewrite <- sort_insert_perm. apply perm_skip, IH.
Qed.

Lemma sorted_split (x : keyed) (before after : list keyed) :
  StronglySorted not_after (before ++ x :: after) ->
  Forall (not_after x) after.
Proof.
  induction before as [|y before IH]; cbn [app]; intros H;
    inversion H; subst; auto.
Qed.

Lemma search_rows_outcome (U : Unicode) (S : Shape) (line : str)
    (rows : list keyed) found toks rest :
  search_rows U S rows line = Ok (found, toks, rest) ->
  if found
  then exists before x after ts,
         rows = before ++ x :: after
         /\ Forall (fun y => misses U (fst (fst y)) line) before
         /\ hits U S (fst (fst x)) line ts rest
         /\ toks = Some ts
  else toks = None /\ rest = line
       /\ Forall (fun y => misses U (fst (fst y)) line) rows.
Proof.
  revert found toks rest.
  induction rows as [|[[r a] b] rows IH]; intros found toks rest H;
    cbn [search_rows] in H.
  - injection H as <- <- <-. repeat split. constructor.
  - destruct (new_Term U _ _ _ _ _ _) as [term|e] eqn:E1;
      cbn [bind] in H; [|discriminate].
    destruct (re_pattern U term) as [pattern|e] eqn:E2;
      cbn [bind] in H; [|discriminate].
    destruct (re_match U pattern line) as [[m|]|e] eqn:E3;
      cbn [bind] in H; [| |discriminate].
    + destruct (group m 1) as [g1|e] eqn:G1; cbn [bind] in H; [|discriminate].
      destruct (to_token S term g1) as [ts|e] eqn:T;
        cbn [bind] in H; [|discriminate].
      destruct (group m 2) as [g2|e] eqn:G2; cbn [bind] in H; [|discriminate].
      injection H as <- <- <-.
      exists [], (r, a, b), rows, ts. cbn [app fst].
      repeat split; [constructor|].
      exists term, pattern, m, g1. repeat split; assumption.
    + assert (M : misses U r line)
        by (exists term, pattern; repeat split; assumption).
      specialize (IH _ _ _ H). destruct found.
      * destruct IH as (before & x & after & ts & -> & F & Hh & ->).
        exists ((r, a, b) :: before), x, after, ts.
        repeat split; try assumption. constructor; assumption.
      * destruct IH as (-> & -> & F). repeat split.
        constructor; assumption.
Qed.

Lemma mapM_Forall2 {A B} (f : A -> result B) (l : list A) :
  forall l', mapM f l = Ok l' -> Forall2 (fun a b => f a = Ok b) l l'.
Proof.
  induction l as [|x l IH]; cbn [mapM]; intros l' H.
  - injection H as <-. constructor.
  - destruct (f x) as [y|e] eqn:E; cbn [bind] in H; [|discriminate].
    destruct (mapM f l) as [ys|e]; cbn [bind] in H; [|discriminate].
    injection H as <-. constructor; [exact E | apply IH; reflexivity].
Qed.

Lemma Forall2_In_l {A B} (R : A -> B -> Prop) (l : list A) (l' : list B) a :
  Forall2 R l l' -> In a l -> exists b, In b l' /\ R a b.
Proof.
  induction 1 as [|x y l l' Hxy _ IH]; intros Hin; [destruct Hin|].
  destruct Hin as [<- | Hin].
  - exists y. split; [left; reflexivity | exact Hxy].
  - destruct (IH Hin) as (b & Hb & Rb). exists b. split; [right|]; assumption.
Qed.

Lemma Forall2_In_r {A B} (R : A -> B -> Prop) (l : list A) (l' : list B) b :
  Forall2 R l l' -> In b l' -> exists a, In a l /\ R a b.
Proof.
  induction 1 as [|x y l l' Hxy _ IH]; intros Hin; [destruct Hin|].
  destruct Hin as [<- | Hin].
  - exists x. split; [left; reflexivity | exact Hxy].
  - destruct (IH Hin) as (a & Ha & Ra). exists a. split; [right|]; assumption.
Qed.

Lemma add_keys_row (U : Unicode) (r : row) (k : keyed) :
  add_keys U r = Ok k -> fst (fst k) = r.
Proof.
  unfold add_keys. destruct (remove_gobi U (Japanese r)); cbn [bind];
    [|discriminate]. intros H. injection H as <-. reflexivity.
Qed.

(** The rows the search sorts are the candidates, each with its keys. *)
Lemma search_keys (U : Unicode) (d : Dictionary) (c : N) (l : str) (p : Z)
    (keyed_rows : list keyed) :
  mapM (fun lr => add_keys U (snd lr))
       (filter (fun lr =>
                  startswith (lower U (Japanese (snd lr))) (lower U [c])
                  && (Priority (snd lr) =? p)%Z) (dic d)) = Ok keyed_rows ->
  (forall k, In k keyed_rows ->
     candidate U d (c :: l) p (fst (fst k)) /\ add_keys U (fst (fst k)) = Ok k)
  /\ (forall r k, candidate U d (c :: l) p r -> add_keys U r = Ok k ->
        In k keyed_rows).
Proof.
  intros H. apply mapM_Forall2 in H. split.
  - intros k Hk. destruct (Forall2_In_r _ _ _ k H Hk) as (lr & Hlr & E).
    rewrite (add_keys_row U _ _ E). split; [|exact E].
    apply filter_In in Hlr. destruct Hlr as [Hin Hf].
    apply andb_true_iff in Hf. destruct Hf as [Hs Hp].
    apply Z.eqb_eq in Hp.
    repeat split; [apply in_map, Hin | exact Hp | exact Hs].
  - intros r k (Hin & Hp & Hs) E.
    apply in_map_iff in Hin. destruct Hin as (lr & <- & Hin).
    destruct (Forall2_In_l _ _ _ lr H) as (k' & Hk' & E').
    + apply filter_In. split; [exact Hin|].
      cbn [firstn] in Hs. rewrite Hs. apply Z.eqb_eq in Hp. rewrite Hp.
      reflexivity.
    + cbn beta in E'. rewrite E in E'. injection E' as <-. exact Hk'.
Qed.

(** X7. A search that finds something found it in a row of the
    dictionary at the priority asked whose spelling starts, case ignored,
    with the first character of the line; the tokens and the rest are
    those of that row's template on the line; and every such row that
    sorts before it was tried and did not match. *)
Theorem search_hit (U : Unicode) (S : Shape) (d : Dictionary) (line : str)
    (p : Z) (toks : option (list (tok S))) (rest : str) :
  search_to_token U S d line p = Ok (true, toks, rest) ->
  exists r k ts,
    candidate U d line p r
    /\ add_keys U r = Ok k
    /\ toks = Some ts
    /\ hits U S r line ts rest
    /\ forall r' k',
         candidate U d line p r' -> add_keys U r' = Ok k' ->
         sorts_before k' k = true -> misses U r' line.
Proof.
  unfold search_to_token. destruct line as [|c l]; [discriminate|].
  destruct (mapM _ _) as [keyed_rows|e] eqn:E; cbn [bind]; [|discriminate].
  intros H. apply search_rows_outcome in H.
  destruct H as (before & x & after & ts & Hs & Hb & Hh & ->).
  destruct (search_keys U d c l p keyed_rows E) as [K1 K2].
  assert (Hx : In x keyed_rows).
  { apply (Permutation_in _ (Permutation_sym (sort_values_perm keyed_rows))).
    rewrite Hs. apply in_or_app. right. left. reflexivity. }
  destruct (K1 x Hx) as [Cx Ex].
  exists (fst (fst x)), x, ts.
  split; [exact Cx|]. split; [exact Ex|]. split; [reflexivity|].
  split; [exact Hh|].
  intros r' k' Cr Er Hlt.
  assert (Hk : In k' (sort_values keyed_rows)).
  { apply (Permutation_in _ (sort_values_perm keyed_rows)).
    apply (K2 r' k' Cr Er). }
  rewrite Hs in Hk. apply in_app_or in Hk.
  rewrite <- (add_keys_row U r' k' Er).
  destruct Hk as [Hk | [<- | Hk]].
  - rewrite Forall_forall in Hb. apply Hb, Hk.
  - exfalso. pose proof (sorts_before_asym _ _ Hlt). congruence.
  - exfalso. pose proof (sort_values_sorted keyed_rows) as Hsorted.
    rewrite Hs in Hsorted. apply sorted_split in Hsorted.
    rewrite Forall_forall in Hsorted. specialize (Hsorted k' Hk).
    unfold not_after in Hsorted. congruence.
Qed.

(** X8. A search that finds nothing returns no tokens and the line
    itself, and the template of every row at the priority asked whose
    spelling starts with the first character of the line was built and
    did not match. *)
Theorem search_miss (U : Unicode) (S : Shape) (d : Dictionary) (line : str)
    (p : Z) (toks : option (list (tok S))) (rest : str) :
  search_to_token U S d line p = Ok (false, toks, rest) ->
  toks = None /\ rest = line
  /\ forall r, candidate U d line p r -> misses U r line.
Proof.
  unfold search_to_token. destruct line as [|c l]; [discriminate|].
  destruct (mapM _ _) as [keyed_rows|e] eqn:E; cbn [bind]; [|discriminate].
  intros H. apply search_rows_outcome in H. destruct H as (-> & -> & F).
  split; [reflexivity|]. split; [reflexivity|]. intros r Cr.
  destruct (search_keys U d c l p keyed_rows E) as [K1 K2].
  destruct (mapM_add_keys U [(0%Z, r)]) as (ks & Ek & _).
  cbn [mapM snd] in Ek. destruct (add_keys U r) as [k|e] eqn:Er;
    cbn [bind] in Ek; [|discriminate].
  rewrite <- (add_keys_row U r k Er).
  rewrite Forall_forall in F. apply F.
  apply (Permutation_in _ (sort_values_perm keyed_rows)).
  apply (K2 r k Cr Er).
Qed.

Lemma search_hit_witness :
  exists r k ts,
    candidate ucd travel_dictionary (u "東京駅") 1 r
    /\ add_keys ucd r = Ok k
    /\ Some tokyo_tokens = Some ts
    /\ hits ucd (shape0 ucd) r (u "東京駅") ts (u "駅")
    /\ forall r' k',
         candidate ucd travel_dictionary (u "東京駅") 1 r' ->
         add_keys ucd r' = Ok k' ->
         sorts_before k' k = true -> misses ucd r' (u "東京駅").
Proof.
  apply (search_hit ucd (shape0 ucd) travel_dictionary (u "東京駅") 1
           (Some tokyo_tokens) (u "駅")).
  vm_compute. reflexivity.
Defined.

Lemma search_miss_witness :
  @None (list Token0) = None /\ u "京阪" = u "京阪"
  /\ forall r, candidate ucd travel_dictionary (u "京阪") 0 r ->
       misses ucd r (u "京阪").
Proof.
  apply (search_miss ucd (shape0 ucd) travel_dictionary (u "京阪") 0 None (u "京阪")).
  vm_compute. reflexivity.
Defined.

(** *** The priority directive before 東京 *)

(** The loop over the sorted rows stops at the first row that matches. *)
Lemma search_rows_first_hit (U : Unicode) (S : Shape) (line : str) (e : row)
    (ts : list (tok S)) (rest : str) (rows : list keyed) :
  hits U S e line ts rest ->
  (forall x, In x rows -> fst (fst x) = e \/ misses U (fst (fst x)) line) ->
  (exists x, In x rows /\ fst (fst x) = e) ->
  search_rows U S rows line = Ok (true, Some ts, rest).
Proof.
  intros (term & pattern & m & g1 & H1 & H2 & H3 & H4 & H5 & H6).
  induction rows as [|[[r a] b] rows IH]; intros Hall Hex.
  - destruct Hex as (x & [] & _).
  - cbn [search_rows].
    destruct (Hall _ (or_introl eq_refl)) as [E | (t' & p' & M1 & M2 & M3)];
      cbn [fst] in *.
    + subst r. rewrite H1. cbn [bind]. rewrite H2. cbn [bind].
      rewrite H3. cbn [bind]. rewrite H4. cbn [bind]. rewrite H5. cbn [bind].
      rewrite H6. reflexivity.
    + rewrite M1. cbn [bind]. rewrite M2. cbn [bind]. rewrite M3. cbn [bind].
      apply IH.
      * intros x Hx. apply Hall. right. exact Hx.
      * destruct Hex as (x & [<- | Hx] & Ex).
        -- cbn [fst] in Ex. subst r. exfalso.
           rewrite H1 in M1. injection M1 as <-.
           rewrite H2 in M2. injection M2 as <-.
           rewrite H3 in M3. discriminate M3.
        -- exists x. split; assumption.
Qed.

(** A search whose candidates all miss, but for one entry that matches,
    returns the tokens of that entry. *)
Lemma search_entry (U : Unicode) (S : Shape) (d : Dictionary) (c : N)
    (l : str) (p : Z) (e : row) (ts : list (tok S)) (rest : str) :
  candidate U d (c :: l) p e ->
  (forall r, candidate U d (c :: l) p r -> r = e \/ misses U r (c :: l)) ->
  hits U S e (c :: l) ts rest ->
  search_to_token U S d (c :: l) p = Ok (true, Some ts, rest).
Proof.
  intros He Hall Hh. unfold search_to_token.
  destruct (mapM_add_keys U
              (filter (fun lr =>
                         startswith (lower U (Japanese (snd lr))) (lower U [c])
                         && (Priority (snd lr) =? p)%Z) (dic d)))
    as (keyed_rows & E & _).
  rewrite E. cbn [bind].
  destruct (search_keys U d c l p keyed_rows E) as [K1 K2].
  apply (search_rows_first_hit U S (c :: l) e ts rest); [exact Hh | |].
  - intros x Hx. apply sort_values_In in Hx.
    apply Hall. apply (K1 x Hx).
  - destruct (mapM_add_keys U [(0%Z, e)]) as (ks & Ek & _).
    cbn [mapM snd] in Ek. destruct (add_keys U e) as [k|err] eqn:Ee;
      cbn [bind] in Ek; [|discriminate].
    exists k. split.
    + apply (Permutation_in _ (sort_values_perm keyed_rows)).
      apply (K2 e k He Ee).
    + apply (add_keys_row U e k Ee).
Qed.

(** The line [1]東京 in any dictionary: the round of the directive emits
    nothing and ends with the search of 東京 at priority 1. *)
Lemma directive_round_tokyo (S : Shape) (d : Dictionary) :
  line_to_tokens ucd S d (u "[1]東京")
  = search_round ucd S (search_to_token ucd S d) 5 (u "東京") 1.
Proof.
  unfold line_to_tokens.
  erewrite loop_directive_round with (p := 1%Z) (rest := u "東京");
    [ | vm_compute; discriminate | vm_compute; reflexivity
      | vm_compute; reflexivity | vm_compute; reflexivity
      | vm_compute; reflexivity | vm_compute; reflexivity
      | vm_compute; reflexivity ].
  reflexivity.
Qed.

(** C8.  In every dictionary and in the three shapes: a search at a
    priority sees the rows of that priority only; and when the search for
    東京 at priority 1 finds an entry that matches the text to its end,
    the line [1]東京 yields the tokens of that search and nothing for the
    directive.  The entry found is the one the claim names whenever the
    dictionary holds at priority 1 an entry beginning with 東 whose
    template matches 東京 to its end and the template of every other row
    of priority 1 beginning with 東 is built and does not match, whatever
    the rows of the other priorities are. *)
Theorem directive_selects_priority_pool (S : Shape) (d : Dictionary) :
  (forall line p,
      search_to_token ucd S d line p
      = search_to_token ucd S {| dic := priority_pool d p; index := index d |}
          line p)
  /\ (forall ts,
        search_to_token ucd S d (u "東京") 1 = Ok (true, Some ts, []) ->
        line_to_tokens ucd S d (u "[1]東京") = Ok ts)
  /\ (forall e ts,
        candidate ucd d (u "東京") 1 e ->
        hits ucd S e (u "東京") ts [] ->
        (forall r, candidate ucd d (u "東京") 1 r ->
                   r = e \/ misses ucd r (u "東京")) ->
        search_to_token ucd S d (u "東京") 1 = Ok (true, Some ts, [])
        /\ line_to_tokens ucd S d (u "[1]東京") = Ok ts).
Proof.
  assert (Hline : forall ts,
             search_to_token ucd S d (u "東京") 1 = Ok (true, Some ts, []) ->
             line_to_tokens ucd S d (u "[1]東京") = Ok ts).
  { intros ts Hs. rewrite directive_round_tokyo.
    unfold search_round. rewrite Hs.
    cbn [line_to_tokens_loop bind]. rewrite app_nil_r. reflexivity. }
  split; [intros line p; apply search_to_token_pool|].
  split; [exact Hline|].
  intros e ts He Hh Hall.
  assert (Hs : search_to_token ucd S d (u "東京") 1 = Ok (true, Some ts, [])).
  { apply (search_entry ucd S d (ch "東") (u "京") 1 e ts []); assumption. }
  split; [exact Hs | exact (Hline ts Hs)].
Qed.

(** A dictionary with a rival reading of 東京 at priority 0 and, at
    priority 1, 東京 and 東北. *)
Lemma directive_selects_priority_pool_witness :
  let d := Dictionary_init [(0%Z, tokyo_rival); (1%Z, tokyo); (2%Z, touhoku)] in
  search_to_token ucd (shape0 ucd) d (u "東京") 1
  = Ok (true, Some tokyo_tokens, [])
  /\ line_to_tokens ucd (shape0 ucd) d (u "[1]東京") = Ok tokyo_tokens.
Proof.
  apply (proj2 (proj2 (directive_selects_priority_pool (shape0 ucd)
           (Dictionary_init
              [(0%Z, tokyo_rival); (1%Z, tokyo); (2%Z, touhoku)])))
           tokyo tokyo_tokens).
  - split; [|split].
    + simpl. right. left. reflexivity.
    + reflexivity.
    + vm_compute. reflexivity.
  - unfold hits. eexists. eexists. eexists. eexists.
    split; [vm_compute; reflexivity|].
    split; [vm_compute; reflexivity|].
    split; [vm_compute; reflexivity|].
    split; [vm_compute; reflexivity|].
    split; vm_compute; reflexivity.
  - intros r (Hin & Hp & Hst). simpl in Hin.
    destruct Hin as [<- | [<- | [<- | []]]].
    + vm_compute in Hp. discriminate Hp.
    + left. reflexivity.
    + right. unfold misses. eexists. eexists.
      split; [vm_compute; reflexivity|].
      split; vm_compute; reflexivity.
Defined.

(** Why the other rows of priority 1 must miss: with the noun 東. at
    priority 1 before 東京, the search at priority 1 finds 東. first. *)
Example directive_finds_dotted_entry :
  line_to_tokens0 ucd
    (Dictionary_init
       [(0%Z, {| Japanese := u "東."; Kana := u "ひがし"; Division0 := u "0";
                 Division1 := u "0"; Type_ := MEISHI; Priority := 1 |});
        (1%Z, tokyo)])
    (u "[1]東京")
  = Ok [ {| jp0 := u "東."; kana0 := Some (u "ひがし"); alignment := 0 |} ].
Proof. vm_compute. reflexivity. Qed.

(* ------------------------------------------------------------------------- *)
(** ** Spans, and append and remove *)

(** *** A span between two [$] *)

Lemma span_scan_closed (s rest : str) :
  no_dollar s = true -> span_scan (s ++ ch "$" :: rest) = (s, rest).
Proof.
  induction s as [|x s IH]; intros Hs; cbn [app span_scan].
  - reflexivity.
  - cbn [no_dollar forallb] in Hs. apply andb_true_iff in Hs.
    destruct Hs as [Hx Hs]. apply negb_true_iff in Hx. rewrite Hx.
    rewrite (IH Hs). reflexivity.
Qed.

Lemma span_scan_open (s : str) :
  no_dollar s = true -> span_scan s = (s, []).
Proof.
  induction s as [|x s IH]; intros Hs; cbn [span_scan].
  - reflexivity.
  - cbn [no_dollar forallb] in Hs. apply andb_true_iff in Hs.
    destruct Hs as [Hx Hs]. apply negb_true_iff in Hx. rewrite Hx.
    rewrite (IH Hs). reflexivity.
Qed.

(** A round that starts on the [$] of a span. *)
Lemma loop_span_round (U : Unicode) (S : Shape)
    (search : str -> Z -> result (bool * option (list (tok S)) * str))
    (f : nat) (x : N) (tail : str) :
  (x =? ch "$")%N = false ->
  line_to_tokens_loop U S search (Datatypes.S f) (ch "$" :: x :: tail)
  = (let '(cs, rest) := span_scan (x :: tail) in
     more <- line_to_tokens_loop U S search f rest ;;
     Ok (map (fun c => spanned S [c]) cs ++ more)).
Proof.
  intros Hx. cbn [line_to_tokens_loop].
  assert (D : str_mem (firstn 2 (ch "$" :: x :: tail))
                [u "$$"; u "(("; u "))"; u "[["; u "]]"] = false).
  { change (u "$$") with [ch "$"; ch "$"].
    change (u "((") with [ch "("; ch "("].
    change (u "))") with [ch ")"; ch ")"].
    change (u "[[") with [ch "["; ch "["].
    change (u "]]") with [ch "]"; ch "]"].
    unfold str_mem. cbn [firstn existsb str_eqb].
    rewrite Hx.
    change (ch "$" =? ch "$")%N with true.
    change (ch "$" =? ch "(")%N with false.
    change (ch "$" =? ch ")")%N with false.
    change (ch "$" =? ch "[")%N with false.
    change (ch "$" =? ch "]")%N with false.
    reflexivity. }
  rewrite D.
  unfold PATTERNS_custom, PATTERNS_priority.
  rewrite (anchored_literal_miss U _ _ (ch "$") (x :: tail)) by reflexivity.
  rewrite (anchored_literal_miss U _ _ (ch "$") (x :: tail)) by reflexivity.
  change (ch "$" =? ch "$")%N with true. reflexivity.
Qed.

(** X9. A line that is one span, a [$], a text without [$] and a closing
    [$], gives one token per character of the text, none of them looked
    up in the dictionary; and the closing [$] can be left out. *)
Theorem span_passes_through (U : Unicode) (S : Shape) (d : Dictionary)
    (s : str) :
  s <> [] -> no_dollar s = true ->
  line_to_tokens U S d (ch "$" :: s ++ [ch "$"])
  = Ok (map (fun c => spanned S [c]) s)
  /\ line_to_tokens U S d (ch "$" :: s)
     = Ok (map (fun c => spanned S [c]) s).
Proof.
  intros Hne Hs. destruct s as [|x s]; [congruence|].
  pose proof Hs as Hs'. cbn [no_dollar forallb] in Hs'.
  apply andb_true_iff in Hs'. destruct Hs' as [Hx _].
  apply negb_true_iff in Hx. unfold line_to_tokens.
  split.
  - cbn [length app]. rewrite loop_span_round by exact Hx.
    change (x :: s ++ [ch "$"]) with ((x :: s) ++ [ch "$"]).
    rewrite (span_scan_closed (x :: s) [] Hs).
    cbn [line_to_tokens_loop bind]. rewrite app_nil_r. reflexivity.
  - cbn [length]. rewrite loop_span_round by exact Hx.
    rewrite (span_scan_open (x :: s) Hs).
    cbn [line_to_tokens_loop bind]. rewrite app_nil_r. reflexivity.
Qed.

Lemma span_passes_through_witness :
  line_to_tokens ucd (shape2 ucd) travel_dictionary (ch "$" :: u "東京" ++ [ch "$"])
  = Ok (map (fun c => spanned (shape2 ucd) [c]) (u "東京"))
  /\ line_to_tokens ucd (shape2 ucd) travel_dictionary (ch "$" :: u "東京")
     = Ok (map (fun c => spanned (shape2 ucd) [c]) (u "東京")).
Proof.
  apply (span_passes_through ucd (shape2 ucd) travel_dictionary (u "東京")).
  - vm_compute. discriminate.
  - reflexivity.
Defined.

(** *** remove and append *)

Lemma has_label_drop (df : frame) (i : Z) : has_label (drop df i) i = false.
Proof.
  unfold has_label, labels, drop.
  induction df as [|[l r] df IH]; cbn [filter map existsb fst];
    [reflexivity|].
  destruct (l =? i)%Z eqn:E; cbn [negb]; [exact IH|].
  cbn [map existsb fst]. rewrite Z.eqb_sym, E. exact IH.
Qed.

Lemma remove_drops (d : Dictionary) (i : Z) :
  dic (fst (remove d i)) = drop (dic d) i.
Proof.
  unfold remove. destruct (has_label (dic d) i) eqn:E; cbn [fst dic].
  - reflexivity.
  - symmetry. apply drop_absent.
    intros H. apply has_label_In in H. congruence.
Qed.

(** X10. [remove] answers whether the id was in use, drops the rows of
    that id and keeps the counter; afterwards the id is not in use, and a
    second [remove] of it changes nothing and answers False. *)
Theorem remove_twice (d : Dictionary) (i : Z) :
  snd (remove d i) = has_label (dic d) i
  /\ dic (fst (remove d i)) = drop (dic d) i
  /\ index (fst (remove d i)) = index d
  /\ has_label (dic (fst (remove d i))) i = false
  /\ remove (fst (remove d i)) i = (fst (remove d i), false).
Proof.
  pose proof (remove_drops d i) as D.
  assert (H : has_label (dic (fst (remove d i))) i = false)
    by (rewrite D; apply has_label_drop).
  repeat split; try assumption.
  - unfold remove. destruct (has_label (dic d) i); reflexivity.
  - unfold remove. destruct (has_label (dic d) i); reflexivity.
  - unfold remove at 1. rewrite H. reflexivity.
Qed.

Lemma row_is_to_dict (t : Term) : row_is t (to_dict t) = true.
Proof.
  unfold row_is, to_dict. cbn. rewrite !str_eqb_refl, Z.eqb_refl. reflexivity.
Qed.

Lemma loc_set_holds (df : frame) (label : Z) (r : row) :
  In (label, r) (loc_set df label r).
Proof.
  unfold loc_set. destruct (has_label df label) eqn:E.
  - apply has_label_In in E. unfold labels in E.
    apply in_map_iff in E. destruct E as ([l r'] & El & Hin).
    cbn [fst] in El. subst l. apply in_map_iff.
    exists (label, r'). cbn [fst]. rewrite Z.eqb_refl. split; auto.
  - apply in_or_app. right. left. reflexivity.
Qed.

(** X11. After [append] the term is in the dictionary, so appending it
    again changes nothing and returns None; and [append] returns None
    exactly when the term was there already, leaving the dictionary as it
    was. *)
Theorem append_twice (d : Dictionary) (t : Term) :
  is_exists (fst (append d t)) t = true
  /\ append (fst (append d t)) t = (fst (append d t), None)
  /\ (snd (append d t) = None <-> is_exists d t = true)
  /\ (snd (append d t) = None -> fst (append d t) = d).
Proof.
  assert (E : is_exists (fst (append d t)) t = true).
  { unfold append. destruct (is_exists d t) eqn:E; cbn [fst]; [exact E|].
    unfold is_exists. cbn [dic]. apply existsb_exists.
    exists (index d, to_dict t). split; [apply loc_set_holds|].
    apply row_is_to_dict. }
  split; [exact E|]. split; [|split].
  - unfold append at 1. rewrite E. reflexivity.
  - unfold append. destruct (is_exists d t); cbn [snd]; split; congruence.
  - unfold append. destruct (is_exists d t); cbn [snd fst]; congruence.
Qed.

(* ------------------------------------------------------------------------- *)
(** ** The plain-text export *)

Lemma search_no_candidate (U : Unicode) (S : Shape) (d : Dictionary)
    (c : N) (l : str) (p : Z) :
  starts_no_entry U d c = true ->
  search_to_token U S d (c :: l) p = Ok (false, None, c :: l).
Proof.
  intros H. unfold search_to_token.
  assert (E : filter (fun lr =>
                startswith (lower U (Japanese (snd lr))) (lower U [c])
                && (Priority (snd lr) =? p)%Z) (dic d) = []).
  { unfold starts_no_entry in H. induction (dic d) as [|lr df IH];
      [reflexivity|].
    cbn [forallb] in H. apply andb_true_iff in H. destruct H as [H1 H2].
    apply negb_true_iff in H1. cbn [filter]. rewrite H1. cbn [andb].
    apply IH, H2. }
  rewrite E. reflexivity.
Qed.

Lemma loop_unknown_line (U : Unicode) (S : Shape) (d : Dictionary)
    (line : str) :
  forall fuel, length line < fuel ->
  forallb (unknown U d) line = true ->
  line_to_tokens_loop U S (search_to_token U S d) fuel line
  = Ok (map (fun c => plain S [c]) line).
Proof.
  induction line as [|c tail IH]; intros fuel Hf Hl.
  - destruct fuel; [simpl in Hf; lia | reflexivity].
  - destruct fuel as [|f]; [simpl in Hf; lia|].
    cbn [forallb] in Hl. apply andb_true_iff in Hl. destruct Hl as [Hc Hl].
    unfold unknown in Hc. apply andb_true_iff in Hc. destruct Hc as [Hc Hs].
    apply negb_true_iff in Hc.
    rewrite (loop_plain_round U S _ f c tail Hc). unfold search_round.
    rewrite (search_no_candidate U S d c tail 0 Hs). cbn [bind].
    rewrite IH by (simpl in Hf; try lia; assumption). reflexivity.
Qed.

Lemma split_on_pieces (P : N -> bool) (c : N) (s : str) :
  forallb (fun x => (x =? c)%N || P x) s = true ->
  Forall (fun piece => forallb P piece = true) (split_on c s).
Proof.
  induction s as [|x s IH]; intros H; cbn [split_on].
  - repeat constructor.
  - cbn [forallb] in H. apply andb_true_iff in H. destruct H as [Hx Hs].
    specialize (IH Hs). destruct (x =? c)%N.
    + constructor; [reflexivity | exact IH].
    + cbn [orb] in Hx. destruct (split_on c s) as [|h t].
      * repeat constructor. cbn [forallb]. rewrite Hx. reflexivity.
      * inversion IH; subst. constructor; [|assumption].
        cbn [forallb]. rewrite Hx. assumption.
Qed.

Lemma split_on_lines (c : N) (s : str) :
  concat (map (fun l => l ++ [c]) (split_on c s)) = s ++ [c].
Proof.
  induction s as [|x s IH]; cbn [split_on]; [reflexivity|].
  destruct (x =? c)%N eqn:E.
  - apply N.eqb_eq in E. subst x. cbn [map concat app]. rewrite IH.
    reflexivity.
  - destruct (split_on c s) as [|h t].
    + destruct s; discriminate.
    + cbn [map concat app] in *. rewrite <- IH. reflexivity.
Qed.

Lemma token2_text_plain (U : Unicode) (line : str) :
  concat (map token2_text (map (fun c => plain (shape2 U) [c]) line)) = line.
Proof.
  induction line as [|c line IH]; [reflexivity|].
  cbn [map concat]. rewrite IH. reflexivity.
Qed.

Lemma output_lines_unknown (U : Unicode) (d : Dictionary)
    (text_list : list str) :
  Forall (fun line => forallb (unknown U d) line = true) text_list ->
  output_lines U d text_list
  = Ok (concat (map (fun l => l ++ [10%N]) text_list)).
Proof.
  induction 1 as [|line rest Hl _ IH]; cbn [output_lines]; [reflexivity|].
  unfold line_to_tokens.
  rewrite (loop_unknown_line U (shape2 U) d line) by (try lia; assumption).
  cbn [bind]. rewrite IH. cbn [bind map concat].
  rewrite token2_text_plain, <- app_assoc. reflexivity.
Qed.

(** X13. A text in which no character is a control character or starts
    a spelling of the dictionary is written out by [output_txt] as it is,
    with a line break after its last line. *)
Theorem output_txt_unknown_text (U : Unicode) (d : Dictionary) (text : str) :
  unknown_text U d text = true ->
  output_txt U d text = Ok (text ++ [10%N]).
Proof.
  intros H. unfold output_txt.
  rewrite output_lines_unknown by (apply split_on_pieces, H).
  rewrite split_on_lines. reflexivity.
Qed.

Lemma output_txt_unknown_text_witness :
  output_txt ucd travel_dictionary two_lines = Ok (two_lines ++ [10%N]).
Proof.
  apply (output_txt_unknown_text ucd travel_dictionary two_lines).
  vm_compute. reflexivity.
Defined.

(* ------------------------------------------------------------------------- *)
(** ** What check returns, and find *)

Lemma filter_filter {A} (f g : A -> bool) (l : list A) :
  filter f (filter g l) = filter (fun x => g x && f x) l.
Proof.
  induction l as [|x l IH]; cbn [filter]; [reflexivity|].
  destruct (g x); cbn [andb filter]; [destruct (f x)|]; rewrite IH;
    reflexivity.
Qed.

Lemma filter_all {A} (f : A -> bool) (l : list A) :
  Forall (fun x => f x = true) l -> filter f l = l.
Proof.
  induction 1 as [|x l Hx _ IH]; cbn [filter]; [reflexivity|].
  rewrite Hx, IH. reflexivity.
Qed.

Lemma failing_cons (U : Unicode) (df : raw_frame) (label : Z) (r : raw_row)
    (l : list (Z * raw_row)) :
  failing U df ((label, r) :: l)
  = if keeps U df r then failing U df l else label :: failing U df l.
Proof.
  unfold failing. cbn [filter snd]. destruct (keeps U df r); reflexivity.
Qed.

Lemma check_loop_returns (U : Unicode) (df : raw_frame)
    (todo : list (Z * raw_row)) :
  forall new_rows infos res infos',
  check_loop U df todo new_rows infos = Ok (res, infos') ->
  res = filter (fun lr => negb (label_in (failing U df todo) lr)) new_rows
  /\ infos' = infos ++ failing U df todo.
Proof.
  induction todo as [|[label r] todo IH]; intros new_rows infos res infos' H;
    cbn [check_loop] in H.
  - injection H as <- <-. unfold failing. cbn [filter map].
    rewrite app_nil_r. split; [|reflexivity].
    symmetry. apply filter_all. apply Forall_forall. reflexivity.
  - rewrite failing_cons. unfold keeps.
    destruct (row_term U df r) as [t|e] eqn:E.
    + apply IH, H.
    + destruct e; try discriminate.
      destruct (existsb (Z.eqb label) (map fst new_rows)); [|discriminate].
      destruct (IH _ _ _ _ H) as [-> ->]. split.
      * rewrite filter_filter. apply filter_ext. intros [l x].
        unfold label_in. cbn [fst existsb].
        rewrite negb_orb. reflexivity.
      * rewrite <- app_assoc. reflexivity.
Qed.

Lemma failing_keeps (U : Unicode) (df : raw_frame) (l : list (Z * raw_row))
    (lr : Z * raw_row) :
  In lr l -> label_in (failing U df l) lr = false ->
  keeps U df (snd lr) = true.
Proof.
  intros Hin H. destruct (keeps U df (snd lr)) eqn:K; [reflexivity|].
  exfalso. unfold label_in in H.
  assert (T : existsb (Z.eqb (fst lr)) (failing U df l) = true).
  { apply existsb_exists. exists (fst lr). split; [|apply Z.eqb_refl].
    unfold failing. apply in_map. apply filter_In. split; [exact Hin|].
    rewrite K. reflexivity. }
  congruence.
Qed.

Lemma check_frame (U : Unicode) (df df' : raw_frame) (infos : list Z) :
  check U df = Ok (df', infos) ->
  columns df' = columns df
  /\ has_columns df = true
  /\ infos = failing U df (rows df)
  /\ rows df' = filter (fun lr => negb (label_in infos lr)) (rows df).
Proof.
  unfold check. fold (has_columns df).
  destruct (has_columns df) eqn:C; cbn [negb]; [|discriminate].
  destruct (check_loop U df (rows df) (rows df) []) as [[res infos']|e] eqn:E;
    cbn [bind]; [|discriminate].
  intros H. injection H as <- <-. cbn [columns rows].
  destruct (check_loop_returns U df _ _ _ _ _ E) as [-> ->].
  cbn [app]. repeat split.
Qed.

Lemma check_kept (U : Unicode) (df df' : raw_frame) (infos : list Z) :
  check U df = Ok (df', infos) ->
  Forall (fun lr => keeps U df (snd lr) = true) (rows df').
Proof.
  intros H. destruct (check_frame U df df' infos H) as (_ & _ & -> & -> ).
  apply Forall_forall. intros lr Hlr. apply filter_In in Hlr.
  destruct Hlr as [Hin Hl]. apply negb_true_iff in Hl.
  apply (failing_keeps U df (rows df) lr Hin Hl).
Qed.

(** X14. Whenever [check] returns, the frame had the six columns; the
    labels reported are those of the rows whose [Term] is not built, in
    order; the frame returned has the same columns and the rows whose
    label is not reported, so a row that shares its label with a failing
    row goes too; and the [Term] of every row left is built. *)
Theorem check_returns (U : Unicode) (df df' : raw_frame) (infos : list Z) :
  check U df = Ok (df', infos) ->
  columns df' = columns df
  /\ has_columns df = true
  /\ infos = failing U df (rows df)
  /\ rows df' = filter (fun lr => negb (label_in infos lr)) (rows df)
  /\ Forall (fun lr => keeps U df (snd lr) = true) (rows df').
Proof.
  intros H. destruct (check_frame U df df' infos H) as (A & B & C & D).
  pose proof (check_kept U df df' infos H) as E.
  repeat split; assumption.
Qed.

Lemma check_returns_witness :
  columns (fst (sample_checked ucd)) = columns sample_frame
  /\ has_columns sample_frame = true
  /\ snd (sample_checked ucd) = failing ucd sample_frame (rows sample_frame)
  /\ rows (fst (sample_checked ucd))
     = filter (fun lr => negb (label_in (snd (sample_checked ucd)) lr))
              (rows sample_frame)
  /\ Forall (fun lr => keeps ucd sample_frame (snd lr) = true)
            (rows (fst (sample_checked ucd))).
Proof.
  apply (check_returns ucd sample_frame (fst (sample_checked ucd))
           (snd (sample_checked ucd))).
  vm_compute. reflexivity.
Defined.

(** *** find *)

Lemma find_rows (U : Unicode) (part : str) (l : list (Z * raw_row)) :
  forall in_jp in_kana,
  mapM (fun lr => contains_cell U part (snd lr (u "Japanese"))) l = Ok in_jp ->
  mapM (fun lr => contains_cell U part (snd lr (u "Kana"))) l = Ok in_kana ->
  map fst (filter snd
             (combine l (map (fun ab => fst ab || snd ab)
                             (combine in_jp in_kana))))
  = filter (selected U part) l.
Proof.
  induction l as [|lr l IH]; intros in_jp in_kana Hj Hk; cbn [mapM] in Hj, Hk.
  - reflexivity.
  - match type of Hj with bind ?c _ = _ => destruct c as [a|e] eqn:Ea end;
      cbn [bind] in Hj; [|discriminate Hj].
    match type of Hj with bind ?c _ = _ => destruct c as [js|e] eqn:Ejs end;
      cbn [bind] in Hj; [|discriminate Hj].
    injection Hj as <-.
    match type of Hk with bind ?c _ = _ => destruct c as [b|e] eqn:Eb end;
      cbn [bind] in Hk; [|discriminate Hk].
    match type of Hk with bind ?c _ = _ => destruct c as [ks|e] eqn:Eks end;
      cbn [bind] in Hk; [|discriminate Hk].
    injection Hk as <-.
    cbn [combine map filter fst snd].
    specialize (IH js ks eq_refl eq_refl).
    assert (Es : selected U part lr = a || b).
    { unfold selected. unfold raw_row in *.
      destruct (snd lr (u "Japanese")); cbn [contains_cell] in Ea;
        try discriminate Ea.
      destruct (snd lr (u "Kana")); cbn [contains_cell] in Eb;
        try discriminate Eb.
      injection Ea as <-. injection Eb as <-. reflexivity. }
    rewrite Es. destruct (a || b); cbn [map fst]; rewrite IH; reflexivity.
Qed.

Lemma mapM_selected (U : Unicode) (part col : str) (l : list (Z * raw_row)) :
  (forall lr, In lr l -> exists s, snd lr col = CStr s) ->
  exists flags,
    mapM (fun lr => contains_cell U part (snd lr col)) l = Ok flags.
Proof.
  unfold raw_row in *.
  induction l as [|lr l IH]; intros H; cbn [mapM].
  - eexists. reflexivity.
  - destruct (H lr (or_introl eq_refl)) as [s Es]. rewrite Es.
    cbn [contains_cell bind].
    destruct IH as [flags ->]; [intros x Hx; apply H; right; exact Hx|].
    cbn [bind]. eexists. reflexivity.
Qed.

Lemma selected_text (U : Unicode) (part : str) (lr : Z * raw_row) :
  selected U part lr = true ->
  exists j k, snd lr (u "Japanese") = CStr j /\ snd lr (u "Kana") = CStr k
    /\ contains part (remove_seps U j) || contains part (remove_seps U k)
       = true.
Proof.
  unfold selected. destruct (snd lr (u "Japanese")); try discriminate.
  destruct (snd lr (u "Kana")); try discriminate. eauto.
Qed.

Lemma row_term_columns (U : Unicode) (a b : raw_frame) (r : raw_row) :
  has_columns a = true -> has_columns b = true ->
  row_term U a r = row_term U b r.
Proof.
  unfold has_columns, COLUMNS. cbn [forallb]. intros Ha Hb.
  repeat (apply andb_true_iff in Ha; destruct Ha as [?Ha Ha]).
  repeat (apply andb_true_iff in Hb; destruct Hb as [?Hb Hb]).
  unfold row_term, cell_at, COLUMNS. cbn [nth].
  rewrite Ha0, Ha1, Ha2, Ha3, Ha4, Ha5, Hb0, Hb1, Hb2, Hb3, Hb4, Hb5.
  reflexivity.
Qed.

Lemma check_loop_all_kept (U : Unicode) (df : raw_frame)
    (todo : list (Z * raw_row)) :
  Forall (fun lr => keeps U df (snd lr) = true) todo ->
  forall new_rows infos,
  check_loop U df todo new_rows infos = Ok (new_rows, infos).
Proof.
  induction 1 as [|[label r] todo Hk _ IH]; intros new_rows infos;
    cbn [check_loop]; [reflexivity|].
  unfold keeps in Hk. cbn [snd] in Hk.
  destruct (row_term U df r); [apply IH | discriminate].
Qed.

Lemma has_columns_filter (df : raw_frame) :
  has_columns {| columns := filter (fun c => negb (str_mem c FIND_COLUMNS))
                                   (columns df);
                 rows := rows df |} = true ->
  has_columns df = true.
Proof.
  unfold has_columns. cbn [columns]. rewrite !forallb_forall.
  intros H c Hc. specialize (H c Hc). apply str_mem_In in H.
  apply str_mem_In. apply filter_In in H. apply H.
Qed.

(** X15. When [find] returns, the dictionary was built from the file and
    the dictionary returned has its counter; the rows returned are rows of
    the frame searched that [find] selects and whose [Term] is built; and
    searching the result for the same text gives the result again, with
    nothing reported. *)
Theorem find_idempotent (U : Unicode) (new_dic : result Z)
    (df df1 : raw_frame) (part : str) (counter : Z) (infos : list Z) :
  find_frame U new_dic df part = Ok (df1, counter, infos) ->
  new_dic = Ok counter
  /\ Forall (fun lr =>
              In lr (rows df) /\ selected U part lr = true
              /\ keeps U df (snd lr) = true) (rows df1)
  /\ find_frame U new_dic df1 part = Ok (df1, counter, []).
Proof.
  unfold find_frame at 1.
  destruct (str_mem (u "Japanese") (columns df)) eqn:Cj; cbn [negb];
    [|discriminate].
  match goal with |- bind ?c _ = _ -> _ => destruct c as [in_jp|e] eqn:Ej end;
    cbn [bind]; [|discriminate].
  destruct (str_mem (u "Kana") (columns df)) eqn:Ck; cbn [negb];
    [|discriminate].
  match goal with |- bind ?c _ = _ -> _ => destruct c as [in_kana|e] eqn:Ek end;
    cbn [bind]; [|discriminate].
  rewrite (find_rows U part (rows df) in_jp in_kana Ej Ek).
  set (cols := filter (fun c => negb (str_mem c FIND_COLUMNS)) (columns df)).
  set (F := {| columns := cols; rows := filter (selected U part) (rows df) |}).
  destruct new_dic as [c|e]; cbn [bind]; [|discriminate].
  destruct (check U F) as [[new_df infos']|e] eqn:H; cbn [bind];
    [|discriminate].
  intros H'. injection H' as -> -> ->.
  destruct (check_frame U F df1 infos H) as (C1 & C2 & C3 & C4).
  pose proof (check_kept U F df1 infos H) as C5.
  cbn [columns rows] in C1, C4.
  assert (Hdf : has_columns df = true).
  { apply has_columns_filter. exact C2. }
  assert (Hsub : forall lr, In lr (rows df1) ->
            In lr (rows df) /\ selected U part lr = true).
  { intros lr Hlr. rewrite C4 in Hlr. apply filter_In in Hlr.
    destruct Hlr as [Hlr _]. apply filter_In in Hlr. exact Hlr. }
  split; [reflexivity|]. split.
  - apply Forall_forall. intros lr Hlr. destruct (Hsub lr Hlr) as [A B].
    repeat split; try assumption.
    rewrite Forall_forall in C5. specialize (C5 lr Hlr).
    unfold keeps in *.
    rewrite (row_term_columns U df F (snd lr) Hdf C2). exact C5.
  - assert (Hcols : has_columns df1 = true).
    { unfold has_columns. rewrite C1. exact C2. }
    unfold find_frame.
    assert (Mj : str_mem (u "Japanese") (columns df1) = true).
    { unfold has_columns, COLUMNS in Hcols. cbn [forallb] in Hcols.
      apply andb_true_iff in Hcols. apply Hcols. }
    assert (Mk : str_mem (u "Kana") (columns df1) = true).
    { unfold has_columns, COLUMNS in Hcols. cbn [forallb] in Hcols.
      apply andb_true_iff in Hcols. destruct Hcols as [_ Hcols].
      apply andb_true_iff in Hcols. apply Hcols. }
    rewrite Mj, Mk. cbn [negb].
    destruct (mapM_selected U part (u "Japanese") (rows df1)) as [fj Efj].
    { intros lr Hlr. destruct (Hsub lr Hlr) as [_ B].
      destruct (selected_text U part lr B) as (j & k & A1 & A2 & _). eauto. }
    destruct (mapM_selected U part (u "Kana") (rows df1)) as [fk Efk].
    { intros lr Hlr. destruct (Hsub lr Hlr) as [_ B].
      destruct (selected_text U part lr B) as (j & k & A1 & A2 & _). eauto. }
    rewrite Efj. cbn [bind]. rewrite Efk. cbn [bind].
    rewrite (find_rows U part (rows df1) fj fk Efj Efk).
    rewrite (filter_all (selected U part) (rows df1))
      by (apply Forall_forall; intros lr Hlr; apply (Hsub lr Hlr)).
    assert (Ecols : filter (fun c => negb (str_mem c FIND_COLUMNS))
                      (columns df1) = columns df1).
    { rewrite C1. unfold F, cols. cbn [columns].
      rewrite filter_filter. apply filter_ext.
      intros c. destruct (negb (str_mem c FIND_COLUMNS)); reflexivity. }
    rewrite Ecols.
    unfold check. fold (has_columns {| columns := columns df1;
                                       rows := rows df1 |}).
    assert (Hc' : has_columns {| columns := columns df1; rows := rows df1 |}
                  = true) by exact Hcols.
    rewrite Hc'. cbn [negb columns rows].
    rewrite check_loop_all_kept.
    + cbn [bind]. destruct df1; reflexivity.
    + rewrite Forall_forall in C5 |- *. intros lr Hlr. specialize (C5 lr Hlr).
      unfold keeps in *.
      rewrite (row_term_columns U _ F (snd lr) Hc' C2). exact C5.
Qed.

Lemma find_idempotent_witness :
  Ok 7%Z = Ok (snd (fst (sample_found ucd)))
  /\ Forall (fun lr =>
              In lr (rows find_sample) /\ selected ucd (u "京") lr = true
              /\ keeps ucd find_sample (snd lr) = true)
           (rows (fst (fst (sample_found ucd))))
  /\ find_frame ucd (Ok 7%Z) (fst (fst (sample_found ucd))) (u "京")
     = Ok (fst (fst (sample_found ucd)), snd (fst (sample_found ucd)), []).
Proof.
  apply (find_idempotent ucd (Ok 7%Z) find_sample
           (fst (fst (sample_found ucd))) (u "京")
           (snd (fst (sample_found ucd))) (snd (sample_found ucd))).
  vm_compute. reflexivity.
Defined.

(* ------------------------------------------------------------------------- *)
(** ** The table of the viewer *)

(** *** The dict *)

Lemma dict_lookup_set {A} (d : list (Z * A)) (key : Z) (v : A) (i : Z) :
  dict_lookup (dict_set d key v) i
  = if (i =? key)%Z then Some v else dict_lookup d i.
Proof.
  induction d as [|[k x] d IH]; cbn [dict_set dict_lookup].
  - rewrite (Z.eqb_sym key i). reflexivity.
  - destruct (k =? key)%Z eqn:E; cbn [dict_lookup].
    + apply Z.eqb_eq in E. subst k. rewrite (Z.eqb_sym key i).
      destruct (i =? key)%Z; reflexivity.
    + rewrite IH. destruct (k =? i)%Z eqn:E2; [|reflexivity].
      apply Z.eqb_eq in E2. subst k. rewrite E. reflexivity.
Qed.

Lemma dict_lookup_pop_map {A} (f : A -> A) (d : list (Z * A)) (key i : Z) :
  dict_lookup (map (fun kv => (fst kv, f (snd kv))) (dict_pop d key)) i
  = if (i =? key)%Z then None else option_map f (dict_lookup d i).
Proof.
  unfold dict_pop.
  induction d as [|[k x] d IH]; cbn [filter map dict_lookup fst snd].
  - destruct (i =? key)%Z; reflexivity.
  - destruct (k =? key)%Z eqn:E; cbn [negb].
    + rewrite IH. destruct (i =? key)%Z eqn:E2; [reflexivity|].
      apply Z.eqb_eq in E. subst k. rewrite (Z.eqb_sym key i), E2. reflexivity.
    + cbn [map dict_lookup fst snd]. rewrite IH.
      destruct (k =? i)%Z eqn:E2; [|reflexivity].
      apply Z.eqb_eq in E2. subst k. rewrite E. reflexivity.
Qed.

(** *** Rows and places *)

Lemma nth_error_remove_nth {A} (l : list A) :
  forall idx k,
  nth_error (remove_nth idx l) k
  = nth_error l (if Nat.ltb k idx then k else S k).
Proof.
  induction l as [|x l IH]; intros idx k.
  - destruct idx; cbn [remove_nth]; rewrite !nth_error_nil; reflexivity.
  - destruct idx as [|idx]; cbn [remove_nth].
    + reflexivity.
    + destruct k as [|k]; [reflexivity|].
      cbn [nth_error]. rewrite IH.
      change (Nat.ltb (S k) (S idx)) with (Nat.ltb k idx).
      destruct (Nat.ltb k idx); reflexivity.
Qed.

Lemma drop_remove_nth (df : frame) :
  forall idx i,
  NoDup (labels df) -> nth_error (labels df) idx = Some i ->
  drop df i = remove_nth idx df.
Proof.
  induction df as [|[l r] df IH]; intros idx i Hnd Hn.
  - destruct idx; discriminate.
  - cbn [labels map fst] in Hnd. inversion Hnd as [|? ? Hl Hnd']; subst.
    destruct idx as [|idx]; cbn [nth_error labels map fst] in Hn.
    + injection Hn as ->. cbn [drop filter fst remove_nth].
      rewrite Z.eqb_refl. cbn [negb]. apply drop_absent. exact Hl.
    + cbn [drop filter fst remove_nth].
      destruct (l =? i)%Z eqn:E.
      * apply Z.eqb_eq in E. subst l. exfalso. apply Hl.
        apply (nth_error_In _ _ Hn).
      * cbn [negb]. f_equal. apply (IH idx i Hnd' Hn).
Qed.

Lemma map_remove_nth {A B} (f : A -> B) (l : list A) :
  forall idx, map f (remove_nth idx l) = remove_nth idx (map f l).
Proof.
  induction l as [|x l IH]; intros [|idx]; cbn [remove_nth map];
    try reflexivity.
  rewrite IH. reflexivity.
Qed.

Lemma NoDup_nth_error_eq {A} (l : list A) (j k : nat) (x : A) :
  NoDup l -> nth_error l j = Some x -> nth_error l k = Some x -> j = k.
Proof.
  intros Hnd Hj Hk.
  apply (proj1 (NoDup_nth_error l) Hnd j k).
  - apply nth_error_Some. congruence.
  - congruence.
Qed.

Lemma places_set (d : list (Z * nat)) (tb tb' : list (Z * Term))
    (ls : list Z) (uid : Z) :
  places {| table := tb; id_to_row := d |} ls -> ~ In uid ls ->
  places {| table := tb'; id_to_row := dict_set d uid (length ls) |}
         (ls ++ [uid]).
Proof.
  unfold places. cbn [id_to_row]. intros H Hf i k.
  rewrite dict_lookup_set. destruct (Z.eqb_spec i uid) as [-> | Hne].
  - split.
    + intros E. injection E as <-.
      rewrite nth_error_app2 by lia. rewrite Nat.sub_diag. reflexivity.
    + intros E. f_equal.
      destruct (Nat.lt_ge_cases k (length ls)) as [Hk | Hk].
      * rewrite nth_error_app1 in E by exact Hk.
        exfalso. apply Hf. apply (nth_error_In _ _ E).
      * rewrite nth_error_app2 in E by exact Hk.
        destruct (k - length ls) as [|n] eqn:En; [lia|].
        destruct n; discriminate.
  - rewrite H. split.
    + intros E. rewrite nth_error_app1; [exact E|].
      apply nth_error_Some. congruence.
    + intros E.
      destruct (Nat.lt_ge_cases k (length ls)) as [Hk | Hk].
      * rewrite nth_error_app1 in E by exact Hk. exact E.
      * rewrite nth_error_app2 in E by exact Hk.
        destruct (k - length ls) as [|n]; [|destruct n; discriminate].
        injection E as E. congruence.
Qed.

Lemma places_remove (d : list (Z * nat)) (tb tb' : list (Z * Term))
    (ls : list Z) (i : Z) (idx : nat) :
  NoDup ls ->
  places {| table := tb; id_to_row := d |} ls ->
  dict_lookup d i = Some idx ->
  places {| table := tb';
            id_to_row :=
              map (fun kv => if Nat.ltb idx (snd kv)
                             then (fst kv, snd kv - 1) else kv)
                  (dict_pop d i) |}
         (remove_nth idx ls).
Proof.
  unfold places. cbn [id_to_row]. intros Hnd H Hi j k.
  assert (Em : map (fun kv : Z * nat => if Nat.ltb idx (snd kv)
                                        then (fst kv, snd kv - 1) else kv)
                   (dict_pop d i)
               = map (fun kv => (fst kv, (fun n => if Nat.ltb idx n
                                                   then n - 1 else n) (snd kv)))
                     (dict_pop d i)).
  { apply map_ext. intros [a b]. cbn [fst snd].
    destruct (Nat.ltb idx b); reflexivity. }
  rewrite Em.
  rewrite (dict_lookup_pop_map (fun n => if Nat.ltb idx n then n - 1 else n)).
  rewrite nth_error_remove_nth.
  pose proof (proj1 (H i idx) Hi) as Hidx.
  destruct (Z.eqb_spec j i) as [-> | Hne].
  - split; [discriminate|]. intros E. exfalso.
    pose proof (NoDup_nth_error_eq ls _ _ _ Hnd Hidx E) as Eq.
    destruct (Nat.ltb_spec k idx); lia.
  - destruct (dict_lookup d j) as [n|] eqn:En; cbn [option_map].
    + pose proof (proj1 (H j n) En) as Hn.
      assert (n <> idx) by (intros ->; congruence).
      split.
      * intros E. injection E as <-.
        destruct (Nat.ltb_spec idx n).
        -- destruct (Nat.ltb_spec (n - 1) idx); [lia|].
           replace (S (n - 1)) with n by lia. exact Hn.
        -- destruct (Nat.ltb_spec n idx); [exact Hn | lia].
      * intros E. f_equal.
        pose proof (NoDup_nth_error_eq ls _ _ _ Hnd Hn E) as Eq.
        destruct (Nat.ltb_spec k idx); destruct (Nat.ltb_spec idx n); lia.
    + split; [discriminate|]. intros E.
      apply H in E. congruence.
Qed.

(** *** The operations keep the table in step *)

Lemma shown_length (m : DicModel) : length (shown m) = length (table m).
Proof. unfold shown. apply length_map. Qed.

Lemma append_term_sound (v : DicViewer) (t : Term) :
  sound v -> sound (fst (append_term v t)).
Proof.
  intros ((Hs & Hp) & Hnd & Hc). unfold append_term.
  pose proof (counter_above_fresh _ Hc) as Hf.
  destruct (append_counter (viewer_dic v) t Hc) as (Hc1 & _ & _).
  unfold append in *. destruct (is_exists (viewer_dic v) t); cbn [fst snd] in *.
  - split; [split|split]; assumption.
  - rewrite (loc_set_fresh _ _ (to_dict t) Hf) in *.
    unfold append_row. cbn [fst].
    replace (index (viewer_dic v) + 1 - 1)%Z with (index (viewer_dic v)) by lia.
    unfold sound, in_step. cbn [viewer_dic viewer_model dic].
    split; [split|split].
    + unfold shown. cbn [table]. rewrite map_app. cbn [map fst snd].
      f_equal. exact Hs.
    + unfold labels. rewrite map_app. cbn [map fst].
      assert (El : length (table (viewer_model v))
                   = length (map fst (dic (viewer_dic v)))).
      { rewrite <- Hs, length_map. apply eq_sym, shown_length. }
      rewrite El.
      apply (places_set (id_to_row (viewer_model v))
               (table (viewer_model v))); [|exact Hf].
      destruct (viewer_model v). exact Hp.
    + unfold labels. rewrite map_app. cbn [map fst].
      apply NoDup_app; [exact Hnd | repeat constructor; intros [] |].
      intros x Hx [<- | []]. apply Hf, Hx.
    + exact Hc1.
Qed.

Lemma remove_term_by_id_sound (v : DicViewer) (i : Z) :
  sound v -> sound (fst (remove_term_by_id v i)).
Proof.
  intros ((Hs & Hp) & Hnd & Hc). unfold remove_term_by_id, remove_row_by_id.
  destruct (dict_lookup (id_to_row (viewer_model v)) i) as [idx|] eqn:E;
    cbn [fst].
  - pose proof (proj1 (Hp i idx) E) as Hidx.
    assert (Hl : has_label (dic (viewer_dic v)) i = true)
      by (apply has_label_In, (nth_error_In _ _ Hidx)).
    destruct (remove_counter (viewer_dic v) i Hc) as [Hc1 _].
    unfold remove in *. rewrite Hl in *. cbn [fst] in *.
    unfold sound, in_step. cbn [viewer_dic viewer_model dic].
    rewrite (drop_remove_nth _ idx i Hnd Hidx).
    assert (El : labels (remove_nth idx (dic (viewer_dic v)))
                 = remove_nth idx (labels (dic (viewer_dic v))))
      by apply map_remove_nth.
    rewrite El. split; [split|split].
    + unfold shown. cbn [table]. rewrite map_remove_nth. f_equal. exact Hs.
    + apply (places_remove (id_to_row (viewer_model v))
               (table (viewer_model v))); [exact Hnd | | exact E].
      destruct (viewer_model v). exact Hp.
    + rewrite <- El, <- (drop_remove_nth _ idx i Hnd Hidx).
      unfold labels, drop. clear -Hnd. unfold labels in Hnd.
      induction (dic (viewer_dic v)) as [|[l r] df IH]; [constructor|].
      cbn [map fst] in Hnd. inversion Hnd as [|? ? Hl Hnd']; subst.
      cbn [filter fst]. destruct (negb (l =? i)%Z); [|apply IH, Hnd'].
      cbn [map fst]. constructor; [|apply IH, Hnd'].
      intros Hin. apply Hl. apply in_map_iff in Hin.
      destruct Hin as (x & Ex & Hx). apply filter_In in Hx.
      apply in_map_iff. exists x. tauto.
    + rewrite (drop_remove_nth _ idx i Hnd Hidx) in Hc1. exact Hc1.
  - split; [split|split]; assumption.
Qed.

Lemma run_viewer_sound (ops : list viewer_op) :
  forall v, sound v -> sound (run_viewer v ops).
Proof.
  induction ops as [|[t | i] ops IH]; intros v H; cbn [run_viewer].
  - exact H.
  - apply IH, append_term_sound, H.
  - apply IH, remove_term_by_id_sound, H.
Qed.

(** *** The table of a new viewer *)

Lemma filter_label_unique (df : frame) (i : Z) (r : row) :
  NoDup (labels df) -> In (i, r) df ->
  filter (fun lr => (fst lr =? i)%Z) df = [(i, r)].
Proof.
  induction df as [|[l x] df IH]; intros Hnd Hin; [destruct Hin|].
  cbn [labels map fst] in Hnd. inversion Hnd as [|? ? Hl Hnd']; subst.
  cbn [filter fst]. destruct Hin as [E | Hin].
  - injection E as -> ->. rewrite Z.eqb_refl. f_equal.
    assert (D : drop df i = df) by (apply drop_absent, Hl).
    clear -Hl. induction df as [|[l x] df IH]; [reflexivity|].
    cbn [filter fst]. destruct (Z.eqb_spec l i) as [-> | _].
    + exfalso. apply Hl. left. reflexivity.
    + apply IH. intros H. apply Hl. right. exact H.
  - destruct (Z.eqb_spec l i) as [-> | _].
    + exfalso. apply Hl. apply in_map_iff. exists (i, r). auto.
    + apply (IH Hnd' Hin).
Qed.

Lemma new_Term_fields (U : Unicode) (j k a b ty : str) (p : Z) (t : Term) :
  new_Term U j k a b ty p = Ok t ->
  t = {| jp := j; kana := k; div0 := a; div1 := b; term_type := ty;
         pri := p |}.
Proof.
  unfold new_Term.
  destruct (is_valid U _ 0) as [[|]|e]; cbn [bind negb]; try discriminate.
  destruct (is_valid U _ 1) as [[|]|e]; cbn [bind negb]; try discriminate.
  intros H. injection H as <-. reflexivity.
Qed.

Lemma get_term_row (U : Unicode) (d : Dictionary) (i : Z) (r : row)
    (t : Term) :
  NoDup (labels (dic d)) -> In (i, r) (dic d) ->
  get_term U d i = Ok t -> to_dict t = r.
Proof.
  intros Hnd Hin. unfold get_term.
  destruct (has_label (dic d) i); cbn [negb]; [|discriminate].
  rewrite (filter_label_unique _ i r Hnd Hin).
  intros H. apply new_Term_fields in H. subst t. destruct r. reflexivity.
Qed.

Lemma update_rows_in_step (U : Unicode) (d : Dictionary) :
  NoDup (labels (dic d)) ->
  forall suf pre m m',
  dic d = pre ++ suf ->
  shown m = pre -> places m (labels pre) ->
  update_rows U d (labels suf) (length pre) m = Ok m' ->
  shown m' = dic d /\ places m' (labels (dic d)).
Proof.
  intros Hnd. induction suf as [|[idx r] suf IH];
    intros pre m m' Hd Hs Hp H; cbn [labels map fst update_rows] in H.
  - injection H as <-. rewrite app_nil_r in Hd. subst pre. split; assumption.
  - destruct (get_term U d idx) as [term|e] eqn:G; cbn [bind] in H;
      [|discriminate].
    assert (Er : to_dict term = r).
    { apply (get_term_row U d idx r term Hnd); [|exact G].
      rewrite Hd. apply in_or_app. right. left. reflexivity. }
    assert (Hfresh : ~ In idx (labels pre)).
    { intros Hin. unfold labels in Hnd. rewrite Hd, map_app in Hnd.
      cbn [map fst] in Hnd. apply NoDup_remove_2 in Hnd.
      apply Hnd. apply in_or_app. left. exact Hin. }
    apply (IH (pre ++ [(idx, r)])
              {| table := table m ++ [(idx, term)];
                 id_to_row := dict_set (id_to_row m) idx (length pre) |} m').
    + rewrite <- app_assoc. exact Hd.
    + unfold shown. cbn [table]. rewrite map_app. cbn [map fst snd].
      rewrite Er. f_equal. exact Hs.
    + unfold labels. rewrite map_app. cbn [map fst].
      replace (length pre) with (length (map fst pre)) by apply length_map.
      apply (places_set (id_to_row m) (table m)); [|exact Hfresh].
      destruct m. exact Hp.
    + rewrite length_app. cbn [length].
      replace (length pre + 1) with (S (length pre)) by lia. exact H.
Qed.

(** X16. The table of the viewer stays in step with its dictionary: for
    a viewer opened on a dictionary whose ids are distinct, after any
    calls of [append_term] and [remove_term_by_id] the table shows the
    rows of the dictionary, in order, and [_id_to_row] sends each id to
    the place of its row and nothing else anywhere. *)
Theorem viewer_table_in_step (U : Unicode) (df : frame) (v : DicViewer)
    (ops : list viewer_op) :
  NoDup (labels df) ->
  DicViewer_init U (Dictionary_init df) = Ok v ->
  shown (viewer_model (run_viewer v ops)) = dic (viewer_dic (run_viewer v ops))
  /\ places (viewer_model (run_viewer v ops))
            (labels (dic (viewer_dic (run_viewer v ops)))).
Proof.
  intros Hnd H. apply run_viewer_sound. unfold DicViewer_init in H.
  destruct (update_by_Dictionary U (Dictionary_init df)) as [m|e] eqn:E;
    cbn [bind] in H; [|discriminate].
  injection H as <-. unfold sound, in_step. cbn [viewer_dic viewer_model].
  split; [|split; [exact Hnd | apply Dictionary_init_counter_above]].
  unfold update_by_Dictionary in E.
  apply (update_rows_in_step U (Dictionary_init df) Hnd
           (dic (Dictionary_init df)) [] {| table := []; id_to_row := [] |} m);
    try reflexivity.
  - intros i k. cbn. destruct k; split; discriminate.
  - exact E.
Qed.

Lemma viewer_table_in_step_witness :
  shown (viewer_model (run_viewer travel_viewer travel_session))
  = dic (viewer_dic (run_viewer travel_viewer travel_session))
  /\ places (viewer_model (run_viewer travel_viewer travel_session))
            (labels (dic (viewer_dic (run_viewer travel_viewer travel_session)))).
Proof.
  apply (viewer_table_in_step ucd
           [(0%Z, tokyo_rival); (1%Z, tokyo); (2%Z, kyoto)]
           travel_viewer travel_session).
  - repeat constructor; simpl; intuition discriminate.
  - vm_compute. reflexivity.
Defined.

(* ------------------------------------------------------------------------- *)
(** ** auto_divide: the candidates spell the word *)

Lemma strip_app (a b : str) : strip (a ++ b) = strip a ++ strip b.
Proof. apply filter_app. Qed.

Lemma strip_concat (l : list str) : strip (concat l) = concat (map strip l).
Proof.
  induction l as [|x l IH]; [reflexivity|].
  cbn [concat map]. rewrite strip_app, IH. reflexivity.
Qed.

Lemma strip_join (sep : str) (l : list str) :
  strip sep = [] -> strip (join sep l) = concat (map strip l).
Proof.
  intros Hs. induction l as [|x l IH]; [reflexivity|].
  destruct l as [|y l].
  - cbn [join map concat]. rewrite app_nil_r. reflexivity.
  - change (join sep (x :: y :: l)) with (x ++ sep ++ join sep (y :: l)).
    rewrite !strip_app, Hs, IH. reflexivity.
Qed.

Lemma strip_zip_join (combo : list str) :
  Forall (fun x => strip x = []) combo ->
  forall s, strip (zip_join s combo) = strip s.
Proof.
  induction 1 as [|x combo Hx Hc IH]; intros s.
  - destruct s; reflexivity.
  - destruct s as [|c s]; cbn [zip_join].
    + cbn [concat]. rewrite strip_app, Hx. cbn [app].
      specialize (IH []). cbn [zip_join] in IH. exact IH.
    + change (c :: x ++ zip_join s combo) with ([c] ++ x ++ zip_join s combo).
      rewrite !strip_app, Hx, IH. cbn [app].
      change (c :: s) with ([c] ++ s). rewrite strip_app. reflexivity.
Qed.

Lemma repeat_pool_combo {A} (pool : list A) (n : nat) (combo : list A) :
  In combo (product (repeat pool n)) -> Forall (fun x => In x pool) combo.
Proof.
  intros H. apply product_In in H. revert combo H.
  induction n as [|n IH]; intros combo H; cbn [repeat] in H;
    inversion H; subst; constructor; auto.
Qed.

Lemma separator_combo (n : nat) (combo : list str) :
  In combo (product (repeat [u "/"; u "/\"; []] n)) ->
  Forall (fun x => strip x = []) combo.
Proof.
  intros H. apply repeat_pool_combo in H.
  eapply Forall_impl; [|exact H]. cbn beta.
  intros x [<- | [<- | [<- | []]]]; reflexivity.
Qed.

Lemma fill_in_Forall (P : str -> Prop) (fill : str) (positions : list nat) :
  P fill -> forall indices origin,
  Forall P origin -> Forall P (fill_in positions indices fill origin).
Proof.
  intros Hf. induction positions as [|i rest IH]; intros indices origin Ho;
    cbn [fill_in]; [constructor|].
  destruct (existsb (Nat.eqb i) indices).
  - constructor; [exact Hf | apply IH, Ho].
  - destruct origin as [|x origin]; [constructor|].
    inversion Ho; subst. constructor; [assumption | apply IH; assumption].
Qed.

Lemma generate_insertions_Forall (P : str -> Prop) (origin : list str)
    (fill : str) (k : nat) (r : list str) :
  P fill -> Forall P origin -> In r (generate_insertions origin fill k) ->
  Forall P r.
Proof.
  intros Hf Ho H. unfold generate_insertions in H.
  apply in_map_iff in H. destruct H as (ind & <- & _).
  apply fill_in_Forall; assumption.
Qed.

Lemma placement_spells (jp_gokan jp_choice kana_gokan : str)
    (kana_combo : list str) (q : quad) :
  strip jp_choice = strip jp_gokan ->
  Forall (fun x => strip x = []) kana_combo ->
  placement jp_choice kana_gokan kana_combo = Some q ->
  spells jp_gokan kana_gokan q.
Proof.
  unfold placement. cbv zeta. intros Hj Hk H.
  destruct (negb _); [discriminate|]. injection H as H. subst q.
  split; [exact Hj|]. cbn [kana_of fst snd]. apply strip_zip_join, Hk.
Qed.

Lemma placements_loop_spells (jp_gokan jp_choice kana_gokan : str)
    (kana_combos : list (list str)) :
  strip jp_choice = strip jp_gokan ->
  Forall (Forall (fun x => strip x = [])) kana_combos ->
  forall choices choices',
    Forall (spells jp_gokan kana_gokan) choices ->
    placements_loop jp_choice kana_gokan kana_combos choices = Some choices' ->
    Forall (spells jp_gokan kana_gokan) choices'.
Proof.
  intros Hj. induction 1 as [|kc rest Hkc _ IH]; cbn [placements_loop];
    intros choices choices' HF H.
  - injection H as <-. exact HF.
  - destruct (placement jp_choice kana_gokan kc) as [q|] eqn:E;
      [|discriminate].
    apply (IH _ _ (proj2 (Forall_app _ _ _)
                     (conj HF (Forall_cons _
                                 (placement_spells _ _ _ _ _ Hj Hkc E)
                                 (Forall_nil _)))) H).
Qed.

Lemma combos_loop_spells (jp_gokan kana_gokan : str)
    (combos : list (list str)) :
  Forall (Forall (fun x => strip x = [])) combos ->
  forall choices choices',
    Forall (spells jp_gokan kana_gokan) choices ->
    combos_loop jp_gokan kana_gokan combos choices = Ok (Choices choices') ->
    Forall (spells jp_gokan kana_gokan) choices'.
Proof.
  induction 1 as [|combo rest Hc _ IH]; cbn [combos_loop];
    intros choices choices' HF H.
  - injection H as <-. exact HF.
  - destruct (Nat.leb CAP (length choices)); [discriminate|].
    destruct (Nat.ltb 1 _); [exact (IH _ _ HF H)|].
    destruct (Nat.ltb (length kana_gokan) (length jp_gokan)).
    + refine (IH _ _ _ H). apply Forall_app. split; [exact HF|].
      constructor; [|constructor]. split; reflexivity.
    + destruct (placements_loop _ _ _ choices) as [choices1|] eqn:E;
        [|discriminate].
      refine (IH _ _ _ H).
      apply (placements_loop_spells jp_gokan _ kana_gokan _
               (strip_zip_join combo Hc jp_gokan)) with (choices := choices)
        (3 := E); [|exact HF].
      apply Forall_forall. intros r Hr.
      apply (generate_insertions_Forall _ combo [] _ r eq_refl Hc Hr).
Qed.

Lemma run_choices_spells (jp_gokan kana_gokan : str) (choices : list quad) :
  run_choices jp_gokan kana_gokan = Ok (Choices choices) ->
  Forall (spells jp_gokan kana_gokan) choices.
Proof.
  unfold run_choices. destruct (Nat.eqb _ 0).
  - intros H. injection H as <-. constructor; [|constructor].
    split; reflexivity.
  - apply combos_loop_spells; [|constructor].
    apply Forall_forall. intros combo Hc. apply (separator_combo _ _ Hc).
Qed.

(** The parts, run by run: the runs are read by the texts [kana_gokan_list]
    holds from place [i] on. *)
Lemma parts_loop_spells (jp_gokan_list : list (str * bool))
    (kana_gokan_list : list str) :
  forall i part_list,
    parts_loop jp_gokan_list kana_gokan_list i = Ok (Some part_list) ->
    exists kgs,
      firstn (length jp_gokan_list) (skipn i kana_gokan_list) = kgs
      /\ length kgs = length jp_gokan_list
      /\ Forall2 (fun run_kg part =>
                    Forall (spells (fst (fst run_kg)) (snd run_kg)) part)
                 (combine jp_gokan_list kgs) part_list.
Proof.
  induction jp_gokan_list as [|[jg flag] rest IH]; cbn [parts_loop];
    intros i parts H.
  - injection H as <-. exists []. repeat split. constructor.
  - unfold idx in H.
    destruct (nth_error kana_gokan_list i) as [kg|] eqn:En; cbn [bind] in H;
      [|discriminate].
    assert (Es : skipn i kana_gokan_list = kg :: skipn (S i) kana_gokan_list).
    { clear -En. revert i En.
      induction kana_gokan_list as [|x l IHl]; intros [|i] En;
        try discriminate.
      - injection En as ->. reflexivity.
      - cbn [nth_error] in En. cbn [skipn]. rewrite (IHl i En).
        reflexivity. }
    assert (Hstep : forall part more,
              parts_loop rest kana_gokan_list (S i) = Ok (Some more) ->
              Forall (spells jg kg) part ->
              exists kgs,
                firstn (length ((jg, flag) :: rest)) (skipn i kana_gokan_list)
                = kgs
                /\ length kgs = length ((jg, flag) :: rest)
                /\ Forall2 (fun run_kg part =>
                              Forall (spells (fst (fst run_kg)) (snd run_kg))
                                     part)
                           (combine ((jg, flag) :: rest) kgs) (part :: more)).
    { intros part more Em Hp. destruct (IH _ _ Em) as (kgs & E1 & E2 & E3).
      exists (kg :: kgs). rewrite Es. cbn [length firstn combine].
      rewrite E1, E2. repeat split. constructor; [exact Hp | exact E3]. }
    destruct flag.
    + destruct (parts_loop rest kana_gokan_list (S i)) as [[more|]|e] eqn:E;
        cbn [bind option_map] in H; try discriminate.
      injection H as <-. apply (Hstep _ _ eq_refl).
      constructor; [|constructor]. split; reflexivity.
    + destruct (run_choices jg kg) as [[choices|]|e] eqn:Er; cbn [bind] in H;
        try discriminate.
      destruct (parts_loop rest kana_gokan_list (S i)) as [[more|]|e] eqn:E;
        cbn [bind option_map] in H; try discriminate.
      injection H as <-. apply (Hstep _ _ eq_refl).
      exact (run_choices_spells _ _ _ Er).
Qed.

Lemma combo_spells (runs : list (str * bool * str)) :
  forall part_list combo,
    Forall2 (fun run_kg part =>
               Forall (spells (fst (fst run_kg)) (snd run_kg)) part)
            runs part_list ->
    Forall2 (fun x pool => In x pool) combo (map (dedupe []) part_list) ->
    concat (map strip (map jp_of combo))
    = concat (map strip (map fst (map fst runs)))
    /\ concat (map strip (map kana_of combo))
       = concat (map strip (map snd runs)).
Proof.
  induction runs as [|run rest IH]; intros parts combo HP HC.
  - inversion HP; subst. inversion HC; subst. split; reflexivity.
  - inversion HP as [|r part rest' parts' Hpart Hrest]; subst.
    cbn [map] in HC. inversion HC as [|q pool combo' pools' Hq Hcombo]; subst.
    destruct (IH _ _ Hrest Hcombo) as [IH1 IH2].
    pose proof (dedupe_Forall _ part [] Hpart) as HF.
    rewrite Forall_forall in HF. destruct (HF _ Hq) as [S1 S2].
    cbn [map concat]. rewrite S1, S2, IH1, IH2. split; reflexivity.
Qed.

Lemma runs_loop_concat (rest : str) :
  forall current flag,
    concat (map fst (runs_loop current flag rest)) = current ++ rest.
Proof.
  induction rest as [|c t IH]; intros current flag; cbn [runs_loop].
  - cbn [map fst concat]. reflexivity.
  - destruct (Bool.eqb (is_kana c) flag).
    + rewrite IH, <- app_assoc. reflexivity.
    + cbn [map fst concat]. rewrite IH. reflexivity.
Qed.

Lemma map_fst_combine {A B} (l : list A) (l' : list B) :
  length l' = length l -> map fst (combine l l') = l.
Proof.
  revert l'. induction l as [|x l IH]; intros [|y l'] H; try discriminate;
    [reflexivity|].
  cbn [combine map fst]. rewrite IH; [reflexivity | cbn in H; lia].
Qed.

Lemma map_snd_combine {A B} (l : list A) (l' : list B) :
  length l' = length l -> map snd (combine l l') = l'.
Proof.
  revert l'. induction l as [|x l IH]; intros [|y l'] H; try discriminate;
    [reflexivity|].
  cbn [combine map snd]. rewrite IH; [reflexivity | cbn in H; lia].
Qed.

Lemma serialize_strip (gobi : option (str * str)) (combo : list quad) :
  strip (jp_of (serialize gobi combo))
  = concat (map strip (map jp_of combo))
    ++ match gobi with Some g => strip (fst g) | None => [] end
  /\ strip (kana_of (serialize gobi combo))
     = concat (map strip (map kana_of combo))
       ++ match gobi with Some g => strip (snd g) | None => [] end.
Proof.
  unfold serialize, jp_of, kana_of. destruct gobi as [[g g']|]; cbn [fst snd].
  - rewrite !strip_app, !strip_join by reflexivity.
    rewrite !map_map. split; reflexivity.
  - rewrite !strip_join by reflexivity. rewrite !app_nil_r, !map_map.
    split; reflexivity.
Qed.

Lemma serialize_strip' (gobi : option (str * str)) (combo : list quad) :
  strip (jp_of (serialize gobi combo))
  = concat (map strip (map jp_of combo)) ++ strip (gobi_jp gobi)
  /\ strip (kana_of (serialize gobi combo))
     = concat (map strip (map kana_of combo)) ++ strip (gobi_kana gobi).
Proof.
  destruct (serialize_strip gobi combo) as [A B]. rewrite A, B.
  destruct gobi; split; reflexivity.
Qed.

(** The candidates of a stem: the spelling is that of the stem, the reading
    is made of the texts of the groups, one per run. *)
Lemma divide_gokan_spells (U : Unicode) (jp_gokan kana_gokan : str)
    (gobi : option (str * str)) (l : list quad) (q : quad) :
  divide_gokan U jp_gokan kana_gokan gobi = Ok (Some l) -> In q l ->
  exists c0 rest m last kl,
    jp_gokan = c0 :: rest
    /\ re_match U (reading_pattern (runs_loop [c0] (is_kana c0) rest))
         kana_gokan = Ok (Some m)
    /\ lastindex m = Some last
    /\ mapM (group m) (seq 1 last) = Ok kl
    /\ strip (jp_of q) = strip jp_gokan ++ strip (gobi_jp gobi)
    /\ strip (kana_of q)
       = strip (concat (firstn (length (runs_loop [c0] (is_kana c0) rest)) kl))
         ++ strip (gobi_kana gobi).
Proof.
  unfold divide_gokan. destruct jp_gokan as [|c0 rest]; [discriminate|].
  cbv zeta. fold (reading_pattern (runs_loop [c0] (is_kana c0) rest)).
  intros H Hq.
  destruct (re_match U _ kana_gokan) as [[m|]|e] eqn:Em; cbn [bind] in H;
    try discriminate.
  destruct (lastindex m) as [last|] eqn:El; [|discriminate].
  destruct (mapM (group m) (seq 1 last)) as [kl|e] eqn:Ek; cbn [bind] in H;
    [|discriminate].
  destruct (parts_loop _ kl 0) as [[parts|]|e] eqn:E; cbn [bind] in H;
    try discriminate; injection H as <-; [|destruct Hq].
  apply in_map_iff in Hq. destruct Hq as (combo & <- & Hc).
  destruct (parts_loop_spells _ _ _ _ E) as (kgs & E1 & E2 & E3).
  cbn [skipn] in E1.
  destruct (combo_spells _ _ _ E3 (product_In _ _ Hc)) as [C1 C2].
  rewrite (map_fst_combine _ _ E2) in C1.
  rewrite (map_snd_combine _ _ E2) in C2.
  destruct (serialize_strip' gobi combo) as [S1 S2].
  exists c0, rest, m, last, kl.
  split; [reflexivity|]. split; [exact Em|]. split; [exact El|].
  split; [exact Ek|]. split.
  - rewrite S1, C1, <- strip_concat, runs_loop_concat. reflexivity.
  - rewrite S2, C2, <- strip_concat, E1. reflexivity.
Qed.

(** *** The spelling *)

Lemma is_jp_char_plain (U : Unicode) (c : N) :
  marks_no_digits U = true -> is_jp_char U c = true ->
  is_separator c = false /\ (c =? ch "$")%N = false /\ (c =? 10)%N = false.
Proof.
  unfold marks_no_digits. cbn [forallb]. intros H Hc.
  repeat (apply andb_true_iff in H; destruct H as [?H H]).
  apply negb_true_iff in H0, H1, H2, H3, H4.
  assert (K : forall x, isdigit U x = false ->
                is_jp_char U x = is_cjk_unified x || is_kana x
                                 || mem x [ch "."; ch "-"; ch "+"]).
  { intros x Hx. unfold is_jp_char. rewrite Hx, orb_false_r. reflexivity. }
  unfold is_separator, mem, SEPARATORS. cbn [existsb].
  repeat split.
  - destruct (N.eqb_spec c (ch "/")) as [-> | _];
      [rewrite (K _ H0) in Hc; discriminate Hc|].
    destruct (N.eqb_spec c (ch "\")) as [-> | _];
      [rewrite (K _ H1) in Hc; discriminate Hc|].
    destruct (N.eqb_spec c (ch "*")) as [-> | _];
      [rewrite (K _ H2) in Hc; discriminate Hc|].
    reflexivity.
  - destruct (N.eqb_spec c (ch "$")) as [-> | _];
      [rewrite (K _ H3) in Hc; discriminate Hc | reflexivity].
  - destruct (N.eqb_spec c 10%N) as [-> | _];
      [rewrite (K _ H4) in Hc; discriminate Hc | reflexivity].
Qed.

Lemma is_jp_str_plain (U : Unicode) (s : str) :
  marks_no_digits U = true -> is_jp_str U s = true ->
  strip s = s /\ no_dollar s = true /\ no_line_break s = true.
Proof.
  intros HU. unfold is_jp_str. induction s as [|c s IH]; intros H.
  - repeat split.
  - cbn [forallb] in H. apply andb_true_iff in H. destruct H as [Hc Hs].
    destruct (is_jp_char_plain U c HU Hc) as (A & B & C).
    destruct (IH Hs) as (IH1 & IH2 & IH3).
    unfold strip, no_dollar, no_line_break in *. cbn [filter forallb].
    rewrite A, B, C, IH1, IH2, IH3. repeat split.
Qed.

Lemma no_dollar_strip (s : str) :
  no_dollar (strip s) = true -> no_dollar s = true.
Proof.
  unfold no_dollar, strip. induction s as [|c s IH]; [reflexivity|].
  cbn [filter forallb]. destruct (is_separator c) eqn:E; cbn [negb].
  - intros H. rewrite (IH H), andb_true_r.
    unfold is_separator, mem, SEPARATORS in E. cbn [existsb] in E.
    destruct (N.eqb_spec c (ch "$")) as [-> | _]; [discriminate E|].
    reflexivity.
  - cbn [forallb]. intros H. apply andb_true_iff in H. destruct H as [H1 H2].
    rewrite H1, (IH H2). reflexivity.
Qed.

Lemma remove_seps_strip (U : Unicode) (s : str) :
  no_dollar s = true -> remove_seps U s = strip s.
Proof. intros H. apply (remove_seps_filter U s H). Qed.

(** X17. Every candidate [auto_divide] returns spells the word: its
    spelling without the separators is the spelling given without them;
    and for every type but the English one, where no separator, [$] or line
    break counts as a digit, [remove_seps] of the candidate's spelling is
    the spelling given. *)
Theorem auto_divide_spells_spelling (U : Unicode) (jp' kana' ty : str)
    (l : list quad) (q : quad) :
  auto_divide U jp' kana' ty = Ok (Some l) -> In q l ->
  strip (jp_of q) = strip jp'
  /\ (ty <> EIGO -> marks_no_digits U = true ->
      remove_seps U (jp_of q) = jp').
Proof.
  intros H Hq.
  assert (Hmain : strip (jp_of q) = strip jp'
                  /\ (ty <> EIGO -> is_jp_str U jp' = true)).
  { unfold auto_divide in H.
    destruct (_ || _) eqn:Elen; [discriminate|].
    assert (Hsplit : forall n ok,
               split_gobi U n ok jp' kana' = Ok (Some l) ->
               strip (jp_of q) = strip jp').
    { intros n ok Hs. unfold split_gobi in Hs.
      match type of Hs with
      | (if ?c then _ else _) = _ => destruct c; [discriminate|]
      end.
      destruct (divide_gokan_spells _ _ _ _ _ _ Hs Hq)
        as (c0 & rest & m & last & kl & _ & _ & _ & _ & S & _).
      rewrite S. cbn [gobi_jp fst]. rewrite <- strip_app.
      unfold drop_last, take_last. rewrite firstn_skipn. reflexivity. }
    assert (Hplain : divide_gokan U jp' kana' None = Ok (Some l) ->
               strip (jp_of q) = strip jp').
    { intros Hd.
      destruct (divide_gokan_spells _ _ _ _ _ _ Hd Hq)
        as (c0 & rest & m & last & kl & _ & _ & _ & _ & S & _).
      rewrite S. cbn [gobi_jp]. apply app_nil_r. }
    destruct (str_mem ty [EIGO; KOYUU]) eqn:Em; cbn [negb andb] in H.
    - (* english or a proper noun *)
      apply str_mem_In in Em.
      assert (Nt : forall x, In x [GODAN; JOUGE; SAHEN; KAHEN; KEIYOU; MEISHI]
                             -> str_eqb ty x = false).
      { intros x Hx. apply str_eqb_neq. intros ->.
        destruct Em as [E | [E | []]];
          repeat (destruct Hx as [<- | Hx]; [discriminate E|]);
          destruct Hx. }
      rewrite !Nt in H by (simpl; auto 10).
      destruct (str_eqb ty KOYUU) eqn:Ek.
      + destruct (is_jp_str U jp' && is_jp_str U kana') eqn:Ej;
          cbn [negb] in H; [|discriminate].
        apply andb_true_iff in Ej. split; [exact (Hplain H) | tauto].
      + destruct (str_eqb ty EIGO) eqn:Ee; [|discriminate].
        injection H as <-. destruct Hq as [<- | []].
        split; [reflexivity|]. apply str_eqb_eq in Ee. congruence.
    - destruct (is_jp_str U jp' && is_jp_str U kana') eqn:Ej;
        cbn [negb] in H; [|discriminate].
      apply andb_true_iff in Ej. split; [|tauto].
      destruct (str_eqb ty GODAN); [exact (Hsplit _ _ H)|].
      destruct (str_eqb ty JOUGE); [exact (Hsplit _ _ H)|].
      destruct (str_eqb ty SAHEN); [exact (Hsplit _ _ H)|].
      destruct (str_eqb ty KAHEN).
      { destruct (negb (str_eqb jp' (u "来る"))) eqn:E1; cbn [orb] in H;
          [discriminate|].
        destruct (negb (str_eqb kana' (u "くる"))); [discriminate|].
        injection H as <-. destruct Hq as [<- | []].
        apply negb_false_iff, str_eqb_eq in E1. subst jp'. reflexivity. }
      destruct (str_eqb ty KEIYOU); [exact (Hsplit _ _ H)|].
      destruct (str_eqb ty MEISHI); [exact (Hplain H)|].
      destruct (str_eqb ty KOYUU); [exact (Hplain H)|].
      destruct (str_eqb ty EIGO); [|discriminate H].
      injection H as <-. destruct Hq as [<- | []]. reflexivity. }
  destruct Hmain as [Hs Hj]. split; [exact Hs|].
  intros Hne HU. destruct (is_jp_str_plain U jp' HU (Hj Hne)) as (A & B & _).
  rewrite remove_seps_strip.
  - rewrite Hs. exact A.
  - apply no_dollar_strip. rewrite Hs, A. exact B.
Qed.

Lemma auto_divide_spells_spelling_witness :
  strip (jp_of (u "草/\臥/\れ*る", u "くた/\び/\れ*る", u "0/0/-1*-1",
                u "0\0\-1*-1")) = strip (u "草臥れる")
  /\ (JOUGE <> EIGO -> marks_no_digits ucd = true ->
      remove_seps ucd (jp_of (u "草/\臥/\れ*る", u "くた/\び/\れ*る",
                              u "0/0/-1*-1", u "0\0\-1*-1"))
      = u "草臥れる").
Proof.
  refine (auto_divide_spells_spelling ucd (u "草臥れる") (u "くたびれる") JOUGE
            _ (u "草/\臥/\れ*る", u "くた/\び/\れ*る", u "0/0/-1*-1",
               u "0\0\-1*-1") _ _).
  - vm_compute. reflexivity.
  - vm_compute. right. right. left. reflexivity.
Defined.

(* ------------------------------------------------------------------------- *)
(** ** auto_divide: the candidates read as the word *)

Lemma kana_not_meta (c : N) : is_kana c = true -> mem c METAS = false.
Proof.
  intros H.
  assert (L : (12353 <= c)%N).
  { unfold is_kana, is_hiragana, is_katakana in H.
    repeat (apply orb_true_iff in H; destruct H as [H | H]);
      repeat (apply andb_true_iff in H; destruct H as [?H H]);
      try apply N.leb_le in H0; try apply N.eqb_eq in H; lia. }
  unfold mem, METAS. cbn [existsb].
  repeat (apply orb_false_iff; split); try reflexivity;
    apply N.eqb_neq; intros ->; vm_compute in L; congruence.
Qed.

Lemma not_meta (c : N) :
  mem c METAS = false ->
  (c =? ch "(")%N = false /\ (c =? ch ")")%N = false
  /\ (c =? ch "|")%N = false /\ (c =? ch "*")%N = false
  /\ (c =? ch "+")%N = false /\ (c =? ch "?")%N = false
  /\ (c =? ch "{")%N = false /\ (c =? ch "^")%N = false
  /\ (c =? ch "$")%N = false /\ (c =? ch "[")%N = false
  /\ (c =? ch "\")%N = false /\ (c =? ch ".")%N = false.
Proof.
  unfold mem, METAS. cbn [existsb]. intros H.
  repeat (apply orb_false_iff in H; destruct H as [?H H]).
  repeat split; assumption.
Qed.

Lemma parse_quantifier_none (a : atom) (s : str) :
  unquantified s = true -> parse_quantifier a s = Ok (RAtom a, s).
Proof.
  destruct s as [|q t]; [reflexivity|]. cbn [unquantified parse_quantifier].
  intros H. apply negb_true_iff, orb_false_iff in H. destruct H as [H1 H2].
  rewrite H1, H2. reflexivity.
Qed.

Lemma no_quantifier_none (r : regex) (g : nat) (s : str) :
  unquantified s = true -> no_quantifier r g s = Ok (r, g, s).
Proof.
  destruct s as [|q t]; [reflexivity|]. cbn [unquantified no_quantifier].
  intros H. apply negb_true_iff in H. rewrite H. reflexivity.
Qed.

(** One ordinary character. *)
Lemma parse_item_char (f g : nat) (c : N) (t : str) :
  mem c METAS = false -> unquantified t = true ->
  parse_item (S f) g (c :: t) = Ok (RAtom (AChar c), g, t).
Proof.
  intros Hc Ht.
  destruct (not_meta c Hc)
    as (H1 & H2 & H3 & H4 & H5 & H6 & H7 & H8 & H9 & H10 & H11 & H12).
  cbn [parse_item]. rewrite H1.
  unfold is_quantifier, mem. cbn [existsb]. rewrite H4, H5, H6. cbn [orb].
  rewrite H7, H8, H9, H10, H11, H12.
  rewrite (parse_quantifier_none _ _ Ht). reflexivity.
Qed.

Lemma unquantified_meta_free (c : N) (t : str) :
  mem c METAS = false -> unquantified (c :: t) = true.
Proof.
  intros Hc. destruct (not_meta c Hc)
    as (H1 & H2 & H3 & H4 & H5 & H6 & H7 & H8 & H9 & H10 & H11 & H12).
  cbn [unquantified]. unfold is_quantifier, mem. cbn [existsb].
  rewrite H4, H5, H6, H7. reflexivity.
Qed.

Lemma parse_seq_cons (f g : nat) (c : N) (t : str) :
  parse_seq (S f) g (c :: t)
  = if mem c [ch ")"; ch "|"] then Ok (REmpty, g, c :: t)
    else '(r1, g1, s1) <- parse_item f g (c :: t) ;;
         '(r2, g2, s2) <- parse_seq f g1 s1 ;;
         Ok (RSeq r1 r2, g2, s2).
Proof. reflexivity. Qed.

(** A text of ordinary characters up to a closing parenthesis. *)
Lemma parse_seq_literal (lit : str) :
  forallb (fun c => negb (mem c METAS)) lit = true ->
  forall f g rest,
    length lit < f ->
    parse_seq f g (lit ++ ch ")" :: rest)
    = Ok (literal lit, g, ch ")" :: rest).
Proof.
  induction lit as [|c lit IH]; intros Hl f g rest Hf.
  - destruct f as [|f]; [simpl in Hf; lia|]. reflexivity.
  - cbn [forallb] in Hl. apply andb_true_iff in Hl. destruct Hl as [Hc Hl].
    apply negb_true_iff in Hc.
    destruct f as [|f]; [simpl in Hf; lia|].
    destruct f as [|f]; [simpl in Hf; lia|].
    cbn [app]. rewrite parse_seq_cons.
    assert (Hm : mem c [ch ")"; ch "|"] = false).
    { destruct (not_meta c Hc) as (_ & H2 & H3 & _).
      unfold mem. cbn [existsb]. rewrite H2, H3. reflexivity. }
    rewrite Hm.
    rewrite parse_item_char.
    + cbn [bind]. rewrite (IH Hl (S f) g rest) by (simpl in Hf; lia).
      reflexivity.
    + exact Hc.
    + destruct lit as [|c' lit']; [reflexivity|].
      cbn [forallb] in Hl. apply andb_true_iff in Hl.
      apply unquantified_meta_free, negb_true_iff, Hl.
Qed.

Lemma parse_alt_step (f g : nat) (s : str) :
  parse_alt (S f) g s
  = '(r1, g1, s1) <- parse_seq f g s ;;
    match s1 with
    | c :: s2 =>
      if (c =? ch "|")%N
      then '(r2, g2, s3) <- parse_alt f g1 s2 ;; Ok (RAlt r1 r2, g2, s3)
      else Ok (r1, g1, s1)
    | [] => Ok (r1, g1, s1)
    end.
Proof. reflexivity. Qed.

Lemma parse_item_open (f g : nat) (q : N) (t : str) :
  (q =? ch "?")%N = false ->
  parse_item (S f) g (ch "(" :: q :: t)
  = '(r, g1, s1) <- parse_alt f (S g) (q :: t) ;;
    expect_close (RGroup (S g) r) g1 s1.
Proof.
  intros H. cbn [parse_item].
  change (ch "(" =? ch "(")%N with true. cbv iota. rewrite H. reflexivity.
Qed.

(** The group of a kana run. *)
Lemma parse_item_literal_group (lit : str) (f g : nat) (rest : str) :
  lit <> [] -> forallb (fun c => negb (mem c METAS)) lit = true ->
  length lit + 2 < f -> unquantified rest = true ->
  parse_item f g (ch "(" :: lit ++ ch ")" :: rest)
  = Ok (RGroup (S g) (literal lit), S g, rest).
Proof.
  intros Hne Hl Hf Hr.
  destruct f as [|f]; [lia|]. destruct f as [|f]; [lia|].
  destruct lit as [|c lit]; [congruence|].
  pose proof Hl as Hl'. cbn [forallb] in Hl'.
  apply andb_true_iff in Hl'. destruct Hl' as [Hc _].
  apply negb_true_iff in Hc.
  destruct (not_meta c Hc) as (_ & _ & _ & _ & _ & H6 & _).
  cbn [app]. rewrite (parse_item_open _ _ _ _ H6).
  rewrite parse_alt_step.
  change (c :: lit ++ ch ")" :: rest) with ((c :: lit) ++ ch ")" :: rest).
  rewrite (parse_seq_literal (c :: lit) Hl f (S g) rest)
    by (cbn [length] in Hf |- *; lia).
  cbn [bind]. change (ch ")" =? ch "|")%N with false. cbv iota.
  cbn [expect_close]. change (ch ")" =? ch ")")%N with true. cbv iota.
  apply no_quantifier_none, Hr.
Qed.

(** The group of a run that is not kana. *)
Lemma parse_item_any_group (f g : nat) (rest : str) :
  4 < f -> unquantified rest = true ->
  parse_item f g (u "(.+)" ++ rest)
  = Ok (RGroup (S g) (RSeq (RRep AAny 1 true) REmpty), S g, rest).
Proof.
  intros Hf Hr.
  do 5 (destruct f as [|f]; [lia|]).
  change (u "(.+)" ++ rest)
    with (ch "(" :: ch "." :: ch "+" :: ch ")" :: rest).
  rewrite parse_item_open by reflexivity.
  rewrite parse_alt_step, parse_seq_cons.
  change (mem (ch ".") [ch ")"; ch "|"]) with false. cbv iota.
  assert (E : parse_item (S (S f)) (S g) (ch "." :: ch "+" :: ch ")" :: rest)
              = Ok (RRep AAny 1 true, S g, ch ")" :: rest)) by reflexivity.
  rewrite E. cbn [bind]. rewrite parse_seq_cons.
  change (mem (ch ")") [ch ")"; ch "|"]) with true. cbv iota. cbn [bind].
  change (ch ")" =? ch "|")%N with false. cbv iota.
  cbn [expect_close]. change (ch ")" =? ch ")")%N with true. cbv iota.
  apply no_quantifier_none, Hr.
Qed.

Lemma run_text_head (run : str * bool) (rest : str) :
  exists t, run_text run ++ rest = ch "(" :: t.
Proof.
  unfold run_text. destruct (snd run); eexists; reflexivity.
Qed.

Lemma runs_text_unquantified (runs : list (str * bool)) :
  unquantified (concat (map run_text runs) ++ u "$") = true.
Proof.
  destruct runs as [|run runs]; [reflexivity|].
  cbn [map concat]. rewrite <- app_assoc.
  destruct (run_text_head run (concat (map run_text runs) ++ u "$")) as [t ->].
  reflexivity.
Qed.

Lemma run_ok_literal (run : str * bool) :
  run_ok run -> snd run = true ->
  fst run <> [] /\ forallb (fun c => negb (mem c METAS)) (fst run) = true.
Proof.
  intros [Hne Hk] Hs. split; [exact Hne|].
  specialize (Hk Hs). rewrite forallb_forall in *. intros c Hc.
  apply negb_true_iff, kana_not_meta, Hk, Hc.
Qed.

(** The groups of the runs, up to the end of the pattern. *)
Lemma parse_seq_runs (runs : list (str * bool)) :
  Forall run_ok runs ->
  forall f g,
    2 * length (concat (map run_text runs)) + 3 <= f ->
    parse_seq f g (concat (map run_text runs) ++ u "$")
    = Ok (run_groups g runs, g + length runs, []).
Proof.
  induction 1 as [|run runs Hrun _ IH]; intros f g Hf.
  - cbn [map concat length] in Hf. do 3 (destruct f as [|f]; [lia|]).
    rewrite Nat.add_0_r. reflexivity.
  - cbn [map concat] in *. rewrite length_app in Hf. rewrite <- app_assoc.
    destruct f as [|f]; [lia|].
    destruct (run_text_head run (concat (map run_text runs) ++ u "$"))
      as [t Et].
    rewrite Et, parse_seq_cons, <- Et.
    change (mem (ch "(") [ch ")"; ch "|"]) with false. cbv iota.
    assert (Ei : parse_item f g
                   (run_text run ++ concat (map run_text runs) ++ u "$")
                 = Ok (run_group (S g) run, S g,
                       concat (map run_text runs) ++ u "$")).
    { unfold run_text, run_group in *. destruct (snd run) eqn:Es.
      - destruct (run_ok_literal run Hrun Es) as [Hne Hl].
        change (u "(" ++ fst run ++ u ")") with (ch "(" :: fst run ++ [ch ")"])
          in *.
        cbn [app]. rewrite <- app_assoc. cbn [app].
        apply parse_item_literal_group; try assumption.
        + cbn [length] in Hf. rewrite length_app in Hf. cbn [length] in Hf. lia.
        + apply runs_text_unquantified.
      - apply parse_item_any_group; [|apply runs_text_unquantified].
        change (length (u "(.+)")) with 4 in Hf. lia. }
    rewrite Ei. cbn [bind].
    rewrite (IH f (S g)).
    + cbn [bind run_groups length].
      replace (g + S (length runs)) with (S g + length runs) by lia.
      reflexivity.
    + assert (2 <= length (run_text run)).
      { unfold run_text. destruct (snd run); [|cbn; lia].
        rewrite !length_app. cbn. lia. }
      lia.
Qed.

(** [re.compile] of the pattern of the reading. *)
Lemma re_compile_reading_pattern (runs : list (str * bool)) :
  Forall run_ok runs ->
  re_compile (reading_pattern runs) = Ok (RSeq RBol (run_groups 0 runs)).
Proof.
  intros H. unfold re_compile, reading_pattern.
  fold run_text.
  change (map (fun gokan_token : str * bool =>
                 if snd gokan_token then u "(" ++ fst gokan_token ++ u ")"
                 else u "(.+)") runs) with (map run_text runs).
  set (body := concat (map run_text runs)).
  change (u "^" ++ body ++ u "$") with (ch "^" :: body ++ u "$").
  cbn [length]. rewrite length_app.
  change (length (u "$")) with 1.
  replace (4 * S (length body + 1) + 4) with (S (S (4 * length body + 10)))
    by lia.
  rewrite parse_alt_step, parse_seq_cons.
  change (mem (ch "^") [ch ")"; ch "|"]) with false. cbv iota.
  assert (Ei : parse_item (4 * length body + 10) 0 (ch "^" :: body ++ u "$")
               = Ok (RBol, 0, body ++ u "$")).
  { replace (4 * length body + 10) with (S (4 * length body + 9)) by lia.
    cbn [parse_item].
    change (ch "^" =? ch "(")%N with false.
    change (is_quantifier (ch "^")) with false.
    change (ch "^" =? ch "{")%N with false.
    change (ch "^" =? ch "^")%N with true. cbv iota.
    apply no_quantifier_none. apply runs_text_unquantified. }
  rewrite Ei. cbn [bind].
  rewrite (parse_seq_runs runs H) by (fold body; lia).
  reflexivity.
Qed.

(** *** What a match consumes and captures *)

Lemma rep_all_consumes (U : Unicode) (a : atom) (suf : str) :
  forall pre p s, In (p, s) (rep_all U a pre suf) ->
    exists consumed, p = rev consumed ++ pre /\ suf = consumed ++ s.
Proof.
  induction suf as [|c t IH]; intros pre p s H; cbn [rep_all] in H.
  - destruct H as [E | []]. injection E as <- <-. exists []. split; reflexivity.
  - destruct H as [E | H].
    + injection E as <- <-. exists []. split; reflexivity.
    + destruct (atom_ok U a c); [|destruct H].
      destruct (IH _ _ _ H) as (consumed & -> & ->).
      exists (c :: consumed). cbn [rev]. rewrite <- app_assoc.
      split; reflexivity.
Qed.

Lemma In_of_skipn {A} (n : nat) (l : list A) (x : A) :
  In x (skipn n l) -> In x l.
Proof.
  intros H. rewrite <- (firstn_skipn n l). apply in_or_app. right. exact H.
Qed.

Lemma In_of_firstn {A} (n : nat) (l : list A) (x : A) :
  In x (firstn n l) -> In x l.
Proof.
  intros H. rewrite <- (firstn_skipn n l). apply in_or_app. left. exact H.
Qed.

Lemma In_ways {A} (greedy : bool) (l : list A) (x : A) :
  In x (if greedy then rev l else l) -> In x l.
Proof. destruct greedy; [intros H; apply in_rev, H | auto]. Qed.

(** A match consumes a prefix of the text ahead. *)
Lemma rmatch_consumes (U : Unicode) (r : regex) :
  forall st st', In st' (rmatch U r st) ->
    exists consumed,
      m_pre st' = rev consumed ++ m_pre st
      /\ m_suf st = consumed ++ m_suf st'.
Proof.
  induction r as [ | a | a lo g | a g | r1 IH1 r2 IH2 | r1 IH1 r2 IH2
                   | i r1 IH1 | | | a ]; intros st st' H; cbn [rmatch] in H.
  - destruct H as [<- | []]. exists []. split; reflexivity.
  - destruct (m_suf st) as [|c t] eqn:E; [destruct H|].
    destruct (atom_ok U a c); [|destruct H].
    destruct H as [<- | []]. exists [c]. split; reflexivity.
  - apply in_map_iff in H. destruct H as ([p s] & <- & H).
    apply In_ways, In_of_skipn, rep_all_consumes in H. exact H.
  - apply in_map_iff in H. destruct H as ([p s] & <- & H).
    apply In_ways, In_of_firstn, rep_all_consumes in H. exact H.
  - apply in_flat_map in H. destruct H as (st1 & H1 & H2).
    destruct (IH1 _ _ H1) as (c1 & P1 & S1).
    destruct (IH2 _ _ H2) as (c2 & P2 & S2).
    exists (c1 ++ c2). rewrite P2, P1, S1, S2, rev_app_distr, !app_assoc.
    split; reflexivity.
  - apply in_app_or in H. destruct H as [H | H]; [apply IH1 | apply IH2];
      exact H.
  - apply in_map_iff in H. destruct H as (st1 & <- & H1).
    cbn [m_pre m_suf]. apply IH1, H1.
  - exists []. cbn [rev app].
    destruct (m_pre st) eqn:E; [|destruct H]. destruct H as [<- | []].
    split; [exact E | reflexivity].
  - exists []. cbn [rev app].
    destruct (m_suf st) as [|c [|c' t]] eqn:E; try (destruct H; fail).
    + destruct H as [<- | []]. split; [reflexivity | symmetry; exact E].
    + destruct (c =? 10)%N; [|destruct H]. destruct H as [<- | []].
      split; [reflexivity | symmetry; exact E].
  - exists []. cbn [rev app]. destruct (m_pre st) as [|c t] eqn:E.
    + destruct H as [<- | []]. split; [exact E | reflexivity].
    + destruct (atom_ok U a c); [destruct H|]. destruct H as [<- | []].
      split; [exact E | reflexivity].
Qed.

(** A pattern without groups leaves the groups as they are. *)
Lemma rmatch_groupless (U : Unicode) (r : regex) :
  groupless r = true ->
  forall st st', In st' (rmatch U r st) -> m_caps st' = m_caps st.
Proof.
  induction r as [ | a | a lo g | a g | r1 IH1 r2 IH2 | r1 IH1 r2 IH2
                   | i r1 IH1 | | | a ]; intros G st st' H;
    cbn [rmatch groupless] in *.
  - destruct H as [<- | []]. reflexivity.
  - destruct (m_suf st) as [|c t]; [destruct H|].
    destruct (atom_ok U a c); [|destruct H].
    destruct H as [<- | []]. reflexivity.
  - apply in_map_iff in H. destruct H as (ps & <- & _). reflexivity.
  - apply in_map_iff in H. destruct H as (ps & <- & _). reflexivity.
  - apply andb_true_iff in G. destruct G as [G1 G2].
    apply in_flat_map in H. destruct H as (st1 & H1 & H2).
    rewrite (IH2 G2 _ _ H2). apply (IH1 G1 _ _ H1).
  - apply andb_true_iff in G. destruct G as [G1 G2].
    apply in_app_or in H. destruct H as [H | H];
      [apply (IH1 G1 _ _ H) | apply (IH2 G2 _ _ H)].
  - discriminate.
  - destruct (m_pre st); [|destruct H]. destruct H as [<- | []]. reflexivity.
  - destruct (m_suf st) as [|c [|c' t]]; try (destruct H; fail).
    + destruct H as [<- | []]. reflexivity.
    + destruct (c =? 10)%N; [|destruct H]. destruct H as [<- | []].
      reflexivity.
  - destruct (m_pre st) as [|c t].
    + destruct H as [<- | []]. reflexivity.
    + destruct (atom_ok U a c); [destruct H|]. destruct H as [<- | []].
      reflexivity.
Qed.

Lemma literal_groupless (lit : str) : groupless (literal lit) = true.
Proof. induction lit; [reflexivity | exact IHlit]. Qed.

(** A match of the groups of the runs: one group per run, closed in
    order, and their texts make up what was consumed, which is all of the
    text ahead but a last line break. *)
Lemma rmatch_run_groups (U : Unicode) (runs : list (str * bool)) :
  forall g st st', In st' (rmatch U (run_groups g runs) st) ->
    exists caps_new,
      m_caps st' = caps_new ++ m_caps st
      /\ map fst caps_new = rev (seq (S g) (length runs))
      /\ m_suf st = concat (map snd (rev caps_new)) ++ m_suf st'
      /\ (m_suf st' = [] \/ m_suf st' = [10%N]).
Proof.
  induction runs as [|run runs IH]; intros g st st' H; cbn [run_groups] in H.
  - exists []. cbn [rmatch flat_map] in H.
    destruct (m_suf st) as [|c [|c' t]] eqn:E; try (destruct H; fail).
    + cbn [flat_map app] in H. destruct H as [<- | []].
      rewrite E. repeat split. left. reflexivity.
    + destruct (N.eqb_spec c 10) as [-> | _]; [|destruct H].
      cbn [flat_map app] in H. destruct H as [<- | []].
      rewrite E. repeat split. right. reflexivity.
  - change (rmatch U (RSeq (run_group (S g) run) (run_groups (S g) runs)) st)
      with (flat_map (rmatch U (run_groups (S g) runs))
                     (rmatch U (run_group (S g) run) st)) in H.
    apply in_flat_map in H. destruct H as (st1 & H1 & H2).
    unfold run_group in H1. cbn [rmatch] in H1.
    apply in_map_iff in H1. destruct H1 as (stb & <- & Hb).
    destruct (rmatch_consumes U _ _ _ Hb) as (c1 & P1 & S1).
    assert (Cb : m_caps stb = m_caps st).
    { apply (rmatch_groupless U _) with (2 := Hb).
      destruct (snd run); [apply literal_groupless | reflexivity]. }
    destruct (IH _ _ _ H2) as (new2 & C2 & F2 & S2 & E2).
    cbn [m_caps m_suf] in C2, S2.
    assert (Ec : rev (firstn (length (m_pre stb) - length (m_pre st))
                             (m_pre stb)) = c1).
    { rewrite P1, length_app, length_rev, Nat.add_sub.
      rewrite <- (length_rev c1) at 1.
      rewrite firstn_app, Nat.sub_diag, firstn_all. cbn [firstn].
      rewrite app_nil_r. apply rev_involutive. }
    rewrite Ec, Cb in C2.
    exists (new2 ++ [(S g, c1)]). split; [|split; [|split]].
    + rewrite C2, <- app_assoc. reflexivity.
    + rewrite map_app, F2. cbn [map fst length seq rev]. reflexivity.
    + rewrite rev_app_distr. cbn [rev app map snd concat].
      rewrite S1, S2, <- app_assoc. reflexivity.
    + exact E2.
Qed.

Lemma lookup_group_In (caps : list (nat * str)) (i : nat) (s : str) :
  NoDup (map fst caps) -> In (i, s) caps -> lookup_group i caps = Some s.
Proof.
  induction caps as [|[j x] caps IH]; intros Hnd Hin; [destruct Hin|].
  cbn [map fst] in Hnd. inversion Hnd as [|? ? Hj Hnd']; subst.
  cbn [lookup_group]. destruct Hin as [E | Hin].
  - injection E as -> ->. rewrite Nat.eqb_refl. reflexivity.
  - destruct (Nat.eqb_spec i j) as [-> | _]; [|apply (IH Hnd' Hin)].
    exfalso. apply Hj. apply in_map_iff. exists (j, s). auto.
Qed.

Lemma mapM_group (m : mstate) (l : list (nat * str)) :
  (forall i s, In (i, s) l -> lookup_group i (m_caps m) = Some s) ->
  mapM (group m) (map fst l) = Ok (map snd l).
Proof.
  induction l as [|[i s] l IH]; intros H; [reflexivity|].
  cbn [map fst snd mapM]. unfold group at 1.
  rewrite (H i s (or_introl eq_refl)). cbn [bind].
  rewrite IH by (intros j x Hj; apply H; right; exact Hj). reflexivity.
Qed.

Lemma no_line_break_end (s : str) :
  no_line_break (s ++ [10%N]) = false.
Proof.
  unfold no_line_break. rewrite forallb_app. cbn. apply andb_false_r.
Qed.

(** The groups of a match of the reading: one per run, and together they
    are the reading. *)
Lemma reading_groups (U : Unicode) (runs : list (str * bool))
    (kana_gokan : str) (m : mstate) (last : nat) (kl : list str) :
  Forall run_ok runs -> runs <> [] -> no_line_break kana_gokan = true ->
  re_match U (reading_pattern runs) kana_gokan = Ok (Some m) ->
  lastindex m = Some last ->
  mapM (group m) (seq 1 last) = Ok kl ->
  concat kl = kana_gokan /\ length kl = length runs.
Proof.
  intros Hok Hne Hnl Hm Hl Hk. unfold re_match in Hm.
  rewrite (re_compile_reading_pattern runs Hok) in Hm. cbn [bind] in Hm.
  injection Hm as Hm. unfold match_compiled in Hm.
  assert (Hin : In m (rmatch U (run_groups 0 runs)
                        {| m_pre := []; m_suf := kana_gokan; m_caps := [] |})).
  { cbn [rmatch m_pre flat_map] in Hm. rewrite app_nil_r in Hm.
    destruct (rmatch U (run_groups 0 runs) _) as [|x l]; [discriminate|].
    injection Hm as ->. left. reflexivity. }
  destruct (rmatch_run_groups U runs 0 _ _ Hin) as (caps & C & F & S & E).
  cbn [m_caps m_suf] in C, S. rewrite app_nil_r in C.
  assert (Hlast : last = length runs).
  { unfold lastindex in Hl. rewrite C in Hl.
    destruct runs as [|r0 runs']; [congruence|].
    cbn [length] in F. rewrite seq_S in F. rewrite rev_app_distr in F.
    cbn [rev app] in F. destruct caps as [|[i x] caps']; [discriminate|].
    cbn [map fst] in F. injection F as -> _. injection Hl as <-.
    reflexivity. }
  subst last.
  assert (Hseq : seq 1 (length runs) = map fst (rev caps)).
  { rewrite map_rev, F, rev_involutive. reflexivity. }
  rewrite Hseq in Hk.
  rewrite (mapM_group m (rev caps)) in Hk.
  - injection Hk as <-. split.
    + destruct E as [E | E]; rewrite E in S.
      * rewrite app_nil_r in S. symmetry. exact S.
      * rewrite S, no_line_break_end in Hnl. discriminate.
    + rewrite length_map, length_rev, <- (length_map fst caps), F,
        length_rev, length_seq. reflexivity.
  - intros i s Hi. rewrite C. apply lookup_group_In.
    + rewrite F. apply NoDup_rev, seq_NoDup.
    + apply in_rev, Hi.
Qed.

Lemma runs_loop_ok (rest : str) :
  forall current flag,
    current <> [] -> (flag = true -> forallb is_kana current = true) ->
    Forall run_ok (runs_loop current flag rest)
    /\ runs_loop current flag rest <> [].
Proof.
  induction rest as [|c t IH]; intros current flag Hne Hk; cbn [runs_loop].
  - split; [|discriminate]. constructor; [split; assumption | constructor].
  - destruct (Bool.eqb (is_kana c) flag) eqn:E.
    + apply IH.
      * destruct current; discriminate.
      * intros Hf. rewrite forallb_app, (Hk Hf). cbn [forallb].
        apply eqb_prop in E. rewrite E, Hf. reflexivity.
    + split; [|discriminate]. constructor; [split; assumption|].
      apply IH; [discriminate|]. intros Hf. cbn [forallb]. rewrite Hf.
      reflexivity.
Qed.

Lemma no_line_break_firstn (n : nat) (s : str) :
  no_line_break s = true -> no_line_break (firstn n s) = true.
Proof.
  unfold no_line_break. intros H. rewrite <- (firstn_skipn n s) in H.
  rewrite forallb_app in H. apply andb_true_iff in H. tauto.
Qed.

(** The reading of a candidate of a stem is the reading of the stem, and
    its ending. *)
Lemma divide_gokan_reading (U : Unicode) (jp_gokan kana_gokan : str)
    (gobi : option (str * str)) (l : list quad) (q : quad) :
  divide_gokan U jp_gokan kana_gokan gobi = Ok (Some l) -> In q l ->
  no_line_break kana_gokan = true ->
  strip (kana_of q) = strip kana_gokan ++ strip (gobi_kana gobi).
Proof.
  intros H Hq Hn.
  destruct (divide_gokan_spells U _ _ _ _ _ H Hq)
    as (c0 & rest & m & last & kl & _ & Em & El & Ek & _ & S).
  destruct (runs_loop_ok rest [c0] (is_kana c0)) as [Hok Hne];
    [discriminate | intros Hf; cbn [forallb]; rewrite Hf; reflexivity |].
  destruct (reading_groups U _ _ _ _ _ Hok Hne Hn Em El Ek) as [Ec Elen].
  rewrite S, <- Elen, firstn_all, Ec. reflexivity.
Qed.

(** X18. Every candidate [auto_divide] returns for a type other than the
    English one reads as the word does: where no separator, [$] or line
    break counts as a digit, its reading without the separators, and
    [remove_seps] of its reading, are the reading given. *)
Theorem auto_divide_spells_reading (U : Unicode) (jp' kana' ty : str)
    (l : list quad) (q : quad) :
  auto_divide U jp' kana' ty = Ok (Some l) -> In q l ->
  ty <> EIGO -> marks_no_digits U = true ->
  strip (kana_of q) = kana' /\ remove_seps U (kana_of q) = kana'.
Proof.
  intros H Hq Hne HU.
  assert (Hmain : is_jp_str U kana' = true ->
                  strip (kana_of q) = strip kana').
  { intros Hj. destruct (is_jp_str_plain U kana' HU Hj) as (_ & _ & Hn).
    unfold auto_divide in H.
    destruct (_ || _) eqn:Elen; [discriminate|].
    assert (Hsplit : forall n ok,
               split_gobi U n ok jp' kana' = Ok (Some l) ->
               strip (kana_of q) = strip kana').
    { intros n ok Hs. unfold split_gobi in Hs.
      match type of Hs with
      | (if ?c then _ else _) = _ => destruct c; [discriminate|]
      end.
      rewrite (divide_gokan_reading _ _ _ _ _ _ Hs Hq)
        by (apply no_line_break_firstn, Hn).
      cbn [gobi_kana snd]. rewrite <- strip_app.
      unfold drop_last, take_last. rewrite firstn_skipn. reflexivity. }
    assert (Hplain : divide_gokan U jp' kana' None = Ok (Some l) ->
               strip (kana_of q) = strip kana').
    { intros Hd. rewrite (divide_gokan_reading _ _ _ _ _ _ Hd Hq Hn).
      cbn [gobi_kana]. apply app_nil_r. }
    match type of H with
    | (if ?c then _ else _) = _ => destruct c; [discriminate|]
    end.
    destruct (str_eqb ty GODAN); [exact (Hsplit _ _ H)|].
    destruct (str_eqb ty JOUGE); [exact (Hsplit _ _ H)|].
    destruct (str_eqb ty SAHEN); [exact (Hsplit _ _ H)|].
    destruct (str_eqb ty KAHEN).
    { destruct (negb (str_eqb jp' (u "来る"))); cbn [orb] in H;
        [discriminate|].
      destruct (negb (str_eqb kana' (u "くる"))) eqn:E1; [discriminate|].
      injection H as <-. destruct Hq as [<- | []].
      apply negb_false_iff, str_eqb_eq in E1. subst kana'. reflexivity. }
    destruct (str_eqb ty KEIYOU); [exact (Hsplit _ _ H)|].
    destruct (str_eqb ty MEISHI); [exact (Hplain H)|].
    destruct (str_eqb ty KOYUU).
    { destruct (negb _); [discriminate | exact (Hplain H)]. }
    destruct (str_eqb ty EIGO) eqn:Ee; [|discriminate].
    apply str_eqb_eq in Ee. contradiction. }
  assert (Hj : is_jp_str U kana' = true).
  { unfold auto_divide in H.
    destruct (_ || _); [discriminate|].
    destruct (str_mem ty [EIGO; KOYUU]) eqn:Em; cbn [negb andb] in H.
    - apply str_mem_In in Em. destruct Em as [E | [E | []]];
        [symmetry in E; contradiction|]. subst ty.
      change (str_eqb KOYUU GODAN) with false in H.
      change (str_eqb KOYUU JOUGE) with false in H.
      change (str_eqb KOYUU SAHEN) with false in H.
      change (str_eqb KOYUU KAHEN) with false in H.
      change (str_eqb KOYUU KEIYOU) with false in H.
      change (str_eqb KOYUU MEISHI) with false in H.
      change (str_eqb KOYUU KOYUU) with true in H. cbv iota in H.
      destruct (is_jp_str U jp' && is_jp_str U kana') eqn:Ej;
        cbn [negb] in H; [|discriminate].
      apply andb_true_iff in Ej. tauto.
    - destruct (is_jp_str U jp' && is_jp_str U kana') eqn:Ej;
        cbn [negb] in H; [|discriminate].
      apply andb_true_iff in Ej. tauto. }
  destruct (is_jp_str_plain U kana' HU Hj) as (A & B & _).
  pose proof (Hmain Hj) as Hs. rewrite A in Hs. split; [exact Hs|].
  rewrite remove_seps_strip; [exact Hs|].
  apply no_dollar_strip. rewrite Hs. exact B.
Qed.

Lemma auto_divide_spells_reading_witness :
  strip (kana_of (u "草/\臥/\れ*る", u "くた/\び/\れ*る", u "0/0/-1*-1",
                  u "0\0\-1*-1")) = u "くたびれる"
  /\ remove_seps ucd (kana_of (u "草/\臥/\れ*る", u "くた/\び/\れ*る",
                               u "0/0/-1*-1", u "0\0\-1*-1"))
     = u "くたびれる".
Proof.
  refine (auto_divide_spells_reading ucd (u "草臥れる") (u "くたびれる") JOUGE
            _ (u "草/\臥/\れ*る", u "くた/\び/\れ*る", u "0/0/-1*-1",
               u "0\0\-1*-1") _ _ _ _).
  - vm_compute. reflexivity.
  - vm_compute. right. right. left. reflexivity.
  - vm_compute. discriminate.
  - vm_compute. reflexivity.
Defined.

(* ------------------------------------------------------------------------- *)
(** ** auto_divide: the pattern of the reading, and what it raises *)

(** X19. The pattern the solver builds for the reading of a stem always
    compiles: to the start of the text, one group per run of the stem,
    the text of a kana run or one character or more, and the end of the
    text. *)
Theorem reading_pattern_compiles (c0 : N) (rest : str) :
  re_compile (reading_pattern (runs_loop [c0] (is_kana c0) rest))
  = Ok (RSeq RBol (run_groups 0 (runs_loop [c0] (is_kana c0) rest))).
Proof.
  apply re_compile_reading_pattern.
  apply (runs_loop_ok rest [c0] (is_kana c0)); [discriminate|].
  intros Hf. cbn [forallb]. rewrite Hf. reflexivity.
Qed.

(** *** What auto_divide raises *)

(** The groups of a match of the reading, whatever the reading is. *)
Lemma reading_match (U : Unicode) (runs : list (str * bool))
    (kana_gokan : str) (m : mstate) :
  Forall run_ok runs -> runs <> [] ->
  re_match U (reading_pattern runs) kana_gokan = Ok (Some m) ->
  exists kl,
    lastindex m = Some (length runs)
    /\ mapM (group m) (seq 1 (length runs)) = Ok kl
    /\ length kl = length runs.
Proof.
  intros Hok Hne Hm. unfold re_match in Hm.
  rewrite (re_compile_reading_pattern runs Hok) in Hm. cbn [bind] in Hm.
  injection Hm as Hm. unfold match_compiled in Hm.
  assert (Hin : In m (rmatch U (run_groups 0 runs)
                        {| m_pre := []; m_suf := kana_gokan; m_caps := [] |})).
  { cbn [rmatch m_pre flat_map] in Hm. rewrite app_nil_r in Hm.
    destruct (rmatch U (run_groups 0 runs) _) as [|x l]; [discriminate|].
    injection Hm as ->. left. reflexivity. }
  destruct (rmatch_run_groups U runs 0 _ _ Hin) as (caps & C & F & S & E).
  cbn [m_caps m_suf] in C, S. rewrite app_nil_r in C.
  exists (map snd (rev caps)). split; [|split].
  - unfold lastindex. rewrite C.
    destruct runs as [|r0 runs']; [congruence|].
    cbn [length] in F. rewrite seq_S in F. rewrite rev_app_distr in F.
    cbn [rev app] in F. destruct caps as [|[i x] caps']; [discriminate|].
    cbn [map fst] in F. injection F as -> _. reflexivity.
  - assert (Hseq : seq 1 (length runs) = map fst (rev caps)).
    { rewrite map_rev, F, rev_involutive. reflexivity. }
    rewrite Hseq. apply mapM_group.
    intros i s Hi. rewrite C. apply lookup_group_In.
    + rewrite F. apply NoDup_rev, seq_NoDup.
    + apply in_rev, Hi.
  - rewrite length_map, length_rev, <- (length_map fst caps), F,
      length_rev, length_seq. reflexivity.
Qed.

Lemma combos_loop_raises (jp_gokan kana_gokan : str)
    (combos : list (list str)) :
  forall choices e,
    combos_loop jp_gokan kana_gokan combos choices = Raise e ->
    e = AutoDivisionChoiceOverflowError.
Proof.
  induction combos as [|combo rest IH]; cbn [combos_loop]; intros choices e H.
  - discriminate.
  - destruct (Nat.leb CAP (length choices)); [congruence|].
    destruct (Nat.ltb 1 _); [exact (IH _ _ H)|].
    destruct (Nat.ltb (length kana_gokan) (length jp_gokan));
      [exact (IH _ _ H)|].
    destruct (placements_loop _ _ _ choices); [exact (IH _ _ H)|].
    discriminate.
Qed.

Lemma parts_loop_raises (jp_gokan_list : list (str * bool))
    (kana_gokan_list : list str) :
  forall i e,
    parts_loop jp_gokan_list kana_gokan_list i = Raise e ->
    length jp_gokan_list + i <= length kana_gokan_list ->
    e = AutoDivisionChoiceOverflowError.
Proof.
  induction jp_gokan_list as [|[jg flag] rest IH]; cbn [parts_loop];
    intros i e H Hl.
  - discriminate.
  - unfold idx in H.
    destruct (nth_error kana_gokan_list i) as [kg|] eqn:En.
    2:{ apply nth_error_None in En. cbn [length] in Hl. lia. }
    cbn [bind] in H.
    assert (Hl' : length rest + S i <= length kana_gokan_list)
      by (cbn [length] in Hl; lia).
    destruct flag.
    + destruct (parts_loop rest kana_gokan_list (S i)) as [more|e'] eqn:E;
        cbn [bind] in H; [discriminate|].
      injection H as <-. exact (IH _ _ E Hl').
    + destruct (run_choices jg kg) as [[choices|]|e'] eqn:Er;
        cbn [bind] in H.
      * destruct (parts_loop rest kana_gokan_list (S i)) as [more|e''] eqn:E;
          cbn [bind] in H; [discriminate|].
        injection H as <-. exact (IH _ _ E Hl').
      * discriminate.
      * injection H as <-. unfold run_choices in Er.
        destruct (Nat.eqb _ 0); [discriminate|].
        exact (combos_loop_raises _ _ _ _ _ Er).
Qed.

Lemma divide_gokan_raises (U : Unicode) (jp_gokan kana_gokan : str)
    (gobi : option (str * str)) (e : exn) :
  divide_gokan U jp_gokan kana_gokan gobi = Raise e ->
  e = IndexError /\ jp_gokan = [] \/ e = AutoDivisionChoiceOverflowError.
Proof.
  unfold divide_gokan. destruct jp_gokan as [|c0 rest].
  - intros H. injection H as <-. left. split; reflexivity.
  - cbv zeta. fold (reading_pattern (runs_loop [c0] (is_kana c0) rest)).
    intros H. right.
    destruct (runs_loop_ok rest [c0] (is_kana c0)) as [Hok Hne];
      [discriminate | intros Hf; cbn [forallb]; rewrite Hf; reflexivity |].
    destruct (re_match U _ kana_gokan) as [[m|]|e'] eqn:Em; cbn [bind] in H.
    + destruct (reading_match U _ _ _ Hok Hne Em) as (kl & El & Ek & Elen).
      rewrite El in H. rewrite Ek in H. cbn [bind] in H.
      destruct (parts_loop _ kl 0) as [[parts|]|e'] eqn:E; cbn [bind] in H;
        try discriminate.
      injection H as <-. apply (parts_loop_raises _ _ _ _ E). lia.
    + discriminate.
    + exfalso. unfold re_match in Em.
      rewrite (re_compile_reading_pattern _ Hok) in Em. discriminate.
Qed.

Lemma drop_last_nil (n : nat) (s : str) :
  drop_last n s = [] -> length s <= n.
Proof.
  unfold drop_last. intros H.
  assert (L : length (firstn (length s - n) s) = 0) by (rewrite H; reflexivity).
  rewrite length_firstn in L. lia.
Qed.

(** X20. [auto_divide] raises nothing but AutoDivisionDisabledError, when
    the spelling or the reading holds a character that is not Japanese,
    AutoDivisionChoiceOverflowError, and IndexError, when the type has an
    ending and the spelling is no longer than it. *)
Theorem auto_divide_raises (U : Unicode) (jp' kana' ty : str) (e : exn) :
  auto_divide U jp' kana' ty = Raise e ->
  e = AutoDivisionDisabledError
      /\ is_jp_str U jp' && is_jp_str U kana' = false
  \/ e = AutoDivisionChoiceOverflowError
  \/ e = IndexError /\ 0 < ending_length ty
     /\ length jp' <= ending_length ty.
Proof.
  unfold auto_divide.
  destruct (_ || _) eqn:Elen; [discriminate|].
  apply orb_false_iff in Elen. destruct Elen as [Ejp _].
  apply Nat.eqb_neq in Ejp.
  assert (Hsplit : forall n ok,
             split_gobi U n ok jp' kana' = Raise e ->
             e = AutoDivisionChoiceOverflowError
             \/ e = IndexError /\ length jp' <= n).
  { intros n ok Hs. unfold split_gobi in Hs.
    match type of Hs with
    | (if ?c then _ else _) = _ => destruct c; [discriminate|]
    end.
    destruct (divide_gokan_raises _ _ _ _ _ Hs) as [[-> Hd] | ->];
      [right | left; reflexivity].
    split; [reflexivity | apply drop_last_nil, Hd]. }
  assert (Hplain : divide_gokan U jp' kana' None = Raise e ->
             e = AutoDivisionChoiceOverflowError).
  { intros Hd.
    destruct (divide_gokan_raises _ _ _ _ _ Hd) as [[_ Hd'] | ->];
      [|reflexivity].
    subst jp'. cbn in Ejp. congruence. }
  match goal with
  | |- (if ?c then _ else _) = _ -> _ => destruct c eqn:Eg
  end.
  { intros H. injection H as <-. left. split; [reflexivity|].
    apply andb_true_iff in Eg. destruct Eg as [_ Eg].
    apply negb_true_iff in Eg. exact Eg. }
  unfold ending_length.
  destruct (str_eqb ty GODAN) eqn:E1.
  { intros H. apply str_eqb_eq in E1. subst ty. right.
    destruct (Hsplit _ _ H) as [-> | [-> Hl]]; [left; reflexivity | right].
    split; [reflexivity|]. split; [cbn; lia | exact Hl]. }
  destruct (str_eqb ty JOUGE) eqn:E2.
  { intros H. apply str_eqb_eq in E2. subst ty. right.
    destruct (Hsplit _ _ H) as [-> | [-> Hl]]; [left; reflexivity | right].
    split; [reflexivity|]. split; [cbn; lia | exact Hl]. }
  destruct (str_eqb ty SAHEN) eqn:E3.
  { intros H. right.
    destruct (Hsplit _ _ H) as [-> | [-> Hl]]; [left; reflexivity | right].
    split; [reflexivity|]. split; [lia | exact Hl]. }
  destruct (str_eqb ty KAHEN).
  { destruct (_ || _); discriminate. }
  destruct (str_eqb ty KEIYOU) eqn:E5.
  { intros H. apply str_eqb_eq in E5. subst ty. right.
    destruct (Hsplit _ _ H) as [-> | [-> Hl]]; [left; reflexivity | right].
    split; [reflexivity|]. split; [cbn; lia | exact Hl]. }
  destruct (str_eqb ty MEISHI).
  { intros H. right. left. exact (Hplain H). }
  destruct (str_eqb ty KOYUU).
  { destruct (negb (is_jp_str U jp' && is_jp_str U kana')) eqn:Ek.
    - intros H. injection H as <-. left. split; [reflexivity|].
      apply negb_true_iff in Ek. exact Ek.
    - intros H. right. left. exact (Hplain H). }
  destruct (str_eqb ty EIGO); discriminate.
Qed.

Lemma auto_divide_raises_witness :
  IndexError = AutoDivisionDisabledError
      /\ is_jp_str ucd (u "む") && is_jp_str ucd (u "よむ") = false
  \/ IndexError = AutoDivisionChoiceOverflowError
  \/ IndexError = IndexError /\ 0 < ending_length GODAN
     /\ length (u "む") <= ending_length GODAN.
Proof.
  apply (auto_divide_raises ucd (u "む") (u "よむ") GODAN IndexError).
  vm_compute. reflexivity.
Defined.

(** *** A spelling that is only an ending *)

Lemma take_last_app (s g : str) : take_last (length g) (s ++ g) = g.
Proof.
  unfold take_last. rewrite length_app, Nat.add_sub, skipn_app, skipn_all,
    Nat.sub_diag. reflexivity.
Qed.

Lemma take_last_all (g : str) : take_last (length g) g = g.
Proof. apply (take_last_app [] g). Qed.

Lemma drop_last_all (g : str) : drop_last (length g) g = [].
Proof. unfold drop_last. rewrite Nat.sub_diag. reflexivity. Qed.

Lemma split_gobi_bare (U : Unicode) (ok : str -> bool) (g kana_stem : str) :
  ok g = true ->
  split_gobi U (length g) ok g (kana_stem ++ g) = Raise IndexError.
Proof.
  intros Hok. unfold split_gobi.
  rewrite take_last_app, take_last_all, str_eqb_refl, Hok, drop_last_all.
  reflexivity.
Qed.

Lemma is_jp_str_app (U : Unicode) (a b : str) :
  is_jp_str U (a ++ b) = is_jp_str U a && is_jp_str U b.
Proof. apply forallb_app. Qed.

(** X21. A spelling that is the ending of its type alone, read as some
    kana and the ending, passes the ending test and then fails in the
    solver: [auto_divide] raises IndexError. *)
Theorem auto_divide_bare_ending (U : Unicode) (ty g kana_stem : str) :
  In (ty, g) ENDINGS -> is_jp_str U kana_stem = true ->
  auto_divide U g (kana_stem ++ g) ty = Raise IndexError.
Proof.
  intros Hin Hk.
  assert (Hg : is_jp_str U g = true /\ g <> []
               /\ (str_eqb ty GODAN = true /\ length g = 1
                     /\ str_mem g GOBI_LIST = true
                   \/ str_eqb ty GODAN = false /\ str_eqb ty JOUGE = true
                      /\ g = u "る"
                   \/ str_eqb ty GODAN = false /\ str_eqb ty JOUGE = false
                      /\ str_eqb ty SAHEN = true /\ g = u "する"
                   \/ str_eqb ty GODAN = false /\ str_eqb ty JOUGE = false
                      /\ str_eqb ty SAHEN = false /\ str_eqb ty KAHEN = false
                      /\ str_eqb ty KEIYOU = true /\ g = u "い")).
  { unfold ENDINGS, GOBI_LIST in Hin. cbn [map app] in Hin.
    repeat (destruct Hin as [E | Hin];
            [injection E as <- <-;
             split; [reflexivity | split; [discriminate|]];
             first [ left; repeat split; reflexivity
                   | right; left; repeat split; reflexivity
                   | right; right; left; repeat split; reflexivity
                   | right; right; right; repeat split; reflexivity ]|]).
    destruct Hin. }
  destruct Hg as (Hj & Hne & Hty).
  rewrite auto_divide_open.
  - destruct Hty as [(E1 & L & M) | [(E1 & E2 & ->) | [(E1 & E2 & E3 & ->)
                    | (E1 & E2 & E3 & E4 & E5 & ->)]]].
    + rewrite E1. rewrite <- L. apply split_gobi_bare. exact M.
    + rewrite E1, E2. apply (split_gobi_bare U _ (u "る")). reflexivity.
    + rewrite E1, E2, E3. apply (split_gobi_bare U _ (u "する")). reflexivity.
    + rewrite E1, E2, E3, E4, E5. apply (split_gobi_bare U _ (u "い")).
      reflexivity.
  - exact Hne.
  - destruct kana_stem; [exact Hne | discriminate].
  - rewrite is_jp_str_app, Hj, Hk. reflexivity.
Qed.

Lemma auto_divide_bare_ending_witness :
  auto_divide ucd (u "する") (u "べんきょう" ++ u "する") SAHEN
  = Raise IndexError.
Proof.
  apply (auto_divide_bare_ending ucd SAHEN (u "する") (u "べんきょう")).
  - vm_compute. auto 20.
  - vm_compute. reflexivity.
Defined.

(* ------------------------------------------------------------------------- *)
(** ** The ending of a verb *)

Lemma rmatch_TO_END (U : Unicode) (st : mstate) :
  no_line_break (m_suf st) = true ->
  rmatch U TO_END st
  = [{| m_pre := rev (m_suf st) ++ m_pre st; m_suf := [];
        m_caps := m_caps st |}].
Proof.
  intros Hn. destruct st as [pre suf caps]. cbn [m_pre m_suf m_caps] in *.
  unfold TO_END. cbn [rmatch m_pre m_suf m_caps skipn].
  rewrite flat_map_of_map.
  rewrite (greedy_any_to_end U _ suf); [| |exact Hn].
  - reflexivity.
  - intros p c s Hc. cbn [fst snd flat_map map m_pre m_suf m_caps app].
    destruct s; [rewrite Hc|]; reflexivity.
Qed.

Lemma rmatch_GROUP_TO_END (U : Unicode) (i : nat) (st : mstate) :
  no_line_break (m_suf st) = true ->
  rmatch U (GROUP_TO_END i) st
  = [{| m_pre := rev (m_suf st) ++ m_pre st; m_suf := [];
        m_caps := (i, m_suf st) :: m_caps st |}].
Proof.
  intros Hn. destruct st as [pre suf caps]. cbn [m_pre m_suf m_caps] in *.
  unfold GROUP_TO_END. cbn [rmatch m_pre m_suf m_caps skipn].
  rewrite flat_map_unit, !flat_map_of_map.
  rewrite (greedy_any_to_end U _ suf); [| |exact Hn].
  - cbn [fst snd flat_map map m_pre m_suf m_caps app].
    rewrite length_app, length_rev, Nat.add_sub.
    rewrite <- (length_rev suf) at 1.
    rewrite firstn_app, Nat.sub_diag, firstn_all. cbn [firstn].
    rewrite app_nil_r, rev_involutive. reflexivity.
  - intros p c s Hc. cbn [fst snd flat_map map m_pre m_suf m_caps app].
    destruct s; [rewrite Hc|]; reflexivity.
Qed.

(** The test of the star: no [$] behind, the star ahead. *)
Lemma rmatch_star (U : Unicode) (r : regex) (st : mstate) :
  rmatch U (RSeq (RNotBehind (AChar (ch "$"))) (RSeq (RAtom (AChar (ch "*"))) r))
         st
  = if at_star (m_pre st, m_suf st)
    then rmatch U r {| m_pre := ch "*" :: m_pre st; m_suf := tl (m_suf st);
                       m_caps := m_caps st |}
    else [].
Proof.
  destruct st as [pre suf caps]. unfold at_star.
  cbn [rmatch m_pre m_suf m_caps fst snd atom_ok].
  destruct pre as [|p pre].
  - cbn [flat_map m_suf m_pre m_caps]. rewrite app_nil_r.
    destruct suf as [|c t]; [reflexivity|].
    rewrite andb_true_r. destruct (c =? ch "*")%N eqn:E; [|reflexivity].
    apply N.eqb_eq in E. subst c.
    cbn [flat_map tl]. apply app_nil_r.
  - destruct (p =? ch "$")%N; cbn [negb flat_map].
    + destruct suf as [|c t]; [reflexivity|]. rewrite andb_false_r.
      reflexivity.
    + cbn [m_suf m_pre m_caps]. rewrite app_nil_r.
      destruct suf as [|c t]; [reflexivity|].
      rewrite andb_true_r. destruct (c =? ch "*")%N eqn:E; [|reflexivity].
      apply N.eqb_eq in E. subst c.
      cbn [flat_map tl]. apply app_nil_r.
Qed.

(** The first way a continuation accepts, when it accepts a way in one
    manner at most. *)
Lemma first_way {A B} (accepts : A -> bool) (K : A -> list B) (m : A -> B)
    (W : list A) :
  (forall w, In w W -> K w = if accepts w then [m w] else []) ->
  hd_error (flat_map K W) = option_map m (find accepts W).
Proof.
  induction W as [|w W IH]; intros H; [reflexivity|].
  cbn [flat_map find]. rewrite (H w (or_introl eq_refl)).
  destruct (accepts w); [reflexivity|].
  cbn [app]. apply IH. intros x Hx. apply H. right. exact Hx.
Qed.

Lemma ways_split (U : Unicode) (s : str) (w : str * str) :
  In w (ways U s) -> rev (fst w) ++ snd w = s /\ fst w <> [].
Proof.
  unfold ways. intros H. apply in_rev in H.
  destruct s as [|c t]; [destruct H|].
  cbn [rep_all skipn] in H.
  destruct (atom_ok U AAny c); [|destruct H].
  destruct w as [p x].
  destruct (rep_all_consumes U AAny t [c] p x H) as (consumed & -> & ->).
  cbn [fst snd]. rewrite rev_app_distr, rev_involutive. cbn [rev app].
  split; [reflexivity|]. destruct (rev consumed); discriminate.
Qed.

Lemma no_line_break_tail (a b : str) :
  no_line_break (a ++ b) = true -> no_line_break (tl b) = true.
Proof.
  unfold no_line_break. rewrite forallb_app. intros H.
  apply andb_true_iff in H. destruct H as [_ H].
  destruct b; [reflexivity|]. cbn [forallb] in H.
  apply andb_true_iff in H. apply H.
Qed.

Lemma match_remove_gobi (U : Unicode) (s : str) :
  no_line_break s = true ->
  match_compiled U PATTERNS_remove_gobi s
  = option_map (fun w => {| m_pre := rev (tl (snd w)) ++ ch "*" :: fst w;
                            m_suf := []; m_caps := [(1, rev (fst w))] |})
               (find at_star (ways U s)).
Proof.
  intros Hn. unfold match_compiled.
  change (rmatch U PATTERNS_remove_gobi
            {| m_pre := []; m_suf := s; m_caps := [] |})
    with (flat_map
            (rmatch U (RSeq (RNotBehind (AChar (ch "$")))
                          (RSeq (RAtom (AChar (ch "*"))) TO_END)))
            (map (fun st' =>
                    {| m_pre := m_pre st'; m_suf := m_suf st';
                       m_caps :=
                         (1, rev (firstn (length (m_pre st') - 0) (m_pre st')))
                         :: m_caps st' |})
                 (flat_map (fun x => [x])
                    (map (fun ps => {| m_pre := fst ps; m_suf := snd ps;
                                       m_caps := [] |})
                         (rev (skipn 1 (rep_all U AAny [] s))))))
          ++ []).
  rewrite app_nil_r, flat_map_unit, map_map, flat_map_of_map.
  fold (ways U s).
  apply first_way. intros w Hw.
  destruct (ways_split U s w Hw) as [Es Hne].
  cbn [m_pre m_suf m_caps fst snd length].
  rewrite rmatch_star. cbn [m_pre m_suf m_caps].
  destruct w as [p t]. cbn [fst snd] in *.
  destruct (at_star (p, t)); [|reflexivity].
  rewrite rmatch_TO_END.
  - cbn [m_pre m_suf m_caps]. rewrite Nat.sub_0_r, firstn_all. reflexivity.
  - cbn [m_suf]. rewrite <- Es in Hn. apply (no_line_break_tail _ _ Hn).
Qed.

Lemma match_get_gobi (U : Unicode) (s : str) :
  no_line_break s = true ->
  match_compiled U PATTERNS_get_gobi s
  = option_map (fun w => {| m_pre := rev (tl (snd w)) ++ ch "*" :: fst w;
                            m_suf := []; m_caps := [(1, tl (snd w))] |})
               (find at_star (ways U s)).
Proof.
  intros Hn. unfold match_compiled.
  change (rmatch U PATTERNS_get_gobi
            {| m_pre := []; m_suf := s; m_caps := [] |})
    with (flat_map
            (rmatch U (RSeq (RNotBehind (AChar (ch "$")))
                          (RSeq (RAtom (AChar (ch "*"))) (GROUP_TO_END 1))))
            (map (fun ps => {| m_pre := fst ps; m_suf := snd ps;
                               m_caps := [] |})
                 (rev (skipn 1 (rep_all U AAny [] s))))
          ++ []).
  rewrite app_nil_r, flat_map_of_map.
  fold (ways U s).
  apply first_way. intros w Hw.
  destruct (ways_split U s w Hw) as [Es Hne].
  cbn [m_pre m_suf m_caps fst snd].
  rewrite rmatch_star. cbn [m_pre m_suf m_caps].
  destruct w as [p t]. cbn [fst snd] in *.
  destruct (at_star (p, t)); [|reflexivity].
  rewrite rmatch_GROUP_TO_END.
  - reflexivity.
  - cbn [m_suf]. rewrite <- Es in Hn. apply (no_line_break_tail _ _ Hn).
Qed.

(** X22. Where [get_gobi] returns an ending, [remove_gobi] returns a
    stem that is not empty, and the text is the stem, a star and the
    ending. *)
Theorem gobi_split (U : Unicode) (s g : str) :
  no_line_break s = true -> get_gobi U s = Ok g ->
  exists stem,
    remove_gobi U s = Ok stem /\ stem <> [] /\ s = stem ++ ch "*" :: g.
Proof.
  intros Hn Hg. unfold get_gobi, remove_gobi in *.
  rewrite (match_get_gobi U s Hn) in Hg.
  rewrite (match_remove_gobi U s Hn).
  destruct (find at_star (ways U s)) as [[p t]|] eqn:E; cbn [option_map] in *;
    [|discriminate].
  apply find_some in E. destruct E as [Hw Hs].
  destruct (ways_split U s _ Hw) as [Es Hne]. cbn [fst snd] in *.
  unfold too_many_groups, lastindex, group in *. cbn [m_caps] in *.
  cbn [Nat.ltb Nat.leb lookup_group Nat.eqb] in *.
  injection Hg as <-.
  exists (rev p). split; [reflexivity|]. split.
  - destruct p; [congruence|]. cbn [rev]. destruct (rev p); discriminate.
  - unfold at_star in Hs. cbn [fst snd] in Hs.
    destruct t as [|c t]; [discriminate|].
    apply andb_true_iff in Hs. destruct Hs as [Hc _].
    apply N.eqb_eq in Hc. subst c. cbn [tl]. symmetry. exact Es.
Qed.

Lemma gobi_split_witness :
  exists stem,
    remove_gobi ucd (u "読*む") = Ok stem /\ stem <> []
    /\ u "読*む" = stem ++ ch "*" :: u "む".
Proof.
  apply (gobi_split ucd (u "読*む") (u "む")); vm_compute; reflexivity.
Defined.
